(** * AI-agent-file-sorting: a shallow embedding of the orchestration core

The development follows the Python sources module by module
([utils_fs], [llm_io], [tools], [actions], [agent]).  Python strings are
sequences of Unicode code points; every other Python value that the
modelled code handles comes out of a JSON document.  Code that may raise
returns a [res]; code that talks to the file system or to the model is
written against an explicit interface. *)

From Stdlib Require Import List NArith ZArith Lia Bool String Ascii Reals Lra.
From stdpp Require Import gmap list.
Import ListNotations.

Set Implicit Arguments.
Local Open Scope N_scope.

(** ** Python [str] *)

(** A Python string is a list of code points. *)
Definition pystr : Type := list N.

(** [py "abc"] is the Python literal ["abc"] (each character of the Rocq
    literal is one code point below 256). *)
Definition py (s : string) : pystr :=
  List.map N_of_ascii (list_ascii_of_string s).

Definition pystr_eqb (a b : pystr) : bool := bool_decide (a = b).

Definition is_nil {A} (l : list A) : bool :=
  match l with
  | [] => true
  | _ :: _ => false
  end.

(** [str.isspace] on a single code point (CPython's [_PyUnicode_IsWhitespace]):
    the characters [strip()] removes and the regex class [\s] matches. *)
Definition py_isspace (c : N) : bool :=
  ((9 <=? c) && (c <=? 13)) || ((28 <=? c) && (c <=? 32))
  || (c =? 133) || (c =? 160) || (c =? 5760)
  || ((8192 <=? c) && (c <=? 8202))
  || (c =? 8232) || (c =? 8233) || (c =? 8239) || (c =? 8287) || (c =? 12288).

Definition is_ascii (c : N) : bool := c <? 128.

Definition ascii_alnum (c : N) : bool :=
  ((48 <=? c) && (c <=? 57)) || ((65 <=? c) && (c <=? 90))
  || ((97 <=? c) && (c <=? 122)).

Definition ascii_lower (c : N) : N :=
  if (65 <=? c) && (c <=? 90) then c + 32 else c.

(** The parts of the Unicode database that the interpreter consults and that
    have no closed form: alphanumeric class, full case folding and lower
    case of non-ASCII code points, and the normalization form used for paths
    ([unicodedata.normalize(MAC_NORM, _)]). *)
Class UnicodeData := {
  uni_isalnum : N -> bool;
  uni_casefold : N -> pystr;
  uni_lower : N -> pystr;
  uni_normalize : pystr -> pystr
}.

(** The transliteration table of the [unidecode] package for non-ASCII code
    points. *)
Class Unidecode := {
  unidecode_table : N -> pystr
}.

Section PyStr.
  Context `{UnicodeData}.

(** [str.lstrip], [str.rstrip] and [str.strip] for a set of characters
    given as a predicate. *)
Fixpoint lstrip_by (p : N -> bool) (s : pystr) : pystr :=
  match s with
  | [] => []
  | c :: r => if p c then lstrip_by p r else s
  end.

Fixpoint rstrip_by (p : N -> bool) (s : pystr) : pystr :=
  match s with
  | [] => []
  | c :: r =>
      match rstrip_by p r with
      | [] => if p c then [] else [c]
      | r' => c :: r'
      end
  end.

Definition strip_by (p : N -> bool) (s : pystr) : pystr :=
  rstrip_by p (lstrip_by p s).

(** [s.strip()] *)
Definition strip (s : pystr) : pystr := strip_by py_isspace s.

(** [s.strip(chars)] *)
Definition strip_chars (chars : pystr) (s : pystr) : pystr :=
  strip_by (fun c => existsb (N.eqb c) chars) s.

(** [s.split(sep)] for a one-character separator: always at least one
    field. *)
Fixpoint split_on (sep : N) (s : pystr) : list pystr :=
  match s with
  | [] => [[]]
  | c :: r =>
      if c =? sep then [] :: split_on sep r
      else match split_on sep r with
           | [] => [[c]]
           | w :: ws => (c :: w) :: ws
           end
  end.

(** [s.split(sep, 1)]: the text before the first separator and, when there
    is one, the text after it. *)
Fixpoint split_once (sep : N) (s : pystr) : pystr * option pystr :=
  match s with
  | [] => ([], None)
  | c :: r =>
      if c =? sep then ([], Some r)
      else let '(a, b) := split_once sep r in (c :: a, b)
  end.

(** [sep.join(parts)] *)
Fixpoint join (sep : pystr) (parts : list pystr) : pystr :=
  match parts with
  | [] => []
  | [a] => a
  | a :: rest => a ++ sep ++ join sep rest
  end.

(** [s.startswith(prefix)] *)
Fixpoint startswith (pre s : pystr) : bool :=
  match pre, s with
  | [], _ => true
  | _ :: _, [] => false
  | a :: pre', b :: s' => (a =? b) && startswith pre' s'
  end.

(** [needle in s] *)
Fixpoint contains (needle s : pystr) : bool :=
  startswith needle s ||
  match s with
  | [] => false
  | _ :: r => contains needle r
  end.

(** [s.replace(old, new)] for a one-character [old]. *)
Definition replace_char (old : N) (new : pystr) (s : pystr) : pystr :=
  flat_map (fun c => if c =? old then new else [c]) s.

(** [s.casefold()]: ASCII letters are lowered, other code points go through
    the Unicode case-folding table. *)
Definition casefold (s : pystr) : pystr :=
  flat_map (fun c => if is_ascii c then [ascii_lower c] else uni_casefold c) s.

(** [s.lower()] *)
Definition lower (s : pystr) : pystr :=
  flat_map (fun c => if is_ascii c then [ascii_lower c] else uni_lower c) s.

(** [re.sub(CLASS+, repl, s)]: every maximal run of characters of the class
    is replaced by [repl].  [in_run] records that the previous character
    belonged to the class. *)
Fixpoint sub_runs (cls : N -> bool) (repl : pystr) (in_run : bool)
         (s : pystr) : pystr :=
  match s with
  | [] => []
  | c :: r =>
      if cls c then
        if in_run then sub_runs cls repl true r
        else repl ++ sub_runs cls repl true r
      else c :: sub_runs cls repl false r
  end.

(** The regex class [\w] of a [str] pattern. *)
Definition re_word (c : N) : bool :=
  if is_ascii c then ascii_alnum c || (c =? 95) else uni_isalnum c.
End PyStr.


(** ** utils_fs.py *)

Module utils_fs.
Section UtilsFs.
  Context `{UnicodeData} `{Unidecode}.

(** [unidecode(s)]: ASCII code points are kept, the others are replaced by
    their table entry. *)
Definition unidecode (s : pystr) : pystr :=
  flat_map (fun c => if is_ascii c then [c] else unidecode_table c) s.

(** The complement of the class [[\w.\-() ]]. *)
Definition unsafe_char (c : N) : bool :=
  negb (re_word c || (c =? 46) || (c =? 45) || (c =? 40) || (c =? 41)
        || (c =? 32)).

(** [safe_ascii(s)] *)
Definition safe_ascii (s : pystr) : pystr :=
  let s := unidecode s in
  let s := strip (sub_runs unsafe_char (py "_") false s) in
  let s := strip (sub_runs py_isspace (py " ") false s) in
  match s with
  | [] => py "unnamed"
  | _ => s
  end.

(** [os.path.normpath] (posixpath): one iteration of the loop over the
    components, then the function. *)
Definition normpath_step (initial_slashes : nat) (new_comps : list pystr)
           (comp : pystr) : list pystr :=
  if pystr_eqb comp [] || pystr_eqb comp (py ".") then new_comps
  else if negb (pystr_eqb comp (py ".."))
          || (Nat.eqb initial_slashes 0 && is_nil new_comps)
          || (negb (is_nil new_comps)
              && pystr_eqb (List.last new_comps []) (py ".."))
       then new_comps ++ [comp]
       else removelast new_comps.

Definition normpath_comps (initial_slashes : nat) (comps : list pystr)
  : list pystr :=
  fold_left (normpath_step initial_slashes) comps [].

Definition normpath (path : pystr) : pystr :=
  match path with
  | [] => py "."
  | _ =>
      let initial_slashes :=
        if startswith (py "/") path then
          if startswith (py "//") path && negb (startswith (py "///") path)
          then 2%nat else 1%nat
        else 0%nat in
      let comps := normpath_comps initial_slashes (split_on 47 path) in
      let path := List.repeat 47 initial_slashes ++ join (py "/") comps in
      match path with
      | [] => py "."
      | _ => path
      end
  end.

(** [fs_norm_path(path)] *)
Definition fs_norm_path (path : pystr) : pystr :=
  normpath (uni_normalize path).

(** [purge_queue_under(queue, moved_path)].  [resolve p] is
    [str(pathlib.Path(p).resolve())], or [None] when that raises; the
    deque is emptied from the left into [keep], which is then appended to
    the (now empty) queue. *)
Section Purge.
  Variable resolve : pystr -> option pystr.

Definition resolved_or_self (p : pystr) : pystr :=
  match resolve p with
  | Some r => r
  | None => p
  end.

(** The test of the loop body: the entry is the moved path or lies below
    it. *)
Definition under_moved (moved_str q_res : pystr) : bool :=
  pystr_eqb q_res moved_str || startswith (moved_str ++ py "/") q_res.

Fixpoint purge_loop (moved_str : pystr) (queue keep : list pystr)
  : list pystr * list pystr :=
  match queue with
  | [] => ([], keep)
  | q_str :: queue' =>
      let q_res := resolved_or_self q_str in
      if under_moved moved_str q_res
      then purge_loop moved_str queue' keep
      else purge_loop moved_str queue' (keep ++ [q_str])
  end.

Definition purge_queue_under (queue : list pystr) (moved_path : pystr)
  : list pystr :=
  let moved_str := resolved_or_self moved_path in
  let '(queue, keep) := purge_loop moved_str queue [] in
  queue ++ keep.
End Purge.
End UtilsFs.
End utils_fs.

(** ** JSON values and [json.loads] *)

(** The Python values that come out of [json.loads]: [None], [bool], numbers,
    [str], [list] and [dict].  An [int] is an integer; a [float] is kept as
    its literal, the code modelled here only ever asks whether it is zero. *)
#[local] Set Warnings "-register-all".
Inductive json : Type :=
| JNull
| JBool (b : bool)
| JInt (z : Z)
| JFloat (literal : pystr)
| JStr (s : pystr)
| JArr (items : list json)
| JObj (fields : list (pystr * json)).

(** A [dict] is an association list with pairwise distinct keys, in insertion
    order. *)
Definition pydict : Type := list (pystr * json).

(** [d.get(k)] *)
Fixpoint dict_get {A} (k : pystr) (d : list (pystr * A)) : option A :=
  match d with
  | [] => None
  | (k', v) :: d' => if pystr_eqb k k' then Some v else dict_get k d'
  end.

(** [d[k] = v] *)
Fixpoint dict_set {A} (k : pystr) (v : A) (d : list (pystr * A))
  : list (pystr * A) :=
  match d with
  | [] => [(k, v)]
  | (k', v') :: d' =>
      if pystr_eqb k k' then (k, v) :: d' else (k', v') :: dict_set k v d'
  end.

(** [d.pop(k, None)] *)
Fixpoint dict_pop {A} (k : pystr) (d : list (pystr * A)) : list (pystr * A) :=
  match d with
  | [] => []
  | (k', v') :: d' =>
      if pystr_eqb k k' then d' else (k', v') :: dict_pop k d'
  end.

(** [x in xs] for strings. *)
Definition str_in (x : pystr) (xs : list pystr) : bool :=
  existsb (pystr_eqb x) xs.

Definition is_digit (c : N) : bool := (48 <=? c) && (c <=? 57).

(** A float literal denotes zero when its mantissa (the part before an
    exponent) has digits and all of them are [0]; the literals [NaN] and
    [Infinity] have no digit. *)
Fixpoint mantissa (lit : pystr) : pystr :=
  match lit with
  | [] => []
  | c :: r => if (c =? 101) || (c =? 69) then [] else c :: mantissa r
  end.

Definition literal_is_zero (lit : pystr) : bool :=
  let ds := List.filter is_digit (mantissa lit) in
  negb (is_nil ds) && forallb (N.eqb 48) ds.

(** [bool(v)], the truth value that [v or default] and [if v] test. *)
Definition truthy (v : json) : bool :=
  match v with
  | JNull => false
  | JBool b => b
  | JInt z => negb (z =? 0)%Z
  | JFloat lit => negb (literal_is_zero lit)
  | JStr s => negb (is_nil s)
  | JArr l => negb (is_nil l)
  | JObj d => negb (is_nil d)
  end.

(** [d.get(k) or default] *)
Definition get_or (d : pydict) (k : pystr) (default : json) : json :=
  match dict_get k d with
  | Some v => if truthy v then v else default
  | None => default
  end.

(** *** A reference decoder

[json_loads] follows the grammar [json.loads] accepts (RFC 8259 plus the
literals [NaN], [Infinity], [-Infinity]; the last binding of a repeated
key wins).  [None] stands for [JSONDecodeError].  The properties below
are proved for an arbitrary decoder; this one runs the examples. *)
Module json_decoder.

Definition is_ws (c : N) : bool :=
  (c =? 32) || (c =? 9) || (c =? 10) || (c =? 13).

Definition skip_ws (s : pystr) : pystr := lstrip_by is_ws s.

Definition hex_val (c : N) : option N :=
  if is_digit c then Some (c - 48)
  else if (97 <=? c) && (c <=? 102) then Some (c - 87)
  else if (65 <=? c) && (c <=? 70) then Some (c - 55)
  else None.

Definition hex4 (s : pystr) : option (N * pystr) :=
  match s with
  | a :: b :: c :: d :: r =>
      match hex_val a, hex_val b, hex_val c, hex_val d with
      | Some a, Some b, Some c, Some d =>
          Some (((a * 16 + b) * 16 + c) * 16 + d, r)
      | _, _, _, _ => None
      end
  | _ => None
  end.

(** The body of a string literal, after the opening quote. *)
Fixpoint scan_string (fuel : nat) (s acc : pystr) : option (pystr * pystr) :=
  match fuel with
  | O => None
  | S fuel =>
      match s with
      | [] => None
      | 34 :: r => Some (acc, r)
      | 92 :: e :: r =>
          let simple c := scan_string fuel r (acc ++ [c]) in
          if e =? 34 then simple 34
          else if e =? 92 then simple 92
          else if e =? 47 then simple 47
          else if e =? 98 then simple 8
          else if e =? 102 then simple 12
          else if e =? 110 then simple 10
          else if e =? 114 then simple 13
          else if e =? 116 then simple 9
          else if e =? 117 then
            match hex4 r with
            | Some (hi, r1) =>
                if (55296 <=? hi) && (hi <=? 56319) then
                  match r1 with
                  | 92 :: 117 :: r2 =>
                      match hex4 r2 with
                      | Some (lo, r3) =>
                          if (56320 <=? lo) && (lo <=? 57343)
                          then scan_string fuel r3
                                 (acc ++ [65536 + (hi - 55296) * 1024
                                          + (lo - 56320)])
                          else scan_string fuel r1 (acc ++ [hi])
                      | None => scan_string fuel r1 (acc ++ [hi])
                      end
                  | _ => scan_string fuel r1 (acc ++ [hi])
                  end
                else scan_string fuel r1 (acc ++ [hi])
            | None => None
            end
          else None
      | c :: r => if c <? 32 then None else scan_string fuel r (acc ++ [c])
      end
  end.

Fixpoint take_digits (s : pystr) : pystr * pystr :=
  match s with
  | c :: r => if is_digit c then let '(d, r') := take_digits r in (c :: d, r')
              else ([], s)
  | [] => ([], [])
  end.

(** A number: an optional minus sign, an integer part without leading
    zero, an optional fraction, an optional exponent. *)
Definition digits_value (ds : pystr) : Z :=
  fold_left (fun acc d => (acc * 10 + Z.of_N (d - 48))%Z) ds 0%Z.

Definition scan_number (s : pystr) : option (json * pystr) :=
  let '(sign, s1) := match s with 45 :: r => ([45], r) | _ => ([], s) end in
  let '(int, s2) := take_digits s1 in
  match int with
  | [] => None
  | d :: ds =>
      let '(int, s2) := if d =? 48 then ([48], ds ++ s2) else (int, s2) in
      let '(frac, s3) :=
        match s2 with
        | 46 :: r => let '(f, r') := take_digits r in
                     if is_nil f then ([], s2) else (46 :: f, r')
        | _ => ([], s2)
        end in
      let '(exp, s4) :=
        match s3 with
        | e :: r =>
            if (e =? 101) || (e =? 69) then
              let '(sg, r1) := match r with
                               | 43 :: r1 => ([43], r1)
                               | 45 :: r1 => ([45], r1)
                               | _ => ([], r)
                               end in
              let '(x, r2) := take_digits r1 in
              if is_nil x then ([], s3) else (e :: sg ++ x, r2)
            else ([], s3)
        | [] => ([], s3)
        end in
      if is_nil frac && is_nil exp
      then Some (JInt (if is_nil sign then digits_value int
                       else - digits_value int)%Z, s4)
      else Some (JFloat (sign ++ int ++ frac ++ exp), s4)
  end.

Definition strip_prefix (pre s : pystr) : option pystr :=
  if startswith pre s then Some (skipn (length pre) s) else None.

Fixpoint parse_value (fuel : nat) (s : pystr) {struct fuel}
  : option (json * pystr) :=
  match fuel with
  | O => None
  | S fuel =>
      match s with
      | 34 :: r =>
          match scan_string (S (length r)) r [] with
          | Some (str, r') => Some (JStr str, r')
          | None => None
          end
      | 123 :: r =>
          match skip_ws r with
          | 125 :: r' => Some (JObj [], r')
          | r' => match parse_members fuel r' [] with
                  | Some (d, r'') => Some (JObj d, r'')
                  | None => None
                  end
          end
      | 91 :: r =>
          match skip_ws r with
          | 93 :: r' => Some (JArr [], r')
          | r' => match parse_items fuel r' [] with
                  | Some (l, r'') => Some (JArr l, r'')
                  | None => None
                  end
          end
      | _ =>
          match strip_prefix (py "null") s, strip_prefix (py "true") s,
                strip_prefix (py "false") s, strip_prefix (py "NaN") s,
                strip_prefix (py "Infinity") s,
                strip_prefix (py "-Infinity") s with
          | Some r, _, _, _, _, _ => Some (JNull, r)
          | _, Some r, _, _, _, _ => Some (JBool true, r)
          | _, _, Some r, _, _, _ => Some (JBool false, r)
          | _, _, _, Some r, _, _ => Some (JFloat (py "NaN"), r)
          | _, _, _, _, Some r, _ => Some (JFloat (py "Infinity"), r)
          | _, _, _, _, _, Some r => Some (JFloat (py "-Infinity"), r)
          | _, _, _, _, _, _ =>
              scan_number s
          end
      end
  end
with parse_items (fuel : nat) (s : pystr) (acc : list json) {struct fuel}
  : option (list json * pystr) :=
  match fuel with
  | O => None
  | S fuel =>
      match parse_value fuel s with
      | Some (v, r) =>
          match skip_ws r with
          | 93 :: r' => Some (acc ++ [v], r')
          | 44 :: r' => parse_items fuel (skip_ws r') (acc ++ [v])
          | _ => None
          end
      | None => None
      end
  end
with parse_members (fuel : nat) (s : pystr) (acc : pydict) {struct fuel}
  : option (pydict * pystr) :=
  match fuel with
  | O => None
  | S fuel =>
      match s with
      | 34 :: r =>
          match scan_string (S (length r)) r [] with
          | Some (k, r1) =>
              match skip_ws r1 with
              | 58 :: r2 =>
                  match parse_value fuel (skip_ws r2) with
                  | Some (v, r3) =>
                      match skip_ws r3 with
                      | 125 :: r' => Some (dict_set k v acc, r')
                      | 44 :: r' =>
                          parse_members fuel (skip_ws r') (dict_set k v acc)
                      | _ => None
                      end
                  | None => None
                  end
              | _ => None
              end
          | None => None
          end
      | _ => None
      end
  end.

Definition json_loads (s : pystr) : option json :=
  match parse_value (2 * length s + 2) (skip_ws s) with
  | Some (v, r) => match skip_ws r with
                   | [] => Some v
                   | _ => None
                   end
  | None => None
  end.
End json_decoder.

(** ** llm_io.py *)

Module llm_io.
Section Coercer.
  (** [json.loads]; [None] when it raises. *)
  Variable loads : pystr -> option json.

(** [{"actions": [], "error": tag}] *)
Definition error_result (tag : string) : json :=
  JObj [(py "actions", JArr []); (py "error", JStr (py tag))].

(** [obj if isinstance(obj, dict) else {"actions": [], "error": "not_dict_root"}] *)
Definition dict_or_error (obj : json) : json :=
  match obj with
  | JObj _ => obj
  | _ => error_result "not_dict_root"
  end.

(** The class [[\x00-\x08\x0b\x0c\x0e-\x1f]]. *)
Definition is_control (c : N) : bool :=
  (c <=? 8) || (c =? 11) || (c =? 12) || ((14 <=? c) && (c <=? 31)).

(** [t[a:b]] for [0 <= a <= b]. *)
Definition slice (t : pystr) (a b : nat) : pystr :=
  firstn (b - a) (skipn a t).

(** [_first_balanced_with_actions(t)]: the [while] loop, started at index
    [i] with [rest = t[i:]].  [start] is [None] for the sentinel [-1]. *)
Fixpoint scan_balanced (t rest : pystr) (i : nat) (in_str esc : bool)
         (depth : nat) (start : option nat) : option pystr :=
  match rest with
  | [] => None
  | ch :: rest' =>
      if in_str then
        if esc then scan_balanced t rest' (S i) true false depth start
        else if ch =? 92 then scan_balanced t rest' (S i) true true depth start
        else if ch =? 34 then scan_balanced t rest' (S i) false esc depth start
        else scan_balanced t rest' (S i) true esc depth start
      else
        if ch =? 34 then scan_balanced t rest' (S i) true esc depth start
        else if ch =? 123 then
          scan_balanced t rest' (S i) false esc (S depth)
                        (if Nat.eqb depth 0 then Some i else start)
        else if ch =? 125 then
          match depth with
          | S depth' =>
              match depth', start with
              | O, Some st =>
                  let frag := slice t st (i + 1) in
                  if contains (34 :: py "actions" ++ [34]) frag then Some frag
                  else scan_balanced t rest' (S i) false esc depth' start
              | _, _ => scan_balanced t rest' (S i) false esc depth' start
              end
          | O => scan_balanced t rest' (S i) false esc depth start
          end
        else scan_balanced t rest' (S i) false esc depth start
  end.

Definition _first_balanced_with_actions (t : pystr) : option pystr :=
  scan_balanced t t 0 false false 0 None.

(** [re.search(r'\{.*?\}', txt, flags=re.S)]: from the first opening brace
    to the first closing brace after it. *)
Fixpoint through_first (ch : N) (s : pystr) : option pystr :=
  match s with
  | [] => None
  | c :: r =>
      if c =? ch then Some [c]
      else match through_first ch r with
           | Some body => Some (c :: body)
           | None => None
           end
  end.

Fixpoint search_brace_span (txt : pystr) : option pystr :=
  match txt with
  | [] => None
  | c :: r =>
      if c =? 123 then
        match through_first 125 r with
        | Some body => Some (c :: body)
        | None => None
        end
      else search_brace_span r
  end.

(** Step 3 of [_json_coerce]. *)
Definition regex_fallback (txt : pystr) : json :=
  match search_brace_span txt with
  | Some frag =>
      match loads frag with
      | Some obj => dict_or_error obj
      | None => error_result "parse_coerce_fail"
      end
  | None => error_result "no_braces"
  end.

(** [re.sub(r'[\x00-\x08\x0b\x0c\x0e-\x1f]', '', s.strip())] *)
Definition cleaned_text (s : pystr) : pystr :=
  List.filter (fun c => negb (is_control c)) (strip s).

(** [_json_coerce(s)] for a [str] argument (which decides the
    [isinstance] test at its head). *)
Definition _json_coerce (s : pystr) : json :=
  let txt := cleaned_text s in
  match loads txt with
  | Some obj => dict_or_error obj
  | None =>
      match _first_balanced_with_actions txt with
      | Some frag =>
          if negb (is_nil frag) then
            match loads frag with
            | Some obj => dict_or_error obj
            | None => regex_fallback txt
            end
          else regex_fallback txt
      | None => regex_fallback txt
      end
  end.
End Coercer.
End llm_io.

(** ** pathlib *)

(** A [PurePosixPath]: the anchor (empty, one slash or two slashes) and the
    components.  Single dots and empty components are dropped when a path is
    built from a string; double dots are kept. *)
Record path : Type := Path { anchor : pystr; comps : list pystr }.

Definition path_of_str (s : pystr) : path :=
  {| anchor :=
       if startswith (py "/") s then
         if startswith (py "//") s && negb (startswith (py "///") s)
         then py "//" else py "/"
       else [];
     comps :=
       List.filter (fun c => negb (pystr_eqb c [] || pystr_eqb c (py ".")))
                   (split_on 47 s) |}.

(** [str(p)] *)
Definition path_str (p : path) : pystr :=
  match anchor p, comps p with
  | [], [] => py "."
  | a, cs => a ++ join (py "/") cs
  end.

(** [p / seg] *)
Definition joinpath (p : path) (seg : pystr) : path :=
  if startswith (py "/") seg then path_of_str seg
  else {| anchor := anchor p; comps := comps p ++ comps (path_of_str seg) |}.

(** [p.joinpath( *segs )] *)
Definition joinpath_all (p : path) (segs : list pystr) : path :=
  fold_left joinpath segs p.

(** [p.relative_to(base)] *)
Fixpoint strip_comps (base p : list pystr) : option (list pystr) :=
  match base, p with
  | [], _ => Some p
  | b :: base', c :: p' => if pystr_eqb b c then strip_comps base' p' else None
  | _ :: _, [] => None
  end.

(** [p.name], [p.parent], [p.parts] *)
Definition path_name (p : path) : pystr := List.last (comps p) [].

Definition path_parent (p : path) : path :=
  {| anchor := anchor p; comps := removelast (comps p) |}.

Definition path_parts (p : path) : list pystr :=
  (if is_nil (anchor p) then [] else [anchor p]) ++ comps p.

(** [name.rfind('.')] *)
Fixpoint rfind_dot (name : pystr) (i : nat) (found : option nat) : option nat :=
  match name with
  | [] => found
  | c :: r => rfind_dot r (S i) (if c =? 46 then Some i else found)
  end.

(** [p.suffix] *)
Definition path_suffix (p : path) : pystr :=
  let name := path_name p in
  match rfind_dot name 0 None with
  | Some i => if (0 <? i)%nat && (i <? length name - 1)%nat
              then skipn i name else []
  | None => []
  end.

(** ** Effects

Everything outside the process is reached through events: the model
backend, the file system, the log.  A program is a tree of events; an
uncaught exception ends it with [Throw]. *)

(** The structured content of a prompt: the memory entries kept by
    [build_prompt] and the observation object.  (The fixed system text is
    left out.) *)
Record prompt : Type := { prompt_mem : list json; prompt_obs : json }.

(** Results of calls that may raise. *)
Inductive res (A : Type) : Type :=
| Ok (a : A)
| Raise (exc : pystr).
Arguments Ok {A} a.
Arguments Raise {A} exc.

#[global] Instance res_ret : MRet res := fun _ a => Ok a.
#[global] Instance res_bind : MBind res := fun _ _ k m =>
  match m with
  | Ok a => k a
  | Raise e => Raise e
  end.

#[global] Instance res_fmap : FMap res := fun _ _ f m =>
  match m with
  | Ok a => Ok (f a)
  | Raise e => Raise e
  end.

(** A method of [str] called on a value: anything but a [str] raises. *)
Definition as_str (v : json) : res pystr :=
  match v with
  | JStr s => Ok s
  | _ => Raise (py "AttributeError")
  end.

Inductive ev : Type -> Type :=
| EvLog (record : pydict) : ev unit
    (* [_log(record)] *)
| EvLLM (p : prompt) (n_predict : nat) : ev (pydict * pystr)
    (* [llm_json(prompt, n_predict)]: the plan and the raw text *)
| EvIsDir (p : pystr) : ev bool
| EvIsFile (p : pystr) : ev bool
| EvExists (p : pystr) : ev bool
| EvObserve (p : pystr) : ev pydict
    (* the [cur] record of the target (size, hints, directory summary) *)
| EvToolListDir (p : pystr) : ev (list pystr)
    (* [tool_list_dir(p)]: the ["path"] of each of its items, in order *)
| EvToolInspectFile (p : pystr) : ev pydict
    (* [tool_inspect_file(p)] *)
| EvTreeSnapshot (root : pystr) (depth dir_cap : nat) : ev json
| EvResolve (p : pystr) : ev (res pystr)
    (* [str(Path(p).resolve())] *)
| EvIterdir (p : pystr) : ev (res (list pystr))
    (* the names of the entries of [Path(p).iterdir()] *)
| EvOwner (p : pystr) (recent_inspect : json) : ev (option pystr)
    (* [detect_owner_for_path] *)
| EvMkdir (p : pystr) : ev (res unit)
    (* [Path(p).mkdir(parents=True, exist_ok=True)] *)
| EvRmtree (p : pystr) : ev (res unit)
| EvMove (src dst : pystr) : ev (res unit).
    (* [shutil.move(src, dst)] *)

Inductive prog (A : Type) : Type :=
| Ret (a : A)
| Throw (exc : pystr)
| Vis {X : Type} (e : ev X) (k : X -> prog A).
Arguments Ret {A} a.
Arguments Throw {A} exc.
Arguments Vis {A X} e k.

Fixpoint prog_bind {A B} (k : A -> prog B) (m : prog A) : prog B :=
  match m with
  | Ret a => k a
  | Throw e => Throw e
  | Vis e h => Vis e (fun x => prog_bind k (h x))
  end.

#[global] Instance prog_ret : MRet prog := fun _ a => Ret a.
#[global] Instance prog_mbind : MBind prog := fun _ _ k m => prog_bind k m.

(** [try: m except Exception as exc: handler(exc)] *)
Fixpoint catch {A} (m : prog A) (handler : pystr -> prog A) : prog A :=
  match m with
  | Ret a => Ret a
  | Throw e => handler e
  | Vis e h => Vis e (fun x => catch (h x) handler)
  end.

(** Pure code that may raise, run inside a program. *)
Definition lift_res {A} (r : res A) : prog A :=
  match r with
  | Ok a => Ret a
  | Raise exc => Throw exc
  end.

(** One call to the outside. *)
Definition call {X} (e : ev X) : prog X := Vis e Ret.

(** A call that may raise: the exception propagates. *)
Definition call_r {X} (e : ev (res X)) : prog X :=
  Vis e (fun r => match r with Ok x => Ret x | Raise exc => Throw exc end).

(** Running a program against a world: [handle] answers each event and moves
    the world; the events are recorded in order. *)
Inductive outcome (A : Type) : Type :=
| Returned (a : A)
| Raised (exc : pystr).
Arguments Returned {A} a.
Arguments Raised {A} exc.

(** An event without its answer type. *)
Inductive happened : Type :=
| Happened {X : Type} (e : ev X).

Definition handler (W : Type) : Type := forall X, ev X -> W -> X * W.

Fixpoint run_prog {W A} (handle : handler W) (m : prog A) (w : W)
  : outcome A * W * list happened :=
  match m with
  | Ret a => (Returned a, w, [])
  | Throw e => (Raised e, w, [])
  | Vis e k =>
      let '(x, w') := handle _ e w in
      let '(o, w'', tr) := run_prog handle (k x) w' in
      (o, w'', Happened e :: tr)
  end.

(** Configuration ([config.py]): the home directory decides the vault; the
    other values are read from the environment. *)
Class Config := {
  HOME : path;
  MAX_STEPS : Z;
  INSPECT_CAP_PER_FILE : Z;
  FIRST_CALL_NPRED : nat
}.

Section Roots.
  Context `{Config}.

Definition ROOT : path := joinpath HOME (py "_Vault").

Definition INBOX : path := joinpath ROOT (py "INBOX").

Definition DOCS : path := joinpath ROOT (py "Documents").

Definition PROJ : path := joinpath ROOT (py "Projects").

Definition MEDIA : path := joinpath ROOT (py "Media").

(** [allowed_destinations()] *)
Definition allowed_destinations : list pystr :=
  [py "Documents/*"; py "Media/*"; py "Projects"].
End Roots.

(** ** tools.py *)

Module tools.
Section Tools.
  Context `{UnicodeData} `{Unidecode} `{Config}.

Definition _ROOT_MAP : list (pystr * path) :=
  [(py "Documents", DOCS); (py "Media", MEDIA); (py "Projects", PROJ)].

Fixpoint root_lookup (name : pystr) (m : list (pystr * path)) : option path :=
  match m with
  | [] => None
  | (k, v) :: m' => if pystr_eqb name k then Some v else root_lookup name m'
  end.

(** [_destination_root(name)] *)
Definition _destination_root (name : pystr) : prog path :=
  match root_lookup name _ROOT_MAP with
  | Some p => Ret p
  | None => Throw (py "Unknown destination_root: " ++ name)
  end.

(** [os.sep] of the POSIX platforms the vault layout is written for. *)
Definition os_sep : N := 47.

(** [_sanitize_segment(segment)] *)
Definition _sanitize_segment (segment : pystr) : pystr :=
  let segment :=
    strip (replace_char 0 [] (replace_char os_sep (py "_") segment)) in
  if pystr_eqb segment [] || pystr_eqb segment (py ".")
     || pystr_eqb segment (py "..")
  then py "_" else segment.

(** The destination directory and the destination path that
    [tool_plan_move] computes from the root directory. *)
Definition plan_move_dest_dir (base : path) (subpath : pystr) : path :=
  let parts := List.filter (fun part => negb (is_nil part))
                           (split_on 47 subpath) in
  let safe_parts := List.map _sanitize_segment parts in
  if negb (is_nil safe_parts) then joinpath_all base safe_parts else base.

Definition plan_move_dest_path (base : path) (subpath filename : pystr)
  : path :=
  joinpath (plan_move_dest_dir base subpath) (utils_fs.safe_ascii filename).

(** [{"moved_to": ..., "error": ...}] *)
Definition move_result (moved_to error : json) : pydict :=
  [(py "moved_to", moved_to); (py "error", error)].

(** [tool_plan_move(src, destination_root, subpath, filename)] *)
Definition tool_plan_move (src destination_root subpath filename : pystr)
  : prog pydict :=
  catch
    (let src_path := path_of_str src in
     base ← _destination_root destination_root;
     let dest_dir := plan_move_dest_dir base subpath in
     _ ← call_r (EvMkdir (path_str dest_dir));
     let dest_path := plan_move_dest_path base subpath filename in
     src_is_dir ← call (EvIsDir (path_str src_path));
     dest_exists ← (if src_is_dir then call (EvExists (path_str dest_path))
                    else mret false);
     _ ← (if src_is_dir && dest_exists
          then call_r (EvRmtree (path_str dest_path)) else mret tt);
     _ ← call_r (EvMove (path_str src_path) (path_str dest_path));
     mret (move_result (JStr (path_str dest_path)) JNull))
    (fun exc => mret (move_result JNull (JStr exc))).
End Tools.
End tools.

(** ** actions.py *)

Module actions.
Section Actions.
  Context `{UnicodeData} `{Unidecode} `{Config}.

(** [_norm_key(value)] *)
Definition _norm_key (value : pystr) : pystr :=
  casefold (strip_chars (py "/") (strip value)).

(** Order of [str] and [sorted] on a list of strings. *)
Fixpoint pystr_ltb (a b : pystr) : bool :=
  match a, b with
  | _, [] => false
  | [], _ :: _ => true
  | x :: a', y :: b' => (x <? y) || ((x =? y) && pystr_ltb a' b')
  end.

Fixpoint insert_sorted (x : pystr) (l : list pystr) : list pystr :=
  match l with
  | [] => [x]
  | y :: l' => if pystr_ltb x y then x :: l else y :: insert_sorted x l'
  end.

Definition sorted (l : list pystr) : list pystr :=
  fold_right insert_sorted [] l.

Definition canonical : list (pystr * pystr) :=
  [(py "documents", py "Documents"); (py "media", py "Media");
   (py "projects", py "Projects")].

(** [allowed_root_names()] *)
Definition allowed_root_names : list pystr :=
  let heads :=
    List.filter (fun head => negb (is_nil head))
      (List.map (fun pattern => strip (fst (split_once 47 pattern)))
                allowed_destinations) in
  let roots := heads ++ [path_name DOCS; path_name MEDIA; path_name PROJ] in
  let unique :=
    fold_left
      (fun unique root =>
         let key := _norm_key root in
         let label := match dict_get key canonical with
                      | Some l => l
                      | None => strip_chars (py "/") (strip root)
                      end in
         dict_set label label unique)
      roots [] in
  sorted (List.map fst unique).

(** [root_alias_map()] *)
Definition root_alias_map : list (pystr * pystr) :=
  let aliases :=
    fold_left (fun aliases label => dict_set (_norm_key label) label aliases)
              allowed_root_names [] in
  let aliases := dict_set (_norm_key (py "Documents")) (py "Documents") aliases in
  let aliases := dict_set (_norm_key (py "Media")) (py "Media") aliases in
  dict_set (_norm_key (py "Projects")) (py "Projects") aliases.

(** [_auto_split_root(raw_root, alias_map)] *)
Definition _auto_split_root (raw_root : pystr)
           (alias_map : list (pystr * pystr)) : pystr * pystr * bool :=
  match split_once 47 raw_root with
  | (part0, Some part1) =>
      let base := strip part0 in
      let extra := strip_chars (py "/") (strip part1) in
      let norm_base := _norm_key base in
      match dict_get norm_base alias_map with
      | Some label => (label, extra, true)
      | None => (raw_root, [], false)
      end
  | (_, None) => (raw_root, [], false)
  end.

(** The subpath derived from the place of the source below the inbox:
    [str(Path(src).relative_to(INBOX).parent).strip("/") or "Unsorted"],
    and ["Unsorted"] when [relative_to] raises. *)
Definition derived_subpath (src : pystr) : pystr :=
  let p := path_of_str src in
  if pystr_eqb (anchor p) (anchor INBOX) then
    match strip_comps (comps INBOX) (comps p) with
    | Some rel =>
        let parent := {| anchor := []; comps := removelast rel |} in
        let s := strip_chars (py "/") (path_str parent) in
        if is_nil s then py "Unsorted" else s
    | None => py "Unsorted"
    end
  else py "Unsorted".

(** [normalize_plan_move(action, current_path, allowed_labels)]: the
    normalized action (the empty dict when it is rejected) and the notes. *)
Definition normalize_plan_move (action : pydict) (current_path : pystr)
           (allowed_labels : list pystr) : res (pydict * list pystr) :=
  let notes : list pystr := [] in
  src ← strip <$> as_str (get_or action (py "src") (JStr current_path));
  raw_root ← strip <$> as_str (get_or action (py "destination_root") (JStr []));
  subpath ← (fun s => strip_chars (py "/") (strip s))
            <$> as_str (get_or action (py "subpath") (JStr []));
  filename ← strip <$> as_str (get_or action (py "filename")
                                    (JStr (path_name (path_of_str src))));
  let alias_map := root_alias_map in
  let root_key := _norm_key raw_root in
  let root := match dict_get root_key alias_map with
              | Some label => label
              | None => strip_chars (py "/") (strip raw_root)
              end in
  let '(root, extra, changed) := _auto_split_root root alias_map in
  let notes := if changed then notes ++ [py "auto_split_root_subpath"]
               else notes in
  let subpath :=
    if changed
    then join (py "/")
              (List.filter (fun part => negb (is_nil part)) [extra; subpath])
    else subpath in
  let allowed_set := List.map _norm_key allowed_labels in
  if negb (str_in (_norm_key root) allowed_set)
  then mret ([], notes ++ [py "invalid_root"])
  else
    let subpath := if is_nil subpath then derived_subpath src else subpath in
    let filename :=
      if is_nil filename then
        let name := path_name (path_of_str src) in
        if is_nil name then py "unnamed" else name
      else filename in
    let filename := utils_fs.safe_ascii filename in
    let normalized : pydict :=
      [(py "tool", JStr (py "plan_move"));
       (py "src", JStr (utils_fs.fs_norm_path src));
       (py "destination_root", JStr root);
       (py "subpath", JStr subpath);
       (py "filename", JStr filename)] in
    mret (normalized, notes).

(** Iterating over a value: [for raw_action in actions]. *)
Definition py_iter (v : json) : res (list json) :=
  match v with
  | JArr l => Ok l
  | JStr s => Ok (List.map (fun c => JStr [c]) s)
  | JObj d => Ok (List.map (fun kv => JStr (fst kv)) d)
  | _ => Raise (py "TypeError")
  end.

Definition notes_json (notes : list pystr) : json :=
  JArr (List.map JStr notes).

(** One iteration of the loop of [sanitize_actions]: what is appended to
    [sane] and what is logged. *)
Definition sanitize_one (raw_action : json) (current_path : pystr)
           (allowed_labels : list pystr)
  : res (list pydict * list pydict) :=
  match raw_action with
  | JObj raw =>
      tool ← strip <$> as_str (get_or raw (py "tool") (JStr []));
      if negb (str_in tool [py "list_dir"; py "inspect_file"; py "plan_move"])
      then mret ([], [[(py "event", JStr (py "drop_bad_action"));
                       (py "reason", JStr (py "bad_tool"));
                       (py "action", raw_action)]])
      else if str_in tool [py "list_dir"; py "inspect_file"]
      then mret ([[(py "tool", JStr tool);
                   (py "path", get_or raw (py "path") (JStr current_path))]],
                 [])
      else
        '(normalized, notes) ←
          normalize_plan_move raw current_path allowed_labels;
        if truthy (get_or normalized (py "src") JNull)
           && truthy (get_or normalized (py "destination_root") JNull)
        then
          if negb (truthy (get_or normalized (py "subpath") JNull))
          then mret ([], [[(py "event", JStr (py "drop_plan_move"));
                           (py "reason", JStr (py "empty_subpath"));
                           (py "raw", raw_action)]])
          else mret ([normalized],
                     if negb (is_nil notes)
                     then [[(py "event", JStr (py "normalize_notes"));
                            (py "notes", notes_json notes);
                            (py "action", JObj normalized)]]
                     else [])
        else mret ([], [[(py "event", JStr (py "invalid_plan_move"));
                         (py "action", raw_action);
                         (py "notes", notes_json notes)]])
  | _ => mret ([], [[(py "event", JStr (py "drop_bad_action"));
                     (py "reason", JStr (py "not_dict"))]])
  end.

Fixpoint sanitize_loop (raw_actions : list json) (current_path : pystr)
         (allowed_labels : list pystr) (sane logs : list pydict)
  : res (list pydict * list pydict) :=
  match raw_actions with
  | [] => mret (sane, logs)
  | raw_action :: rest =>
      '(out, logged) ← sanitize_one raw_action current_path allowed_labels;
      sanitize_loop rest current_path allowed_labels
                    (sane ++ out) (logs ++ logged)
  end.

(** [sanitize_actions(actions, current_path, allowed_labels, log_fn)]: the
    valid actions, and the records handed to [log_fn] in order.  When an
    iteration raises, the exception leaves the function. *)
Definition sanitize_actions (actions : json) (current_path : pystr)
           (allowed_labels : list pystr) : res (list pydict * list pydict) :=
  let current_path := utils_fs.fs_norm_path current_path in
  raw_actions ← (if truthy actions then py_iter actions else mret []);
  sanitize_loop raw_actions current_path allowed_labels [] [].
End Actions.
End actions.

(** ** agent.py: the cohesion tracker *)

Module cohesion.

(** [collections.Counter]: the counts in insertion order. *)
Section Counter.
  Context {K : Type} `{EqDecision K}.

(** [c[key] += 1] *)
Fixpoint counter_incr (key : K) (c : list (K * nat)) : list (K * nat) :=
  match c with
  | [] => [(key, 1%nat)]
  | (key', n) :: c' =>
      if decide (key = key') then (key', S n) :: c'
      else (key', n) :: counter_incr key c'
  end.

(** [c.most_common(1)] is [max(c.items(), key=count)]: the first entry
    that holds the largest count; the empty list when there is none. *)
Definition most_common_1 (c : list (K * nat)) : option (K * nat) :=
  fold_left
    (fun best kv =>
       match best with
       | None => Some kv
       | Some b => if (snd b <? snd kv)%nat then Some kv else best
       end)
    c None.

(** [sum(c.values())] *)
Definition counter_total (c : list (K * nat)) : nat :=
  list_sum (List.map snd c).
End Counter.

(** One entry of [self.stats]. *)
Record stats_entry : Type := {
  votes : list ((pystr * pystr) * nat);
  exts : list (pystr * nat);
  seen : gset pystr;
  total : nat
}.

Definition fresh_entry : stats_entry :=
  {| votes := []; exts := []; seen := ∅; total := 0 |}.

(** A [CohesionTracker].  The two float thresholds and quotients of the
    source are read as real numbers. *)
Record tracker : Type := {
  k : nat;
  purity : R;
  cap : nat;
  stats : gmap pystr stats_entry;
  already_escalated : gset pystr
}.

(** [CohesionTracker(k_threshold, purity_min, max_children_cap)] *)
Definition new_tracker (k_threshold : nat) (purity_min : R)
           (max_children_cap : nat) : tracker :=
  {| k := k_threshold; purity := purity_min; cap := max_children_cap;
     stats := ∅; already_escalated := ∅ |}.

Section Methods.
  Context `{UnicodeData}.

(** [self.note(parent, file_path, dest_root, subpath)]; reading
    [self.stats[key]] creates the entry. *)
Definition note (self : tracker) (parent file_path : path)
           (dest_root subpath : pystr) : tracker :=
  let key := path_str parent in
  let s := default fresh_entry (stats self !! key) in
  let fp := path_str file_path in
  let s' :=
    if decide (fp ∈ seen s) then s
    else {| votes := counter_incr (dest_root, subpath) (votes s);
            exts := counter_incr (lower (path_suffix file_path)) (exts s);
            seen := {[ fp ]} ∪ seen s;
            total := S (total s) |} in
  {| k := k self; purity := purity self; cap := cap self;
     stats := <[ key := s' ]> (stats self);
     already_escalated := already_escalated self |}.

(** [math.log2] *)
Definition log2 (x : R) : R := (ln x / ln 2)%R.

(** [-sum((c/total)*math.log2(c/total) for c in exts.values() if c)]
    with [total = sum(exts.values())]. *)
Definition entropy (exts : list (pystr * nat)) : R :=
  let total := INR (counter_total exts) in
  (- fold_right Rplus 0
       (List.map (fun c => (INR c / total) * log2 (INR c / total))
                 (List.filter (fun c => negb (Nat.eqb c 0))
                              (List.map snd exts))))%R.

(** [self.consensus(parent)]: the result and the tracker after the
    call. *)
Definition consensus (self : tracker) (parent : path)
  : prog (option (pystr * pystr) * tracker) :=
  let key := path_str parent in
  if decide (key ∈ already_escalated self) then mret (None, self)
  else
    match stats self !! key with
    | None => mret (None, self)
    | Some s =>
        if (total s <? k self)%nat then mret (None, self)
        else
          match most_common_1 (votes s) with
          | None => Throw (py "IndexError")
          | Some (dest, cnt) =>
              if Nat.eqb (total s) 0 then Throw (py "ZeroDivisionError")
              else
                let purity := (INR cnt / INR (total s))%R in
                if Rlt_dec purity (cohesion.purity self)
                then mret (None, self)
                else
                  let ent := entropy (exts s) in
                  if Rlt_dec 1 ent then mret (None, self)
                  else
                    listing ← call (EvIterdir key);
                    match listing with
                    | Ok names =>
                        let children :=
                          List.filter
                            (fun name => negb (startswith (py ".") name))
                            names in
                        if (cap self <? length children)%nat
                        then mret (None, self)
                        else mret (Some dest, self)
                    | Raise _ => mret (Some dest, self)
                    end
          end
    end.

(** [self.already_escalated.add(key)] *)
Definition mark_escalated (self : tracker) (key : pystr) : tracker :=
  {| k := k self; purity := purity self; cap := cap self;
     stats := stats self;
     already_escalated := {[ key ]} ∪ already_escalated self |}.
End Methods.
End cohesion.

(** ** agent.py: the orchestrator *)

Module agent.
Section Run.
  Context `{UnicodeData} `{Unidecode} `{Config}.

Definition ST_LIGHT : nat := 0.
Definition ST_DECIDE : nat := 1.
Definition SNAP_TTL_STEPS : Z := 10.
Definition DOC_TREE_DEPTH : nat := 3.
Definition MEDIA_TREE_DEPTH : nat := 2.
Definition PROJ_TREE_DEPTH : nat := 1.
Definition DIR_CAP : nat := 40.

Definition DEP_DIR_NAMES : list pystr :=
  [py "node_modules"; py "bower_components"; py "vendor";
   py ".venv"; py "venv"; py ".pip"; py ".mypy_cache";
   py ".git"; py ".svn"; py ".hg"; py "build"; py "dist"; py "target";
   py ".next"; py ".cache"].

(** [_is_in_dep_dir(p)] *)
Definition _is_in_dep_dir (p : path) : bool :=
  existsb (fun part => str_in part DEP_DIR_NAMES) (path_parts p).

(** [m.get(k) == s] *)
Definition str_is (d : pydict) (k : pystr) (s : string) : bool :=
  match dict_get k d with
  | Some (JStr v) => pystr_eqb v (py s)
  | _ => false
  end.

Definition str_is_one_of (d : pydict) (k : pystr) (l : list string) : bool :=
  existsb (str_is d k) l.

(** [l[-n:]] *)
Definition lastn {A} (n : nat) (l : list A) : list A :=
  skipn (length l - n) l.

(** [queue.rotate(-1)] *)
Definition rotate {A} (q : list A) : list A :=
  match q with
  | [] => []
  | x :: r => r ++ [x]
  end.

(** [build_prompt(mem, obs, tight=...)] *)
Definition build_prompt (mem : list pydict) (obs : pydict) : prompt :=
  let relevant :=
    List.filter
      (fun m => str_is_one_of m (py "tool")
                  ["list_dir"; "inspect_file"; "owner_hint"; "policy_hint"]%string)
      (rev mem) in
  let mem_cut := rev (firstn 12 relevant) in
  let dest_trees := get_or obs (py "DESTINATION_TREES") (JObj []) in
  {| prompt_mem := List.map JObj mem_cut;
     prompt_obs :=
       JObj [(py "CURRENT_TARGET",
              default JNull (dict_get (py "CURRENT_TARGET") obs));
             (py "DESTINATION_TREES", dest_trees)] |}.

Record snapshot_cache : Type := {
  snap_docs : json; snap_media : json; snap_proj : json; exp_step : Z
}.

(** The variables of [run] that live across iterations. *)
Record run_state : Type := {
  queue : list pystr;
  stage : gmap pystr nat;
  inspected_count : gmap pystr Z;
  decide_fail_counts : gmap pystr Z;
  mem : list pydict;
  tracker : cohesion.tracker;
  snap_cache : snapshot_cache;
  step : Z
}.

Definition set_queue (st : run_state) (q : list pystr) : run_state :=
  {| queue := q; stage := stage st; inspected_count := inspected_count st;
     decide_fail_counts := decide_fail_counts st; mem := mem st;
     tracker := tracker st; snap_cache := snap_cache st; step := step st |}.

Definition set_stage (st : run_state) (key : pystr) (v : nat) : run_state :=
  {| queue := queue st; stage := <[ key := v ]> (stage st);
     inspected_count := inspected_count st;
     decide_fail_counts := decide_fail_counts st; mem := mem st;
     tracker := tracker st; snap_cache := snap_cache st; step := step st |}.

Definition set_inspected (st : run_state) (m : gmap pystr Z) : run_state :=
  {| queue := queue st; stage := stage st; inspected_count := m;
     decide_fail_counts := decide_fail_counts st; mem := mem st;
     tracker := tracker st; snap_cache := snap_cache st; step := step st |}.

Definition set_fail_counts (st : run_state) (m : gmap pystr Z) : run_state :=
  {| queue := queue st; stage := stage st;
     inspected_count := inspected_count st;
     decide_fail_counts := m; mem := mem st;
     tracker := tracker st; snap_cache := snap_cache st; step := step st |}.

Definition mem_append (st : run_state) (m : pydict) : run_state :=
  {| queue := queue st; stage := stage st;
     inspected_count := inspected_count st;
     decide_fail_counts := decide_fail_counts st; mem := mem st ++ [m];
     tracker := tracker st; snap_cache := snap_cache st; step := step st |}.

Definition set_tracker (st : run_state) (t : cohesion.tracker) : run_state :=
  {| queue := queue st; stage := stage st;
     inspected_count := inspected_count st;
     decide_fail_counts := decide_fail_counts st; mem := mem st;
     tracker := t; snap_cache := snap_cache st; step := step st |}.

Definition set_snap_cache (st : run_state) (c : snapshot_cache) : run_state :=
  {| queue := queue st; stage := stage st;
     inspected_count := inspected_count st;
     decide_fail_counts := decide_fail_counts st; mem := mem st;
     tracker := tracker st; snap_cache := c; step := step st |}.

Definition set_step (st : run_state) (n : Z) : run_state :=
  {| queue := queue st; stage := stage st;
     inspected_count := inspected_count st;
     decide_fail_counts := decide_fail_counts st; mem := mem st;
     tracker := tracker st; snap_cache := snap_cache st; step := n |}.

(** [_log(record)]; lengths and timings of the records are left out. *)
Definition log (record : pydict) : prog unit := call (EvLog record).

Fixpoint log_all (records : list pydict) : prog unit :=
  match records with
  | [] => mret tt
  | r :: rest => _ ← log r; log_all rest
  end.

Definition event (name : string) (fields : pydict) : pydict :=
  (py "event", JStr (py name)) :: fields.

(** [fs_norm_path] applied to a value: anything but a [str] raises. *)
Definition norm_arg (v : json) : res pystr :=
  match v with
  | JStr s => Ok (utils_fs.fs_norm_path s)
  | _ => Raise (py "TypeError")
  end.

(** The filter [_keep] of the directory expansions, and the children kept,
    sorted. *)
Definition _keep (pstr : pystr) : bool :=
  let p := path_of_str (utils_fs.fs_norm_path pstr) in
  if startswith (py ".") (path_name p) then false
  else negb (_is_in_dep_dir p).

Definition kept_kids (items_res : list pystr) : list pystr :=
  actions.sorted (List.filter _keep items_res).

(** [purge_queue_under(queue, Path(src))] against the file system. *)
Definition resolve_or_self (p : pystr) : prog pystr :=
  r ← call (EvResolve p);
  mret (match r with Ok x => x | Raise _ => p end).

Fixpoint purge_loop (moved_str : pystr) (queue keep : list pystr)
  : prog (list pystr) :=
  match queue with
  | [] => mret keep
  | q_str :: queue' =>
      q_res ← resolve_or_self q_str;
      if utils_fs.under_moved moved_str q_res
      then purge_loop moved_str queue' keep
      else purge_loop moved_str queue' (keep ++ [q_str])
  end.

Definition purge_queue_under (queue : list pystr) (moved_path : pystr)
  : prog (list pystr) :=
  moved_str ← resolve_or_self moved_path;
  purge_loop moved_str queue [].

(** The closure [_ask_decide(mem_note)] of the DECIDE stage: the moves it
    returns and the state after it (it may append to [mem]). *)
Definition _ask_decide (st : run_state) (key : pystr) (obs : pydict)
           (allowed_labels : list pystr) (mem_note : pystr)
  : prog (list pydict * run_state) :=
  let st := if negb (is_nil mem_note)
            then mem_append st [(py "tool", JStr (py "policy_hint"));
                                (py "note", JStr mem_note)]
            else st in
  let prompt := build_prompt (mem st) obs in
  _ ← log (event "prompt_full" [(py "step", JInt (step st))]);
  '(plan, raw) ← call (EvLLM prompt 256);
  _ ← log (event "llm_raw_decide" [(py "head", JStr (firstn 256 raw))]);
  let acts_raw := default JNull (dict_get (py "actions") plan) in
  _ ← log (event "plan_parsed"
             [(py "error", default JNull (dict_get (py "error") plan))]);
  '(acts, logged) ←
    lift_res (actions.sanitize_actions
                (if truthy acts_raw then acts_raw else JArr [])
                key allowed_labels);
  _ ← log_all logged;
  _ ← log (event "plan_sanitized"
             [(py "count", JInt (Z.of_nat (length acts)))]);
  mret (List.filter (fun a => str_is a (py "tool") "plan_move") acts, st).

(** The rewrite of the in-flight action when the parent is escalated. *)
Definition escalated_action (a : pydict) (src dest_root sub : pystr)
           (parent : path) : pydict :=
  dict_set (py "filename") (JStr (utils_fs.safe_ascii (path_name parent)))
    (dict_set (py "subpath") (JStr sub)
       (dict_set (py "destination_root") (JStr dest_root)
          (dict_set (py "src") (JStr src) a))).

(** The execution of the first valid [plan_move] of the DECIDE stage. *)
Definition execute_move (st : run_state) (key : pystr) (a : pydict)
  : prog run_state :=
  src ← lift_res (utils_fs.fs_norm_path
                    <$> as_str (get_or a (py "src") (JStr [])));
  dest_root ← lift_res (as_str (get_or a (py "destination_root") (JStr [])));
  sub ← lift_res (strip <$> as_str (get_or a (py "subpath") (JStr [])));
  src_exists ← (if is_nil src || is_nil dest_root then mret false
                else call (EvExists src));
  if negb src_exists then
    _ ← log (event "invalid_plan_move" [(py "action", JObj a)]);
    mret (set_queue st (rotate (queue st)))
  else
    let src_path := path_of_str src in
    if _is_in_dep_dir src_path then
      _ ← log (event "skip_dependency_dir"
                 [(py "path", JStr (path_str src_path))]);
      mret (set_queue st (rotate (queue st)))
    else
      let parent := path_parent src_path in
      (* 1) record the vote *)
      let st := set_tracker st
                  (cohesion.note (tracker st) parent src_path dest_root sub) in
      (* 2) consensus and escalation *)
      '(agreed, t) ← cohesion.consensus (tracker st) parent;
      let st := set_tracker st t in
      '(a, src, dest_root, sub, st) ←
        match agreed with
        | None => mret (a, src, dest_root, sub, st)
        | Some (c_root, c_sub) =>
            is_file ← call (EvIsFile (path_str src_path));
            if negb is_file then mret (a, src, dest_root, sub, st)
            else
              let escalate :=
                let src' := utils_fs.fs_norm_path (path_str parent) in
                (escalated_action a src' c_root c_sub parent,
                 src', c_root, c_sub,
                 set_tracker st
                   (cohesion.mark_escalated (tracker st) (path_str parent))) in
              resolved_parent ← call (EvResolve (path_str parent));
              match resolved_parent with
              | Ok rp =>
                  resolved_inbox ← call (EvResolve (path_str INBOX));
                  match resolved_inbox with
                  | Ok ri =>
                      if negb (pystr_eqb rp ri) then mret escalate
                      else mret (a, src, dest_root, sub, st)
                  | Raise _ =>
                      if negb (pystr_eqb (path_str parent) (path_str INBOX))
                      then mret escalate
                      else mret (a, src, dest_root, sub, st)
                  end
              | Raise _ =>
                  if negb (pystr_eqb (path_str parent) (path_str INBOX))
                  then mret escalate
                  else mret (a, src, dest_root, sub, st)
              end
        end;
      let src_path := path_of_str src in
      still_exists ← call (EvExists src);
      if negb still_exists then
        _ ← log (event "invalid_plan_move"
                   [(py "action", JObj a);
                    (py "reason", JStr (py "src_not_exists_after_escalation"))]);
        mret (set_queue st (rotate (queue st)))
      else
        (* optional owner hint *)
        let recent_inspect :=
          List.find
            (fun m => str_is m (py "tool") "inspect_file"
                      && match dict_get (py "path") m with
                         | Some (JStr p) => pystr_eqb p (path_str src_path)
                         | _ => false
                         end)
            (rev (lastn 8 (mem st))) in
        owner ← match recent_inspect with
                | Some m =>
                    match default JNull (dict_get (py "result") m) with
                    | JNull => mret None
                    | result => call (EvOwner (path_str src_path) result)
                    end
                | None => mret None
                end;
        let st := match owner with
                  | Some o =>
                      if negb (is_nil o)
                      then mem_append st
                             [(py "tool", JStr (py "owner_hint"));
                              (py "path", JStr (path_str src_path));
                              (py "owner", JStr o)]
                      else st
                  | None => st
                  end in
        final_name ←
          (if negb (is_nil (path_name src_path))
           then mret (utils_fs.safe_ascii (path_name src_path))
           else lift_res (as_str (get_or a (py "filename")
                                         (JStr (py "unnamed")))));
        _ ← log (event "plan_move_exec"
                   [(py "step", JInt (step st));
                    (py "src", JStr (path_str src_path));
                    (py "dest_root", JStr dest_root);
                    (py "subpath", JStr sub);
                    (py "filename", JStr final_name)]);
        res ← tools.tool_plan_move src dest_root sub final_name;
        _ ← log (event "plan_move_done"
                   [(py "moved_to",
                     default JNull (dict_get (py "moved_to") res));
                    (py "error", default JNull (dict_get (py "error") res))]);
        q ← purge_queue_under (queue st) (path_str (path_of_str src));
        let q := match q with
                 | q0 :: q' => if pystr_eqb q0 src then q' else q
                 | [] => []
                 end in
        mret (set_fail_counts (set_queue st q)
                              (delete key (decide_fail_counts st))).

(** The body of the [while] loop of [run], for a non-empty queue. *)
Definition step_body (allowed_labels : list pystr) (st : run_state)
  : prog run_state :=
  match queue st with
  | [] => mret st
  | q0 :: queue_tail =>
      let st := set_step st (step st + 1) in
      let target := path_of_str (utils_fs.fs_norm_path q0) in
      let key := path_str target in
      (* Skip targets that live inside dependency/vendor directories. *)
      if _is_in_dep_dir target then
        _ ← log (event "skip_dependency_dir" [(py "path", JStr key)]);
        mret (set_queue st queue_tail)
      else
        let stg := default ST_LIGHT (stage st !! key) in
        _ ← log (event "step"
                   [(py "step", JInt (step st)); (py "target", JStr key);
                    (py "stage", JStr (if Nat.eqb stg ST_LIGHT
                                       then py "LIGHT" else py "DECIDE"))]);
        (* Expand directories deterministically (no LLM) *)
        is_dir ← call (EvIsDir key);
        if is_dir
           && negb (existsb
                      (fun m => str_is m (py "tool") "list_dir"
                                && match dict_get (py "path") m with
                                   | Some (JStr p) => pystr_eqb p key
                                   | _ => false
                                   end)
                      (lastn 64 (mem st)))
        then
          items_res ← call (EvToolListDir key);
          let kids := kept_kids items_res in
          let st := mem_append st
                      [(py "tool", JStr (py "list_dir")); (py "path", JStr key);
                       (py "result_count",
                        JInt (Z.of_nat (length items_res)))] in
          _ ← log (event "list_dir"
                     [(py "step", JInt (step st)); (py "path", JStr key);
                      (py "kept", JInt (Z.of_nat (length kids)))]);
          mret (set_queue st
                  (List.map utils_fs.fs_norm_path kids ++ queue_tail))
        else
          cur ← call (EvObserve key);
          let obs : pydict :=
            [(py "CURRENT_TARGET", JObj cur);
             (py "DESTINATION_TREES", JObj [])] in
          if Nat.eqb stg ST_LIGHT then
            (* STAGE 1: LIGHT *)
            let prompt := build_prompt (mem st) obs in
            _ ← log (event "prompt_light" [(py "step", JInt (step st))]);
            '(plan, raw) ← call (EvLLM prompt FIRST_CALL_NPRED);
            _ ← log (event "llm_raw_light"
                       [(py "head", JStr (firstn 256 raw))]);
            '(acts, logged) ←
              lift_res (actions.sanitize_actions
                          (get_or plan (py "actions") (JArr []))
                          key allowed_labels);
            _ ← log_all logged;
            let acts :=
              List.filter
                (fun a => str_is_one_of a (py "tool")
                            ["inspect_file"; "list_dir"]%string) acts in
            chosen ←
              match acts with
              | a :: _ => mret (Some a)
              | [] =>
                  is_file ← call (EvIsFile key);
                  if is_file
                     && (default 0 (inspected_count st !! key) =? 0)%Z
                  then mret (Some [(py "tool", JStr (py "inspect_file"));
                                   (py "path", JStr key)])
                  else mret None
              end;
            match chosen with
            | None =>
                _ ← log (event "no_progress_rotate"
                           [(py "step", JInt (step st));
                            (py "target", JStr key)]);
                mret (set_queue st (rotate (queue st)))
            | Some a =>
                let a_path := default (JStr key) (dict_get (py "path") a) in
                norm_path ← lift_res (norm_arg a_path);
                (* Guard LIGHT action against dep-dirs *)
                if _is_in_dep_dir (path_of_str norm_path) then
                  _ ← log (event "skip_dependency_dir" [(py "path", a_path)]);
                  mret (set_queue st (rotate (queue st)))
                else
                  raw_path ← lift_res (as_str a_path);
                  if str_is a (py "tool") "inspect_file" then
                    if (INSPECT_CAP_PER_FILE
                        <=? default 0 (inspected_count st !! raw_path))%Z
                    then mret (set_stage st key ST_DECIDE)
                    else
                      res ← call (EvToolInspectFile norm_path);
                      let slim :=
                        List.filter
                          (fun kv => str_in (fst kv)
                                       [py "group"; py "ext"; py "size";
                                        py "text"; py "ocr"; py "duration_s"])
                          res in
                      let st := mem_append st
                                  [(py "tool", JStr (py "inspect_file"));
                                   (py "path", JStr norm_path);
                                   (py "result", JObj slim)] in
                      let st := set_inspected st
                                  (<[ raw_path :=
                                        (default 0 (inspected_count st !! raw_path)
                                         + 1)%Z ]> (inspected_count st)) in
                      _ ← log (event "inspect_file"
                                 [(py "step", JInt (step st));
                                  (py "path", JStr norm_path)]);
                      mret (set_stage st key ST_DECIDE)
                  else
                    items_res ← call (EvToolListDir norm_path);
                    let kids := kept_kids items_res in
                    let st := mem_append st
                                [(py "tool", JStr (py "list_dir"));
                                 (py "path", JStr norm_path);
                                 (py "result_count",
                                  JInt (Z.of_nat (length items_res)))] in
                    _ ← log (event "list_dir"
                               [(py "step", JInt (step st));
                                (py "path", JStr norm_path);
                                (py "kept", JInt (Z.of_nat (length kids)))]);
                    mret (set_stage
                            (set_queue st
                               (List.map utils_fs.fs_norm_path kids
                                ++ queue_tail))
                            key ST_DECIDE)
            end
          else
            (* STAGE 2: DECIDE *)
            st ←
              (if (exp_step (snap_cache st) <=? step st)%Z then
                 docs ← call (EvTreeSnapshot (path_str DOCS) DOC_TREE_DEPTH DIR_CAP);
                 media ← call (EvTreeSnapshot (path_str MEDIA) MEDIA_TREE_DEPTH DIR_CAP);
                 proj ← call (EvTreeSnapshot (path_str PROJ) PROJ_TREE_DEPTH DIR_CAP);
                 _ ← log (event "snap_refresh" [(py "step", JInt (step st))]);
                 mret (set_snap_cache st
                         {| snap_docs := docs; snap_media := media;
                            snap_proj := proj;
                            exp_step := (step st + SNAP_TTL_STEPS)%Z |})
               else mret st);
            let obs : pydict :=
              [(py "CURRENT_TARGET", JObj cur);
               (py "DESTINATION_TREES",
                JObj [(py "Documents", snap_docs (snap_cache st));
                      (py "Media", snap_media (snap_cache st));
                      (py "Projects", snap_proj (snap_cache st))])] in
            '(moves, st) ← _ask_decide st key obs allowed_labels [];
            '(moves, st) ←
              (if is_nil moves
               then _ask_decide st key obs allowed_labels
                      (py "In DECIDE mode with DESTINATION_TREES, you MUST return exactly one plan_move. Do not return inspect_file or list_dir. Never dump into root; always pick/reuse/create a subfolder.")
               else mret (moves, st));
            match moves with
            | [] =>
                _ ← log (event "decide_noncompliance"
                           [(py "step", JInt (step st));
                            (py "target", JStr key)]);
                let st := set_fail_counts st
                            (<[ key := (default 0 (decide_fail_counts st !! key)
                                        + 1)%Z ]> (decide_fail_counts st)) in
                mret (set_queue st (rotate (queue st)))
            | a :: _ => execute_move st key a
            end
  end.

(** [while queue and step < MAX_STEPS]: at most [fuel] iterations. *)
Fixpoint run_loop (fuel : nat) (allowed_labels : list pystr)
         (st : run_state) : prog run_state :=
  match fuel with
  | O => mret st
  | S fuel =>
      if is_nil (queue st) || negb (step st <? MAX_STEPS)%Z then mret st
      else st' ← step_body allowed_labels st;
           run_loop fuel allowed_labels st'
  end.

(** The state of [run] before its loop, for the sorted listing [items] of
    the inbox. *)
Definition initial_state (items : list pystr) : run_state :=
  {| queue := items; stage := ∅; inspected_count := ∅;
     decide_fail_counts := ∅; mem := [];
     tracker := cohesion.new_tracker 3 (8 / 10) 500;
     snap_cache := {| snap_docs := JNull; snap_media := JNull;
                      snap_proj := JNull; exp_step := 0 |};
     step := 0 |}.

(** [run()], from the listing of the inbox on. *)
Definition run (items : list pystr) : prog run_state :=
  run_loop (Z.to_nat MAX_STEPS) actions.allowed_root_names
           (initial_state items).
End Run.
End agent.

(** ** snapshot.py *)

(** [list.sort(key=...)] and [sorted(..., key=...)]: a stable sort.  [before
    a b] says that the key [a] sorts strictly before the key [b]; an element
    is put in front of the first one that does not sort strictly before
    it, so equal keys keep their order. *)
Section StableSort.
  Context {A K : Type}.
  Variable key : A -> K.
  Variable before : K -> K -> bool.

Fixpoint insert_by_key (x : A) (l : list A) : list A :=
  match l with
  | [] => [x]
  | y :: l' =>
      if before (key y) (key x) then y :: insert_by_key x l'
      else x :: l
  end.

Definition sort_by_key (l : list A) : list A :=
  fold_right insert_by_key [] l.
End StableSort.

Module snapshot.
Section Snapshot.
  Context `{UnicodeData}.

(** The directory tree as the snapshot sees it: for the text of a path,
    the names of its entries with the answer of [is_dir()] for each, or
    the exception that [iterdir()] raises.  The tree does not change while
    a snapshot is taken. *)
Variable listing : pystr -> res (list (pystr * bool)).

Definition IGN : list pystr := [py "_moved_today"].

(** [it.name.startswith(".")], [it.name in IGN] *)
Definition hidden (it : path) : bool := startswith (py ".") (path_name it).

Definition ignored (it : path) : bool := str_in (path_name it) IGN.





(** The loop of [content_summary_for_dir]: the counts of files and of
    directories and the histogram of extensions, over the entries not yet
    seen. *)
Fixpoint summary_loop (p : path) (entries : list (pystr * bool))
         (files dirs : nat) (hist : list (pystr * nat))
  : nat * nat * list (pystr * nat) :=
  match entries with
  | [] => (files, dirs, hist)
  | e :: rest =>
      let it := joinpath p (fst e) in
      if hidden it then summary_loop p rest files dirs hist
      else if snd e then
        if ignored it then summary_loop p rest files dirs hist
        else summary_loop p rest files (S dirs) hist
      else
        summary_loop p rest (S files) dirs
          (cohesion.counter_incr (lower (path_suffix it)) hist)
  end.

(** [content_summary_for_dir(p)] *)
Definition content_summary_for_dir (p : path) : pydict :=
  let '(files, dirs, hist) :=
    match listing (path_str p) with
    | Ok entries => summary_loop p entries 0 0 []
    | Raise _ => (0%nat, 0%nat, [])
    end in
  [(py "path", JStr (path_str p));
   (py "files", JInt (Z.of_nat files));
   (py "dirs", JInt (Z.of_nat dirs));
   (py "ext_hist",
    JArr (List.map
            (fun kv => JArr [JStr (fst kv); JInt (Z.of_nat (snd kv))])
            (sort_by_key snd (fun a b => (b <? a)%nat) hist)))].
End Snapshot.
End snapshot.

(** ** tools.py: [tool_list_dir] *)

Module tools_dir.
Section ListDir.
  Context `{UnicodeData}.

(** What the listing of a directory meets for one entry: its name, the
    answers of [is_symlink()] and [is_dir()], and the size and the
    modification time (as an integer) of [stat()], or the exception that
    [stat()] raises. *)
Record dir_entry : Type := {
  entry_name : pystr;
  entry_is_symlink : bool;
  entry_stat : res (Z * Z);
  entry_is_dir : bool
}.

Definition _HIDDEN_NAMES : list pystr := [py "_moved_today"].

(** The test that skips an entry. *)
Definition skipped (root : path) (e : dir_entry) : bool :=
  let name := path_name (joinpath root (entry_name e)) in
  startswith (py ".") name || str_in name _HIDDEN_NAMES
  || entry_is_symlink e.

(** The record appended for an entry. *)
Definition item_of (root : path) (e : dir_entry) (size mtime : Z) : json :=
  let entry := joinpath root (entry_name e) in
  JObj [(py "path", JStr (path_str entry));
        (py "name", JStr (path_name entry));
        (py "is_dir", JBool (entry_is_dir e));
        (py "size", JInt size);
        (py "ext", JStr (lower (path_suffix entry)));
        (py "mtime", JInt mtime)].

(** The [for] loop over the entries. *)
Fixpoint list_loop (root : path) (entries : list dir_entry)
         (items : list json) : res (list json) :=
  match entries with
  | [] => Ok items
  | e :: rest =>
      if skipped root e then list_loop root rest items
      else
        match entry_stat e with
        | Ok (size, mtime) =>
            list_loop root rest (items ++ [item_of root e size mtime])
        | Raise exc => Raise exc
        end
  end.

(** [tool_list_dir(path)], for what [Path(path).iterdir()] yields (or
    raises). *)
Definition tool_list_dir (path : pystr) (scan : res (list dir_entry))
  : pydict :=
  let root := path_of_str path in
  match entries ← scan; list_loop root entries [] with
  | Ok items => [(py "items", JArr items)]
  | Raise exc =>
      [(py "items", JArr []); (py "error", JStr (py "list_dir:" ++ exc))]
  end.
End ListDir.
End tools_dir.

(** ** utils_fs.py: [safe_move] *)

Module staging.
Section SafeMove.
  Context `{UnicodeData} `{Unidecode}.

(** [DRY_RUN] of the configuration. *)
Variable DRY_RUN : bool.

(** [p.stem] *)
Definition path_stem (p : path) : pystr :=
  let name := path_name p in
  match rfind_dot name 0 None with
  | Some i => if (0 <? i)%nat && (i <? length name - 1)%nat
              then firstn i name else name
  | None => name
  end.

(** [str(i)] for a natural number: its decimal digits. *)
Fixpoint dec_digits (fuel n : nat) (acc : pystr) : pystr :=
  match fuel with
  | O => acc
  | S fuel =>
      let acc' := (48 + N.of_nat (n mod 10)) :: acc in
      if (n / 10 =? 0)%nat then acc' else dec_digits fuel (n / 10) acc'
  end.

Definition str_of_nat (n : nat) : pystr := dec_digits (S n) n [].

(** [dst_dir / f"{target.stem} ({i}){target.suffix}"] *)
Definition next_target (dst_dir target : path) (i : nat) : path :=
  joinpath dst_dir
    (path_stem target ++ py " (" ++ str_of_nat i ++ py ")"
     ++ path_suffix target).

(** The loop [while target.exists(): ...], for at most [fuel] probes:
    the first target that does not exist, or nothing when every probe
    found one. *)
Fixpoint free_target (fuel : nat) (dst_dir target : path) (i : nat)
  : prog (option path) :=
  match fuel with
  | O => mret None
  | S fuel =>
      taken ← call (EvExists (path_str target));
      if taken : bool
      then free_target fuel dst_dir (next_target dst_dir target i) (S i)
      else mret (Some target)
  end.

(** [safe_move(src, dst_dir, new_name)]: the text of the target, or
    nothing when the loop is still running after [fuel] probes. *)
Definition safe_move (fuel : nat) (src dst_dir : path)
           (new_name : option pystr) : prog (option pystr) :=
  _ ← call_r (EvMkdir (path_str dst_dir));
  let name :=
    utils_fs.safe_ascii
      (match new_name with
       | Some n => if is_nil n then path_name src else n
       | None => path_name src
       end) in
  let target := joinpath dst_dir name in
  found ← free_target fuel dst_dir target 1;
  match found with
  | None => mret None
  | Some target =>
      _ ← (if DRY_RUN then mret tt
           else call_r (EvMove (path_str src) (path_str target)));
      mret (Some (path_str target))
  end.
End SafeMove.
End staging.

(** ** Vocabulary of the statements *)

(** The string [s] does not start with a character of the class [p]. *)
Definition hd_ok (p : N -> bool) (s : pystr) : Prop :=
  match s with
  | [] => True
  | c :: _ => p c = false
  end.

(** What a sanitized name looks like: ASCII, only characters of the class
    [[\w.\-() ]], nothing to strip, no run of blanks left to collapse. *)
Record sanitized `{UnicodeData} (r : pystr) : Prop := {
  san_ascii : Forall (fun x => is_ascii x = true) r;
  san_safe : Forall (fun x => utils_fs.unsafe_char x = false) r;
  san_stripped : strip r = r;
  san_collapsed : sub_runs py_isspace (py " ") false r = r
}.

(** Unicode tables that are enough to run the model on ASCII text: no
    alphanumerics and the identity case folding outside ASCII, the identity
    normalization, and a transliteration that drops what it does not know. *)
Definition plain_unicode : UnicodeData :=
  {| uni_isalnum := fun _ => false;
     uni_casefold := fun c => [c];
     uni_lower := fun c => [c];
     uni_normalize := fun s => s |}.

Definition dropping_unidecode : Unidecode :=
  {| unidecode_table := fun _ => [] |}.


(** [sub] occurs in [t] as a contiguous piece. *)
Definition substring (sub t : pystr) : Prop :=
  exists pre post, t = pre ++ sub ++ post.


(** The quoted key the scanner looks for. *)
Definition quoted_actions : pystr := 34 :: py "actions" ++ [34].

(** Every top-level balanced brace block of [t], left to right: the scan of
    the specification (string and escape state, brace depth), without the
    early exit of the code. *)
Fixpoint scan_blocks (t rest : pystr) (i : nat) (in_str esc : bool)
         (depth : nat) (start : option nat) : list pystr :=
  match rest with
  | [] => []
  | ch :: rest' =>
      if in_str then
        if esc then scan_blocks t rest' (S i) true false depth start
        else if ch =? 92 then scan_blocks t rest' (S i) true true depth start
        else if ch =? 34 then scan_blocks t rest' (S i) false esc depth start
        else scan_blocks t rest' (S i) true esc depth start
      else
        if ch =? 34 then scan_blocks t rest' (S i) true esc depth start
        else if ch =? 123 then
          scan_blocks t rest' (S i) false esc (S depth)
                      (if Nat.eqb depth 0 then Some i else start)
        else if ch =? 125 then
          match depth with
          | S depth' =>
              match depth', start with
              | O, Some st =>
                  llm_io.slice t st (i + 1)
                  :: scan_blocks t rest' (S i) false esc depth' start
              | _, _ => scan_blocks t rest' (S i) false esc depth' start
              end
          | O => scan_blocks t rest' (S i) false esc depth start
          end
        else scan_blocks t rest' (S i) false esc depth start
  end.

Definition top_level_blocks (t : pystr) : list pystr :=
  scan_blocks t t 0 false false 0 None.

(** The coercer as the specification words its second step: every top-level
    block that mentions ["actions"] is tried in turn and the first one that
    decodes to an object is returned; the regex fallback comes last. *)
Fixpoint first_object (loads : pystr -> option json) (frags : list pystr)
  : option json :=
  match frags with
  | [] => None
  | frag :: rest =>
      match loads frag with
      | Some (JObj d) => Some (JObj d)
      | _ => first_object loads rest
      end
  end.

Definition coerce_trying_every_block (loads : pystr -> option json)
           (s : pystr) : json :=
  let txt := llm_io.cleaned_text s in
  match loads txt with
  | Some obj => llm_io.dict_or_error obj
  | None =>
      match first_object loads
              (List.filter (contains quoted_actions) (top_level_blocks txt)) with
      | Some obj => obj
      | None => llm_io.regex_fallback loads txt
      end
  end.

(** The text of the examples: a Rocq literal in which every apostrophe stands
    for a double quote. *)
Definition pyq (s : string) : pystr :=
  List.map (fun c => if c =? 39 then 34 else c) (py s).

(** The invariant of the scan at index [i]: [rest] is what is left of the
    text and a recorded [start] points at an opening brace already passed. *)
Definition scan_inv (t rest : pystr) (i : nat) (start : option nat) : Prop :=
  rest = skipn i t /\
  forall st, start = Some st -> (st < i)%nat /\ t !! st = Some 123.

(** [b] is a piece of [t] that opens with a brace and closes with one. *)
Definition delimited_piece (t b : pystr) : Prop :=
  substring b t /\ exists mid, b = 123 :: mid ++ [125].



(** Whatever the outside answers, the program returns (it never ends in an
    exception) and what it returns satisfies [P]. *)
Inductive returns_with {A} (P : A -> Prop) : prog A -> Prop :=
| returns_ret a : P a -> returns_with P (Ret a)
| returns_vis X (e : ev X) k :
    (forall x, returns_with P (k x)) -> returns_with P (Vis e k).

(** Whatever the outside answers, every event of the program satisfies [Q]. *)
Inductive events_all {A} (Q : happened -> Prop) : prog A -> Prop :=
| events_ret a : events_all Q (Ret a)
| events_throw exc : events_all Q (Throw exc)
| events_vis X (e : ev X) k :
    Q (Happened e) -> (forall x, events_all Q (k x)) ->
    events_all Q (Vis e k).

(** A plain name: one component that names an entry of the directory it is
    joined to. *)
Definition plain_name (s : pystr) : Prop :=
  s <> [] /\ s <> py "." /\ s <> py ".." /\ ~ In 47 s.

(** [p] lies in the tree below [base]: same anchor, the components of
    [base] followed by plain names only. *)
Definition below (base p : path) : Prop :=
  anchor p = anchor base /\
  exists names, comps p = comps base ++ names /\ Forall plain_name names.

(** The default configuration with a vault under [/home/u], and a world in which every file-system call
    succeeds: enough to run the tools. *)
Definition home_u : Config :=
  {| HOME := path_of_str (py "/home/u");
     MAX_STEPS := 500;
     INSPECT_CAP_PER_FILE := 2;
     FIRST_CALL_NPRED := 64 |}.

Definition obliging : handler unit :=
  fun X (e : ev X) (w : unit) =>
    (match e in ev X return X with
     | EvLog _ => tt
     | EvLLM _ _ => ([], [])
     | EvIsDir _ => false
     | EvIsFile _ => true
     | EvExists _ => true
     | EvObserve _ => []
     | EvToolListDir _ => []
     | EvToolInspectFile _ => []
     | EvTreeSnapshot _ _ _ => JNull
     | EvResolve p => Ok p
     | EvIterdir _ => Ok []
     | EvOwner _ _ => None
     | EvMkdir _ => Ok tt
     | EvRmtree _ => Ok tt
     | EvMove _ _ => Ok tt
     end, w).

(** A world for whole runs: every path is an existing file (not a
    directory), listings are empty, the file-system calls succeed, and the
    model backend answers with the plans of a script, one per call. *)
Definition scripted : handler (list pydict) :=
  fun X (e : ev X) (w : list pydict) =>
    match e in ev X return X * list pydict with
    | EvLLM _ _ =>
        match w with
        | plan :: rest => ((plan, []), rest)
        | [] => (([], []), [])
        end
    | e' => (fst (obliging e' tt), w)
    end.

(** The events of a trace that reach the file system to change it. *)
Definition is_move (h : happened) : bool :=
  match h with
  | Happened (EvMove _ _) => true
  | _ => false
  end.

(** The plan decoded from a model answer written with apostrophes. *)
Definition plan_of (s : string) : pydict :=
  match json_decoder.json_loads (pyq s) with
  | Some (JObj d) => d
  | _ => []
  end.

(** A world that answers the listing of a directory with [listing] and
    otherwise obliges; the outcome of a program in it. *)
Definition answering (listing : res (list pystr)) : handler unit :=
  fun X (e : ev X) (w : unit) =>
    match e in ev X return X * unit with
    | EvIterdir _ => (listing, w)
    | e' => obliging e' w
    end.

Definition outcome_in {A} (listing : res (list pystr)) (m : prog A)
  : outcome A :=
  fst (fst (run_prog (answering listing) m tt)).



(** The votes of several files of one parent for one destination. *)
Definition note_all `{UnicodeData} (self : cohesion.tracker) (parent : path)
           (files : list path) (dest_root subpath : pystr) : cohesion.tracker :=
  fold_left (fun t f => cohesion.note t parent f dest_root subpath) files self.

(** Every value a program can return satisfies [P] (it may also raise). *)
Inductive leaves_all {A} (P : A -> Prop) : prog A -> Prop :=
| leaves_ret a : P a -> leaves_all P (Ret a)
| leaves_throw exc : leaves_all P (Throw exc)
| leaves_vis X (e : ev X) k :
    (forall x, leaves_all P (k x)) -> leaves_all P (Vis e k).





(** A path as [pathlib] builds them from strings: one of the three anchors,
    and components that are neither empty nor a single dot and hold no
    separator. *)
Definition proper_comp (c : pystr) : Prop :=
  c <> [] /\ c <> py "." /\ ~ In 47 c.

Definition proper_path (p : path) : Prop :=
  (anchor p = [] \/ anchor p = py "/" \/ anchor p = py "//")
  /\ Forall proper_comp (comps p).

(** The guard of the execution tools: a listing or an inspection never
    targets a path with a dependency-directory segment. *)
Definition outside_dep_dirs (h : happened) : Prop :=
  match h with
  | Happened (EvToolListDir p) =>
      agent._is_in_dep_dir (path_of_str p) = false
  | Happened (EvToolInspectFile p) =>
      agent._is_in_dep_dir (path_of_str p) = false
  | _ => True
  end.

(** The event is a log record. *)
Definition is_log (h : happened) : Prop :=
  match h with
  | Happened (EvLog _) => True
  | _ => False
  end.

(** The [plan_move_exec] records of a trace: what the orchestrator announces
    right before it calls [tool_plan_move]. *)
Definition plan_move_execs (tr : list happened) : list pydict :=
  flat_map
    (fun h => match h with
              | Happened (EvLog record) =>
                  if agent.str_is record (py "event") "plan_move_exec"
                  then [record] else []
              | _ => []
              end) tr.

(** The answer of the model that drives the blank-subpath run: a move to
    Documents whose subpath is a blank between two slashes. *)
Definition blank_subpath_plan : pydict :=
  plan_of "{'actions':[{'tool':'plan_move','src':'/home/u/_Vault/INBOX/a.txt','destination_root':'Documents','subpath':'/ /','filename':'a.txt'}]}".

(** A raw action with an embedded root, for the sanitizer. *)
Definition embedded_root_action : pydict :=
  plan_of "{'tool':'plan_move','src':'/home/u/_Vault/INBOX/x/a.pdf','destination_root':' documents/Finance ','subpath':'2023'}".

(** The world resolves paths as the function [resolve] says, at any time. *)
Definition resolves_as {W} (h : handler W) (resolve : pystr -> option pystr)
  : Prop :=
  forall p w,
    match fst (h _ (EvResolve p) w) with
    | Ok r => resolve p = Some r
    | Raise _ => resolve p = None
    end.

(** The two float tests of [consensus] as integer comparisons, and the
    program they give. *)

Definition purity_below (cnt total : nat) : bool := (10 * cnt <? 8 * total)%nat.

Definition nonzero_counts (exts : list (pystr * nat)) : list nat :=
  List.filter (fun c => negb (Nat.eqb c 0)) (List.map snd exts).

Definition self_powers (cs : list nat) : Z :=
  fold_right Z.mul 1%Z (List.map (fun c => (Z.of_nat c ^ Z.of_nat c)%Z) cs).

Definition weighted_logs (cs : list nat) : R :=
  fold_right Rplus 0%R (List.map (fun c => (INR c * ln (INR c))%R) cs).

Definition entropy_above_one_bit (exts : list (pystr * nat)) : bool :=
  let t := Z.of_nat (cohesion.counter_total exts) in
  (2 ^ t * self_powers (nonzero_counts exts) <? t ^ t)%Z.

Definition consensus_exact (self : cohesion.tracker) (parent : path)
  : prog (option (pystr * pystr) * cohesion.tracker) :=
  let key := path_str parent in
  if decide (key ∈ cohesion.already_escalated self) then mret (None, self)
  else
    match cohesion.stats self !! key with
    | None => mret (None, self)
    | Some s =>
        if (cohesion.total s <? cohesion.k self)%nat then mret (None, self)
        else
          match cohesion.most_common_1 (cohesion.votes s) with
          | None => Throw (py "IndexError")
          | Some (dest, cnt) =>
              if Nat.eqb (cohesion.total s) 0
              then Throw (py "ZeroDivisionError")
              else if purity_below cnt (cohesion.total s)
              then mret (None, self)
              else if entropy_above_one_bit (cohesion.exts s)
              then mret (None, self)
              else
                listing ← call (EvIterdir key);
                match listing with
                | Ok names =>
                    let children :=
                      List.filter
                        (fun name => negb (startswith (py ".") name)) names in
                    if (cohesion.cap self <? length children)%nat
                    then mret (None, self)
                    else mret (Some dest, self)
                | Raise _ => mret (Some dest, self)
                end
          end
    end.
(** ** Vocabulary of the further properties *)

(** The file-system calls of a move of [src] to [dest] inside the directory
    [dir]. *)
Definition plan_move_call (src dir dest : pystr) (h : happened) : Prop :=
  match h with
  | Happened (EvMkdir p) => p = dir
  | Happened (EvIsDir p) => p = src
  | Happened (EvExists p) => p = dest
  | Happened (EvRmtree p) => p = dest
  | Happened (EvMove s d) => s = src /\ d = dest
  | _ => False
  end.

(** The event asks whether a path exists or removes a tree. *)
Definition probes_or_removes (h : happened) : bool :=
  match h with
  | Happened (EvExists _) => true
  | Happened (EvRmtree _) => true
  | _ => false
  end.

(** The number of leading slashes that [normpath] keeps: none, one, or two
    when the path starts with exactly two. *)
Definition initial_slashes (path : pystr) : nat :=
  if startswith (py "/") path then
    if startswith (py "//") path && negb (startswith (py "///") path)
    then 2%nat else 1%nat
  else 0%nat.

(** A component that [normpath] keeps as it is: a name, neither empty nor a
    dot nor a double dot. *)
Definition kept_comp (c : pystr) : Prop :=
  c <> [] /\ c <> py "." /\ c <> py ".." /\ ~ In 47 c.

(** The components of a normalized path: double dots first (none below a
    root), then names. *)
Definition normal_comps (k : nat) (cs : list pystr) : Prop :=
  exists n rest,
    cs = List.repeat (py "..") n ++ rest
    /\ Forall kept_comp rest
    /\ (k <> 0%nat -> n = 0%nat).

(** The text of a normalized path with [k] leading slashes and the
    components [cs]. *)
Definition normal_text (k : nat) (cs : list pystr) : pystr :=
  match List.repeat 47 k ++ join (py "/") cs with
  | [] => py "."
  | text => text
  end.

(** A read-only action as the sanitizer returns it. *)
Definition read_action (a : pydict) : Prop :=
  exists tool path,
    a = [(py "tool", JStr tool); (py "path", path)]
    /\ (tool = py "list_dir" \/ tool = py "inspect_file")
    /\ truthy path = true.

(** A move as the sanitizer returns it: a normalized source, a root that is
    one of the allowed labels up to [_norm_key], a subpath, a sanitized file
    name. *)
Definition move_action `{UnicodeData} `{Unidecode}
           (allowed_labels : list pystr) (a : pydict) : Prop :=
  exists src root subpath filename,
    a = [(py "tool", JStr (py "plan_move"));
         (py "src", JStr (utils_fs.fs_norm_path src));
         (py "destination_root", JStr root);
         (py "subpath", JStr subpath);
         (py "filename", JStr (utils_fs.safe_ascii filename))]
    /\ root <> [] /\ subpath <> []
    /\ str_in (actions._norm_key root)
              (List.map actions._norm_key allowed_labels) = true.

(** The record is the one logged for a move dropped for its empty subpath. *)
Definition empty_subpath_record (r : pydict) : Prop :=
  dict_get (py "reason") r = Some (JStr (py "empty_subpath")).



(** Three raw actions for the sanitizer: a move with an embedded root, a
    string, and a listing without a path. *)
Definition mixed_actions : json :=
  JArr [JObj embedded_root_action; JStr (py "x");
        JObj [(py "tool", JStr (py "list_dir"))]].

(** An operation on a tracker: a vote or the marking of a parent. *)
Inductive tracker_op : Type :=
| OpNote (parent file_path : path) (dest_root subpath : pystr)
| OpMark (key : pystr).

Definition apply_op `{UnicodeData} (t : cohesion.tracker) (op : tracker_op)
  : cohesion.tracker :=
  match op with
  | OpNote parent file_path dest_root subpath =>
      cohesion.note t parent file_path dest_root subpath
  | OpMark key => cohesion.mark_escalated t key
  end.

(** The four tallies of an entry agree. *)
Definition counted (s : cohesion.stats_entry) : Prop :=
  cohesion.counter_total (cohesion.votes s) = cohesion.total s
  /\ cohesion.counter_total (cohesion.exts s) = cohesion.total s
  /\ size (cohesion.seen s) = cohesion.total s.

(** The pair [d] comes first among the pairs with the largest count [n]. *)
Definition first_maximum {K} (c : list (K * nat)) (d : K) (n : nat) : Prop :=
  exists pre post,
    c = pre ++ (d, n) :: post
    /\ Forall (fun kv => (snd kv < n)%nat) pre
    /\ Forall (fun kv => (snd kv <= n)%nat) post.

(** The memory entries that a prompt may carry. *)
Definition relevant_memo (m : pydict) : bool :=
  agent.str_is_one_of m (py "tool")
    ["list_dir"; "inspect_file"; "owner_hint"; "policy_hint"]%string.

(** The event is a call to the model backend. *)
Definition is_llm_call (h : happened) : bool :=
  match h with
  | Happened (EvLLM _ _) => true
  | _ => false
  end.

(** The event is no call to the model backend. *)
Definition no_llm_call (h : happened) : Prop := is_llm_call h = false.

(** Whatever the outside answers, the program makes at most [n] of the calls
    that [sel] selects. *)
Inductive calls_at_most {A} (sel : happened -> bool) : nat -> prog A -> Prop :=
| cam_ret n a : calls_at_most sel n (Ret a)
| cam_throw n exc : calls_at_most sel n (Throw exc)
| cam_count n X (e : ev X) k :
    sel (Happened e) = true ->
    (forall x, calls_at_most sel n (k x)) ->
    calls_at_most sel (S n) (Vis e k)
| cam_skip n X (e : ev X) k :
    sel (Happened e) = false ->
    (forall x, calls_at_most sel n (k x)) ->
    calls_at_most sel n (Vis e k).

(** The state [st'] continues the state [st0]: the memory of [st0] with
    more entries appended, every target in the DECIDE stage still in it, no
    inspection count lower. *)
Definition grows_from `{UnicodeData} `{Unidecode} `{Config}
           (st0 st' : agent.run_state) : Prop :=
  (exists more, agent.mem st' = agent.mem st0 ++ more)
  /\ (forall key, agent.stage st0 !! key = Some agent.ST_DECIDE ->
                  agent.stage st' !! key = Some agent.ST_DECIDE)
  /\ (forall p, (default 0 (agent.inspected_count st0 !! p)
                 <= default 0 (agent.inspected_count st' !! p))%Z).

(** The list is in the order of a sort by [key]: no element sorts strictly
    before one that precedes it. *)
Fixpoint ascending_by {A K} (key : A -> K) (before : K -> K -> bool)
         (l : list A) : Prop :=
  match l with
  | [] => True
  | x :: r => Forall (fun y => before (key y) (key x) = false) r
              /\ ascending_by key before r
  end.





(** The event probes a path or moves onto one. *)
Definition probe_or_move (h : happened) : bool :=
  match h with
  | Happened (EvExists _) => true
  | Happened (EvMove _ _) => true
  | _ => false
  end.

(** Whatever the outside answers, the program only moves onto a path that
    the call right before the move found absent.  [known] is the path just
    found absent, if any. *)
Inductive moves_onto_absent {A} : option pystr -> prog A -> Prop :=
| moa_ret known a : moves_onto_absent known (Ret a)
| moa_throw known exc : moves_onto_absent known (Throw exc)
| moa_exists known p k :
    moves_onto_absent None (k true) ->
    moves_onto_absent (Some p) (k false) ->
    moves_onto_absent known (Vis (EvExists p) k)
| moa_move s d k :
    (forall x, moves_onto_absent None (k x)) ->
    moves_onto_absent (Some d) (Vis (EvMove s d) k)
| moa_other known X (e : ev X) k :
    probe_or_move (Happened e) = false ->
    (forall x, moves_onto_absent None (k x)) ->
    moves_onto_absent known (Vis e k).

(** A file system that does not change: the paths of [existing] exist, any
    other call succeeds. *)
Definition frozen_fs (existing : gset pystr) : handler unit :=
  fun X (e : ev X) (w : unit) =>
    match e in ev X return X * unit with
    | EvExists p => (bool_decide (p ∈ existing), w)
    | e' => obliging e' w
    end.

(** The targets that the loop of [safe_move] probes, in order. *)
Fixpoint candidates `{UnicodeData} (n : nat) (dst_dir target : path) (i : nat)
  : list path :=
  match n with
  | O => []
  | S n => target :: candidates n dst_dir
                       (staging.next_target dst_dir target i) (S i)
  end.

(** An inbox with [a.txt] and [a (1).txt] in it. *)
Definition two_taken : gset pystr :=
  {[ py "/in/a.txt"; py "/in/a (1).txt" ]}.

(** * Properties *)

Unset Implicit Arguments.

(** ** Strings *)

Section PyStrFacts.
  Context `{UnicodeData}.


Lemma pystr_eqb_eq (a b : pystr) : pystr_eqb a b = true <-> a = b.
Proof. unfold pystr_eqb. apply bool_decide_eq_true. Qed.

Lemma pystr_eqb_refl (a : pystr) : pystr_eqb a a = true.
Proof. apply pystr_eqb_eq; reflexivity. Qed.

(** *** [strip] *)

Lemma lstrip_hd_ok p s : hd_ok p (lstrip_by p s).
Proof.
  induction s as [|c r IH]; simpl; [exact I|].
  destruct (p c) eqn:E; [exact IH | exact E].
Qed.

Lemma lstrip_id p s : hd_ok p s -> lstrip_by p s = s.
Proof. destruct s as [|c r]; simpl; [reflexivity|]. intros ->; reflexivity. Qed.

Lemma rstrip_cons_keep p c r :
  p c = false -> rstrip_by p (c :: r) = c :: rstrip_by p r.
Proof. intros E; simpl. rewrite E. destruct (rstrip_by p r); reflexivity. Qed.

Lemma rstrip_hd_ok p s : hd_ok p s -> hd_ok p (rstrip_by p s).
Proof.
  destruct s as [|c r]; [intros _; exact I|].
  intros E. rewrite rstrip_cons_keep by exact E. exact E.
Qed.

Lemma rstrip_idem p s : rstrip_by p (rstrip_by p s) = rstrip_by p s.
Proof.
  induction s as [|c r IH]; simpl; [reflexivity|].
  destruct (rstrip_by p r) as [|d t] eqn:E.
  - destruct (p c) eqn:Ec; simpl; [reflexivity|]. rewrite Ec; reflexivity.
  - change (rstrip_by p (c :: d :: t)) with
      (match rstrip_by p (d :: t) with
       | [] => if p c then [] else [c]
       | r' => c :: r'
       end).
    rewrite IH. reflexivity.
Qed.

Lemma strip_by_idem p s : strip_by p (strip_by p s) = strip_by p s.
Proof.
  unfold strip_by.
  rewrite (lstrip_id p (rstrip_by p (lstrip_by p s))).
  - apply rstrip_idem.
  - apply rstrip_hd_ok, lstrip_hd_ok.
Qed.

Lemma lstrip_Forall (P : N -> Prop) p s :
  Forall P s -> Forall P (lstrip_by p s).
Proof.
  induction 1 as [|c r Hc Hr IH]; simpl; [constructor|].
  destruct (p c); [exact IH | constructor; assumption].
Qed.

Lemma rstrip_Forall (P : N -> Prop) p s :
  Forall P s -> Forall P (rstrip_by p s).
Proof.
  induction 1 as [|c r Hc Hr IH]; simpl; [constructor|].
  destruct (rstrip_by p r) as [|d t].
  - destruct (p c); constructor; [assumption | constructor].
  - constructor; assumption.
Qed.

Lemma strip_by_Forall (P : N -> Prop) p s :
  Forall P s -> Forall P (strip_by p s).
Proof. intros; apply rstrip_Forall, lstrip_Forall; assumption. Qed.

(** A stripped string neither starts nor ends with a stripped character;
    in particular it is not a non-empty run of them. *)
Lemma rstrip_all p s : Forall (fun c => p c = true) s -> rstrip_by p s = [].
Proof.
  induction 1 as [|c r Hc Hr IH]; simpl; [reflexivity|].
  rewrite IH, Hc; reflexivity.
Qed.

Lemma lstrip_all p s : Forall (fun c => p c = true) s -> lstrip_by p s = [].
Proof.
  induction 1 as [|c r Hc Hr IH]; simpl; [reflexivity|].
  rewrite Hc; exact IH.
Qed.

(** *** [re.sub] over a character class *)

Lemma sub_runs_clean cls repl b s :
  Forall (fun c => cls c = false) s -> sub_runs cls repl b s = s.
Proof.
  intros Hs; revert b; induction Hs as [|c r Hc Hr IH]; intros b; simpl.
  - reflexivity.
  - rewrite Hc, IH; reflexivity.
Qed.

Lemma sub_runs_Forall (P : N -> Prop) cls repl b s :
  Forall P repl -> Forall P s -> Forall P (sub_runs cls repl b s).
Proof.
  intros Hrepl Hs; revert b; induction Hs as [|c r Hc Hr IH]; intros b; simpl.
  - constructor.
  - destruct (cls c).
    + destruct b; [apply IH|]. apply Forall_app; split; [exact Hrepl | apply IH].
    + constructor; [exact Hc | apply IH].
Qed.

(** Outside the class nothing is touched, inside it only [repl] remains. *)
Lemma sub_runs_output (P : N -> Prop) cls repl b s :
  Forall P repl ->
  (forall c, cls c = false -> P c) ->
  Forall P (sub_runs cls repl b s).
Proof.
  intros Hrepl Hcls; revert b; induction s as [|c r IH]; intros b; simpl.
  - constructor.
  - destruct (cls c) eqn:E.
    + destruct b; [apply IH|]. apply Forall_app; split; [exact Hrepl | apply IH].
    + constructor; [apply Hcls; exact E | apply IH].
Qed.

Lemma sub_runs_length cls c0 b s :
  (length (sub_runs cls [c0] b s) <= length s)%nat.
Proof.
  revert b; induction s as [|c r IH]; intros b; simpl; [lia|].
  destruct (cls c).
  - destruct b; simpl; [specialize (IH true) | specialize (IH true)]; lia.
  - simpl. specialize (IH false); lia.
Qed.

(** Collapsing runs of a class into one character of that class is
    idempotent. *)
Lemma sub_runs_idem cls c0 b b' s :
  cls c0 = true -> implb b' b = true ->
  sub_runs cls [c0] b' (sub_runs cls [c0] b s) = sub_runs cls [c0] b s.
Proof.
  intros Hc0; revert b b'; induction s as [|c r IH]; intros b b' Hb; simpl.
  - reflexivity.
  - destruct (cls c) eqn:E.
    + destruct b.
      * apply IH; exact Hb.
      * destruct b'; [discriminate|]. simpl. rewrite Hc0.
        rewrite IH; reflexivity.
    + simpl. rewrite E. rewrite IH; [reflexivity | destruct b'; reflexivity].
Qed.

(** A fixed point of the collapse stays one when its ends are stripped. *)
Lemma sub_runs_fix_head cls c0 r :
  sub_runs cls [c0] true r = r -> hd_ok cls r.
Proof.
  destruct r as [|c r]; simpl; [intros _; exact I|].
  destruct (cls c) eqn:E; [|reflexivity].
  intros Heq. pose proof (sub_runs_length cls c0 true r) as Hl.
  rewrite Heq in Hl. simpl in Hl. lia.
Qed.

Lemma sub_runs_fix_lstrip cls c0 s :
  sub_runs cls [c0] false s = s ->
  sub_runs cls [c0] false (lstrip_by cls s) = lstrip_by cls s.
Proof.
  destruct s as [|c r]; simpl; [reflexivity|].
  destruct (cls c) eqn:E.
  - simpl. intros Heq. injection Heq as _ Hr.
    pose proof (sub_runs_fix_head cls c0 r Hr) as Hh.
    rewrite (lstrip_id cls r Hh).
    destruct r as [|d t]; [reflexivity|].
    simpl in Hh. simpl in Hr. rewrite Hh in Hr. simpl. rewrite Hh. exact Hr.
  - intros Heq. simpl. rewrite E. exact Heq.
Qed.

Lemma sub_runs_cons_in cls repl c r :
  cls c = true ->
  sub_runs cls repl false (c :: r) = repl ++ sub_runs cls repl true r.
Proof. intros E; simpl; rewrite E; reflexivity. Qed.

Lemma sub_runs_cons_out cls repl b c r :
  cls c = false ->
  sub_runs cls repl b (c :: r) = c :: sub_runs cls repl false r.
Proof. intros E; simpl; rewrite E; reflexivity. Qed.

Lemma sub_runs_fix_rstrip cls c0 b s :
  sub_runs cls [c0] b s = s ->
  sub_runs cls [c0] b (rstrip_by cls s) = rstrip_by cls s.
Proof.
  revert b; induction s as [|c r IH]; intros b; [reflexivity|].
  destruct (cls c) eqn:E.
  - destruct b.
    + simpl. rewrite E. intros Heq.
      pose proof (sub_runs_length cls c0 true r) as Hl.
      rewrite Heq in Hl. simpl in Hl. lia.
    + rewrite sub_runs_cons_in by exact E. intros Heq.
      injection Heq as Hc Hr. specialize (IH true Hr).
      cbn [rstrip_by]. rewrite E.
      destruct (rstrip_by cls r) as [|d t]; [reflexivity|].
      rewrite sub_runs_cons_in by exact E. rewrite IH, Hc. reflexivity.
  - rewrite sub_runs_cons_out by exact E. intros Heq.
    injection Heq as Hr. specialize (IH false Hr).
    rewrite rstrip_cons_keep by exact E.
    rewrite sub_runs_cons_out by exact E. rewrite IH. reflexivity.
Qed.

Lemma sub_runs_fix_strip cls c0 s :
  sub_runs cls [c0] false s = s ->
  sub_runs cls [c0] false (strip_by cls s) = strip_by cls s.
Proof.
  intros Hs. unfold strip_by. apply sub_runs_fix_rstrip, sub_runs_fix_lstrip, Hs.
Qed.
End PyStrFacts.

(** ** utils_fs: [safe_ascii] *)

Section SafeAsciiFacts.
  Context `{UnicodeData} `{Unidecode}.
  Import utils_fs.

(** The contract of the [unidecode] package: its output is ASCII. *)
Hypothesis table_ascii :
  forall c, Forall (fun x => is_ascii x = true) (unidecode_table c).

Lemma unidecode_is_ascii s : Forall (fun x => is_ascii x = true) (unidecode s).
Proof.
  unfold unidecode. induction s as [|c r IH]; simpl; [constructor|].
  apply Forall_app; split; [|exact IH].
  destruct (is_ascii c) eqn:E; [repeat constructor; exact E | apply table_ascii].
Qed.

Lemma unidecode_ascii_id s :
  Forall (fun x => is_ascii x = true) s -> unidecode s = s.
Proof.
  unfold unidecode. induction 1 as [|c r Hc Hr IH]; simpl; [reflexivity|].
  rewrite Hc, IH. reflexivity.
Qed.

Lemma safe_ascii_body_sanitized s :
  sanitized
    (strip (sub_runs py_isspace (py " ") false
              (strip (sub_runs unsafe_char (py "_") false (unidecode s))))).
Proof.
  set (B := sub_runs unsafe_char (py "_") false (unidecode s)).
  assert (HBa : Forall (fun x => is_ascii x = true) B).
  { apply sub_runs_Forall; [repeat constructor | apply unidecode_is_ascii]. }
  assert (HBs : Forall (fun x => unsafe_char x = false) B).
  { apply sub_runs_output; [repeat constructor | auto]. }
  split.
  - apply strip_by_Forall, sub_runs_Forall; [repeat constructor|].
    apply strip_by_Forall, HBa.
  - apply strip_by_Forall, sub_runs_Forall; [repeat constructor|].
    apply strip_by_Forall, HBs.
  - apply strip_by_idem.
  - apply (sub_runs_fix_strip py_isspace 32).
    apply (sub_runs_idem py_isspace 32 false false); reflexivity.
Qed.

Lemma safe_ascii_fixes_sanitized r :
  sanitized r -> r <> [] -> safe_ascii r = r.
Proof.
  intros [Ha Hs Hst Hc] Hne. unfold safe_ascii.
  rewrite (unidecode_ascii_id r Ha).
  rewrite (sub_runs_clean unsafe_char (py "_") false r Hs).
  rewrite Hst, Hc, Hst.
  destruct r; [contradiction | reflexivity].
Qed.

Lemma safe_ascii_unnamed : safe_ascii (py "unnamed") = py "unnamed".
Proof. reflexivity. Qed.

(** C9.  [safe_ascii] is a total function on strings; its result is never
    the empty string; and sanitizing a sanitized name changes nothing:
    [safe_ascii (safe_ascii s) = safe_ascii s].  The one assumption is the
    contract of the transliteration table (it yields ASCII). *)
Theorem safe_ascii_nonempty_idempotent (s : pystr) :
  safe_ascii s <> [] /\ safe_ascii (safe_ascii s) = safe_ascii s.
Proof.
  pose proof (safe_ascii_body_sanitized s) as Hsan.
  unfold safe_ascii at 1 3 4.
  destruct (strip (sub_runs py_isspace (py " ") false
              (strip (sub_runs unsafe_char (py "_") false (unidecode s)))))
    as [|c r] eqn:E.
  - split; [discriminate | apply safe_ascii_unnamed].
  - split; [discriminate|].
    apply safe_ascii_fixes_sanitized; [exact Hsan | discriminate].
Qed.
End SafeAsciiFacts.

Lemma safe_ascii_nonempty_idempotent_witness :
  @utils_fs.safe_ascii plain_unicode dropping_unidecode (py "a/b") <> [] /\
  @utils_fs.safe_ascii plain_unicode dropping_unidecode
    (@utils_fs.safe_ascii plain_unicode dropping_unidecode (py "a/b"))
  = @utils_fs.safe_ascii plain_unicode dropping_unidecode (py "a/b").
Proof.
  apply (@safe_ascii_nonempty_idempotent plain_unicode dropping_unidecode).
  intros c; simpl; constructor.
Defined.

(** ** utils_fs: [purge_queue_under] *)

Section PurgeFacts.
  Import utils_fs.
  Variable resolve : pystr -> option pystr.


Lemma purge_loop_spec P queue keep :
  purge_loop resolve P queue keep =
  ([], keep ++ List.filter
                 (fun q => negb (under_moved P (resolved_or_self resolve q)))
                 queue).
Proof.
  revert keep; induction queue as [|q queue IH]; intros keep; simpl.
  - rewrite app_nil_r; reflexivity.
  - destruct (under_moved P (resolved_or_self resolve q)); simpl.
    + apply IH.
    + rewrite IH, <- app_assoc. reflexivity.
Qed.

End PurgeFacts.

(** ** llm_io: the response coercer *)

Section CoercerFacts.
  Import llm_io.
  Variable loads : pystr -> option json.



Lemma slice_substring t a b : substring (slice t a b) t.
Proof.
  unfold slice. exists (firstn a t), (skipn (b - a) (skipn a t)).
  rewrite firstn_skipn, firstn_skipn. reflexivity.
Qed.

(** *** The early exit of the scan is a search among all blocks *)

Lemma scan_balanced_is_find t rest i in_str esc depth start :
  scan_balanced t rest i in_str esc depth start =
  List.find (contains quoted_actions)
            (scan_blocks t rest i in_str esc depth start).
Proof.
  revert i in_str esc depth start.
  induction rest as [|ch rest IH]; intros i in_str esc depth start;
    [reflexivity|].
  cbn [scan_balanced scan_blocks].
  destruct in_str.
  - destruct esc; [apply IH|].
    destruct (ch =? 92); [apply IH|]. destruct (ch =? 34); apply IH.
  - destruct (ch =? 34); [apply IH|].
    destruct (ch =? 123); [apply IH|].
    destruct (ch =? 125); [|apply IH].
    destruct depth as [|[|depth']]; [apply IH| |apply IH].
    destruct start as [st|]; [|apply IH].
    cbn [List.find]. fold quoted_actions.
    destruct (contains quoted_actions (slice t st (i + 1))); [reflexivity|].
    apply IH.
Qed.

Lemma first_balanced_is_find t :
  _first_balanced_with_actions t =
  List.find (contains quoted_actions) (top_level_blocks t).
Proof. apply scan_balanced_is_find. Qed.

(** *** Every block is a brace-delimited piece of the text *)

Lemma skipn_cons_inv (t : pystr) i ch rest :
  ch :: rest = skipn i t -> rest = skipn (S i) t /\ t !! i = Some ch.
Proof.
  revert i; induction t as [|c t IH]; intros i Heq.
  - rewrite skipn_nil in Heq. discriminate.
  - destruct i as [|i]; simpl in *.
    + injection Heq as -> ->. split; reflexivity.
    + apply IH; exact Heq.
Qed.

Lemma slice_delimited (t : pystr) st i :
  (st < i)%nat -> t !! st = Some 123 -> t !! i = Some 125 ->
  exists mid, slice t st (i + 1) = 123 :: mid ++ [125].
Proof.
  intros Hlt Hst Hi. unfold slice.
  replace (i + 1 - st)%nat with (S (i - st)) by lia.
  assert (Hi' : skipn st t !! (i - st)%nat = Some 125).
  { rewrite lookup_drop. replace (st + (i - st))%nat with i by lia. exact Hi. }
  rewrite (take_S_r _ _ _ Hi').
  rewrite (drop_S _ _ _ Hst).
  destruct (i - st)%nat as [|n] eqn:E; [lia|].
  exists (firstn n (skipn (S st) t)). reflexivity.
Qed.

Lemma scan_blocks_delimited t rest i in_str esc depth start :
  scan_inv t rest i start ->
  Forall (delimited_piece t) (scan_blocks t rest i in_str esc depth start).
Proof.
  revert i in_str esc depth start.
  induction rest as [|ch rest IH]; intros i in_str esc depth start [Hrest Hstart];
    [constructor|].
  destruct (skipn_cons_inv t i ch rest Hrest) as [Hrest' Hch].
  assert (Hnext : scan_inv t rest (S i) start).
  { split; [exact Hrest'|]. intros st Hs. destruct (Hstart st Hs). split; [lia|assumption]. }
  cbn [scan_blocks].
  destruct in_str.
  - destruct esc; [apply IH, Hnext|].
    destruct (ch =? 92); [apply IH, Hnext|].
    destruct (ch =? 34); apply IH, Hnext.
  - destruct (ch =? 34); [apply IH, Hnext|].
    destruct (ch =? 123) eqn:Eopen.
    { apply IH. split; [exact Hrest'|].
      intros st Hs. destruct (Nat.eqb depth 0).
      - injection Hs as <-. apply N.eqb_eq in Eopen. subst ch. split; [lia|exact Hch].
      - destruct (Hstart st Hs). split; [lia|assumption]. }
    destruct (ch =? 125) eqn:Eclose; [|apply IH, Hnext].
    destruct depth as [|[|depth']]; [apply IH, Hnext| |apply IH, Hnext].
    destruct start as [st|]; [|apply IH, Hnext].
    constructor; [|apply IH, Hnext].
    destruct (Hstart st eq_refl) as [Hlt Hst].
    apply N.eqb_eq in Eclose. subst ch.
    split; [apply slice_substring | apply slice_delimited; assumption].
Qed.

Lemma top_level_blocks_delimited t :
  Forall (delimited_piece t) (top_level_blocks t).
Proof.
  apply scan_blocks_delimited. split; [reflexivity | discriminate].
Qed.

Lemma first_balanced_delimited t frag :
  _first_balanced_with_actions t = Some frag ->
  delimited_piece t frag /\ contains quoted_actions frag = true
  /\ In frag (top_level_blocks t).
Proof.
  rewrite first_balanced_is_find. intros Hf.
  apply find_some in Hf as [Hin Hc].
  pose proof (top_level_blocks_delimited t) as Hall.
  rewrite List.Forall_forall in Hall. auto.
Qed.

(** *** The regex fallback *)



(** *** What the coercer returns *)





(** C7 (amended).  For every input text whose direct strict parse fails,
    the scan singles out one fragment, the first top-level balanced brace
    block that textually contains the quoted key [actions] (each such
    block is a piece of the text that opens and closes with a brace), and
    only that fragment is decoded: when it decodes, the result comes from
    it; when it does not, or when there is no such block, the coercer
    falls back to the first brace span of the regex. *)
Theorem json_coerce_scan_then_fallback (s : pystr) :
  let txt := cleaned_text s in
  loads txt = None ->
  _first_balanced_with_actions txt
    = List.find (contains quoted_actions) (top_level_blocks txt)
  /\ Forall (delimited_piece txt) (top_level_blocks txt)
  /\ _json_coerce loads s =
       match List.find (contains quoted_actions) (top_level_blocks txt) with
       | Some frag =>
           match loads frag with
           | Some obj => dict_or_error obj
           | None => regex_fallback loads txt
           end
       | None => regex_fallback loads txt
       end.
Proof.
  intros txt Hdirect.
  split; [apply first_balanced_is_find|].
  split; [apply top_level_blocks_delimited|].
  unfold _json_coerce. fold txt. rewrite Hdirect.
  destruct (_first_balanced_with_actions txt) as [frag|] eqn:Ef.
  - pose proof Ef as Hfind. rewrite first_balanced_is_find in Hfind.
    rewrite Hfind.
    apply first_balanced_delimited in Ef as [[_ [mid ->]] _].
    reflexivity.
  - rewrite first_balanced_is_find in Ef. rewrite Ef. reflexivity.
Qed.
End CoercerFacts.


(** C7, as stated, fails: the first block that mentions [actions] does not
    decode, the second one would, and the coercer never tries it. *)
Lemma json_coerce_skips_later_blocks :
  let s := pyq "x {'actions' bad} {'actions':[]}" in
  json_decoder.json_loads (llm_io.cleaned_text s) = None
  /\ coerce_trying_every_block json_decoder.json_loads s
     = JObj [(py "actions", JArr [])]
  /\ llm_io._json_coerce json_decoder.json_loads s
     = llm_io.error_result "parse_coerce_fail".
Proof. repeat split; vm_compute; reflexivity. Qed.

Lemma json_coerce_scan_then_fallback_witness :
  let s := pyq "x {'actions' bad} {'actions':[]}" in
  let txt := llm_io.cleaned_text s in
  llm_io._first_balanced_with_actions txt
    = List.find (contains quoted_actions) (top_level_blocks txt)
  /\ Forall (delimited_piece txt) (top_level_blocks txt)
  /\ llm_io._json_coerce json_decoder.json_loads s =
       match List.find (contains quoted_actions) (top_level_blocks txt) with
       | Some frag =>
           match json_decoder.json_loads frag with
           | Some obj => llm_io.dict_or_error obj
           | None => llm_io.regex_fallback json_decoder.json_loads txt
           end
       | None => llm_io.regex_fallback json_decoder.json_loads txt
       end.
Proof.
  apply (json_coerce_scan_then_fallback json_decoder.json_loads).
  vm_compute. reflexivity.
Defined.

(** ** Programs *)

Section ProgFacts.
  Context {W : Type} (h : handler W).

Lemma run_prog_bind {A B} (m : prog A) (k : A -> prog B) w :
  run_prog h (m ≫= k) w =
  match run_prog h m w with
  | (Returned a, w', tr) =>
      let '(o, w'', tr') := run_prog h (k a) w' in (o, w'', tr ++ tr')
  | (Raised exc, w', tr) => (Raised exc, w', tr)
  end.
Proof.
  change (m ≫= k) with (prog_bind k m).
  revert w; induction m as [a|exc|X e k' IH]; intros w; simpl.
  - destruct (run_prog h (k a) w) as [[o w''] tr']. reflexivity.
  - reflexivity.
  - destruct (h X e w) as [x w']. rewrite IH.
    destruct (run_prog h (k' x) w') as [[[a|exc] w''] tr]; [|reflexivity].
    destruct (run_prog h (k a) w'') as [[o w3] tr']. reflexivity.
Qed.

Lemma leaves_all_run {A} (P : A -> Prop) (m : prog A) :
  leaves_all P m ->
  forall w a, fst (fst (run_prog h m w)) = Returned a -> P a.
Proof.
  induction 1 as [a Ha|exc|X e k Hk IH]; intros w a'; simpl.
  - intros [= <-]. exact Ha.
  - discriminate.
  - destruct (h X e w) as [x w'].
    specialize (IH x w' a').
    destruct (run_prog h (k x) w') as [[o w''] tr]. exact IH.
Qed.
End ProgFacts.

(** ** tools: [tool_plan_move] *)

Section ToolsFacts.
  Context `{UnicodeData} `{Unidecode} `{Config}.
  Import tools.

Lemma pystr_eqb_neq (a b : pystr) : pystr_eqb a b = false <-> a <> b.
Proof. unfold pystr_eqb. apply bool_decide_eq_false. Qed.

Lemma Forall_not_In (c : N) (s : pystr) :
  Forall (fun x => x <> c) s <-> ~ In c s.
Proof.
  rewrite List.Forall_forall. split.
  - intros Hall Hin. exact (Hall c Hin eq_refl).
  - intros Hn x Hin ->. exact (Hn Hin).
Qed.

Lemma split_on_no_sep sep s :
  Forall (fun part => ~ In sep part) (split_on sep s).
Proof.
  induction s as [|c r IH]; simpl.
  - repeat constructor. intros [].
  - destruct (c =? sep) eqn:E.
    + constructor; [intros []|exact IH].
    + destruct (split_on sep r) as [|w ws]; inversion IH; subst.
      * repeat constructor. intros [->|[]]. rewrite N.eqb_refl in E. discriminate.
      * constructor; [|assumption].
        intros [->|Hin]; [rewrite N.eqb_refl in E; discriminate | auto].
Qed.

Lemma split_on_whole sep s : ~ In sep s -> split_on sep s = [s].
Proof.
  induction s as [|c r IH]; simpl; [reflexivity|]. intros Hn.
  destruct (c =? sep) eqn:E.
  - apply N.eqb_eq in E. subst. exfalso; apply Hn; left; reflexivity.
  - rewrite IH by (intros Hin; apply Hn; right; exact Hin). reflexivity.
Qed.

Lemma replace_char_removes old new s :
  Forall (fun x => x <> old) new ->
  Forall (fun x => x <> old) (replace_char old new s).
Proof.
  intros Hnew. unfold replace_char. induction s as [|c r IH]; simpl; [constructor|].
  apply Forall_app; split; [|exact IH].
  destruct (c =? old) eqn:E; [exact Hnew|].
  repeat constructor. intros ->. rewrite N.eqb_refl in E. discriminate.
Qed.

Lemma replace_char_Forall (P : N -> Prop) old new s :
  Forall P new -> Forall P s -> Forall P (replace_char old new s).
Proof.
  intros Hnew Hs. unfold replace_char. induction Hs as [|c r Hc Hr IH]; simpl;
    [constructor|].
  apply Forall_app; split; [|exact IH].
  destruct (c =? old); [exact Hnew | repeat constructor; exact Hc].
Qed.

(** A sanitized segment is a plain name, whatever the segment was. *)
Lemma sanitize_segment_plain segment : plain_name (_sanitize_segment segment).
Proof.
  unfold _sanitize_segment.
  set (seg := strip (replace_char 0 [] (replace_char os_sep (py "_") segment))).
  assert (Hsep : ~ In 47 seg).
  { apply Forall_not_In. apply strip_by_Forall, replace_char_Forall;
      [constructor|]. apply replace_char_removes. repeat constructor. discriminate. }
  destruct (pystr_eqb seg []) eqn:E1; simpl.
  { repeat split; try discriminate. intros [Hc|[]]; discriminate. }
  destruct (pystr_eqb seg (py ".")) eqn:E2; simpl.
  { repeat split; try discriminate. intros [Hc|[]]; discriminate. }
  destruct (pystr_eqb seg (py "..")) eqn:E3; simpl.
  { repeat split; try discriminate. intros [Hc|[]]; discriminate. }
  apply pystr_eqb_neq in E1, E2, E3. repeat split; assumption.
Qed.

Lemma startswith_slash s :
  startswith (py "/") s = match s with c :: _ => 47 =? c | [] => false end.
Proof. destruct s as [|c r]; [reflexivity|]. cbn -[N.eqb]. apply andb_true_r. Qed.

Lemma plain_name_no_slash seg : plain_name seg -> startswith (py "/") seg = false.
Proof.
  intros (Hne & _ & _ & Hsep). rewrite startswith_slash.
  destruct seg as [|c r]; [reflexivity|].
  destruct (47 =? c) eqn:E; [|reflexivity].
  apply N.eqb_eq in E. subst. exfalso; apply Hsep; left; reflexivity.
Qed.

(** Joining a plain name appends one component. *)
Lemma path_of_str_plain seg :
  plain_name seg -> path_of_str seg = {| anchor := []; comps := [seg] |}.
Proof.
  intros Hp. pose proof (plain_name_no_slash seg Hp) as Hs.
  destruct Hp as (Hne & Hdot & Hdd & Hsep). unfold path_of_str.
  rewrite (split_on_whole 47 seg Hsep), Hs.
  cbn [List.filter].
  apply pystr_eqb_neq in Hne, Hdot. rewrite Hne, Hdot. reflexivity.
Qed.

Lemma joinpath_plain p seg :
  plain_name seg ->
  joinpath p seg = {| anchor := anchor p; comps := comps p ++ [seg] |}.
Proof.
  intros Hp. unfold joinpath.
  rewrite (path_of_str_plain seg Hp), (plain_name_no_slash seg Hp).
  reflexivity.
Qed.







(** Nothing is raised to the caller: the result is a destination path
    without an error, or an error without a path. *)
Lemma tool_plan_move_returns src destination_root subpath filename :
  returns_with
    (fun r => (exists dest, r = move_result (JStr dest) JNull)
              \/ (exists exc, r = move_result JNull (JStr exc)))
    (tool_plan_move src destination_root subpath filename).
Proof.
  unfold tool_plan_move, _destination_root.
  destruct (root_lookup destination_root _ROOT_MAP) as [base|]; simpl.
  2:{ constructor. right. eexists; reflexivity. }
  constructor. intros [[]|exc]; simpl.
  2:{ constructor. right. eexists; reflexivity. }
  constructor. intros src_is_dir. destruct src_is_dir; simpl.
  - constructor. intros dest_exists. destruct dest_exists; simpl.
    + constructor. intros [[]|exc]; simpl.
      2:{ constructor. right. eexists; reflexivity. }
      constructor. intros [[]|exc]; simpl; constructor;
        [left | right]; eexists; reflexivity.
    + constructor. intros [[]|exc]; simpl; constructor;
        [left | right]; eexists; reflexivity.
  - constructor. intros [[]|exc]; simpl; constructor;
      [left | right]; eexists; reflexivity.
Qed.
End ToolsFacts.

(** C1.  The code at the input that breaks the claim: with the root
    [Documents], an empty subpath and the file name [..], the sanitized name
    is still [..], the destination is [Documents/..], that is the vault
    itself, which is not below the [Documents] root; and the move is carried
    out and reported as a success. *)
Theorem tool_plan_move_dotdot_leaves_root :
  let base := @DOCS home_u in
  let dest := @tools.plan_move_dest_path plain_unicode dropping_unidecode
                base (py "") (py "..") in
  @utils_fs.safe_ascii plain_unicode dropping_unidecode (py "..") = py ".."
  /\ path_str dest = py "/home/u/_Vault/Documents/.."
  /\ utils_fs.normpath (path_str dest) = path_str (@ROOT home_u)
  /\ ~ below base dest
  /\ run_prog obliging
       (@tools.tool_plan_move plain_unicode dropping_unidecode home_u
          (py "/home/u/_Vault/INBOX/a.txt") (py "Documents") (py "") (py ".."))
       tt
     = (Returned (tools.move_result
                    (JStr (py "/home/u/_Vault/Documents/..")) JNull),
        tt,
        [Happened (EvMkdir (py "/home/u/_Vault/Documents"));
         Happened (EvIsDir (py "/home/u/_Vault/INBOX/a.txt"));
         Happened (EvMove (py "/home/u/_Vault/INBOX/a.txt")
                          (py "/home/u/_Vault/Documents/.."))]).
Proof.
  repeat split; try (vm_compute; reflexivity).
  intros [_ (names & Hc & Hn)]. vm_compute in Hc.
  assert (Hnames : names = [[46; 46]]) by congruence. subst names.
  inversion Hn as [|? ? (_ & _ & Hdd & _) _]. apply Hdd. reflexivity.
Qed.

(** ** agent: the cohesion tracker *)

Section CohesionFacts.
  Context `{UnicodeData}.
  Import cohesion.

(** *** [consensus] reads and never writes *)

Lemma consensus_keeps_tracker self parent :
  leaves_all (fun rt => snd rt = self) (consensus self parent).
Proof.
  unfold consensus.
  destruct (decide _); [constructor; reflexivity|].
  destruct (stats self !! path_str parent) as [s|]; [|constructor; reflexivity].
  destruct (total s <? k self)%nat; [constructor; reflexivity|].
  destruct (most_common_1 (votes s)) as [[dest cnt]|]; [|constructor].
  destruct (Nat.eqb (total s) 0); [constructor|].
  destruct (Rlt_dec _ _); [constructor; reflexivity|].
  destruct (Rlt_dec _ _); [constructor; reflexivity|].
  cbn -[Nat.ltb]. constructor. intros [names|exc]; [|constructor; reflexivity].
  destruct (_ <? _)%nat; constructor; reflexivity.
Qed.

(** The program asks the world at most one thing, the listing of the
    parent, so its outcome is decided by the tracker and that listing. *)
Lemma consensus_run_listing {W} (h : handler W) listing self parent w :
  (forall w', fst (h _ (EvIterdir (path_str parent)) w') = listing) ->
  fst (fst (run_prog h (consensus self parent) w))
  = outcome_in listing (consensus self parent).
Proof.
  intros Hl. unfold outcome_in, consensus.
  destruct (decide _); [reflexivity|].
  destruct (stats self !! path_str parent) as [s|]; [|reflexivity].
  destruct (total s <? k self)%nat; [reflexivity|].
  destruct (most_common_1 (votes s)) as [[dest cnt]|]; [|reflexivity].
  destruct (Nat.eqb (total s) 0); [reflexivity|].
  destruct (Rlt_dec _ _); [reflexivity|].
  destruct (Rlt_dec _ _); [reflexivity|].
  cbn -[Nat.ltb]. specialize (Hl w).
  destruct (h _ (EvIterdir (path_str parent)) w) as [x w'].
  simpl in Hl. subst x.
  destruct listing as [names|exc]; [|reflexivity].
  destruct (_ <? _)%nat; reflexivity.
Qed.

(** *** When [consensus] answers with a destination *)


(** *** Votes *)

Lemma note_config self parent f root sub :
  k (note self parent f root sub) = k self
  /\ purity (note self parent f root sub) = purity self
  /\ cap (note self parent f root sub) = cap self
  /\ already_escalated (note self parent f root sub) = already_escalated self.
Proof. repeat split. Qed.






(** *** The two thresholds on particular histograms *)




(** *** The cases singled out by the specification *)




(** C10.  [consensus] is read-only: whatever the listing of the parent
    says, every result comes with the tracker it was called on (stats and
    escalated set untouched; marking a parent as escalated is a separate
    operation, [mark_escalated], which only the orchestrator performs;
    recording a vote with [note] leaves the escalated set alone as well),
    so two consecutive calls on the same state, seeing the same directory,
    return the same result twice. *)
Theorem consensus_is_read_only self parent :
  leaves_all (fun rt => snd rt = self) (consensus self parent)
  /\ (forall f root sub,
        already_escalated (note self parent f root sub)
        = already_escalated self)
  /\ forall W (h : handler W) listing w,
       (forall w', fst (h _ (EvIterdir (path_str parent)) w') = listing) ->
       fst (fst (run_prog h
                   ('(r1, t1) ← consensus self parent;
                    '(r2, t2) ← consensus t1 parent;
                    mret (r1, r2, t2)) w))
       = match outcome_in listing (consensus self parent) with
         | Returned (r, _) => Returned (r, r, self)
         | Raised exc => Raised exc
         end.
Proof.
  split; [apply consensus_keeps_tracker|]. split; [reflexivity|].
  intros W h listing w Hl.
  rewrite run_prog_bind.
  pose proof (consensus_run_listing h listing self parent w Hl) as H1.
  pose proof (leaves_all_run h _ _ (consensus_keeps_tracker self parent) w)
    as Hkeep.
  destruct (run_prog h (consensus self parent) w) as [[o1 w1] tr1].
  simpl in H1. rewrite <- H1.
  destruct o1 as [[r1 t1]|exc]; [|reflexivity].
  specialize (Hkeep _ eq_refl). simpl in Hkeep. subst t1. cbn beta iota.
  rewrite run_prog_bind.
  pose proof (consensus_run_listing h listing self parent w1 Hl) as H2.
  rewrite <- H1 in H2.
  destruct (run_prog h (consensus self parent) w1) as [[o2 w2] tr2].
  simpl in H2. subst o2. reflexivity.
Qed.
End CohesionFacts.


Lemma consensus_is_read_only_witness :
  let parent := path_of_str (py "/home/u/_Vault/INBOX/scans") in
  let files := [path_of_str (py "/home/u/_Vault/INBOX/scans/a.pdf");
                path_of_str (py "/home/u/_Vault/INBOX/scans/b.pdf");
                path_of_str (py "/home/u/_Vault/INBOX/scans/c.pdf")] in
  let self := @note_all plain_unicode (cohesion.new_tracker 3 (8 / 10) 500)
                parent files (py "Documents") (py "Scans") in
  fst (fst (run_prog obliging
              ('(r1, t1) ← cohesion.consensus self parent;
               '(r2, t2) ← cohesion.consensus t1 parent;
               mret (r1, r2, t2)) tt))
  = match outcome_in (Ok []) (cohesion.consensus self parent) with
    | Returned (r, _) => Returned (r, r, self)
    | Raised exc => Raised exc
    end.
Proof.
  intros parent files self.
  apply (proj2 (proj2 (@consensus_is_read_only plain_unicode self parent))
           unit obliging (Ok []) tt).
  intros w'. reflexivity.
Defined.

(** ** agent: the thresholds of [consensus] in exact arithmetic *)

Section Exact.
  Import cohesion.
  Local Open Scope R_scope.

Lemma purity_below_spec cnt total :
  (0 < total)%nat ->
  (INR cnt / INR total < 8 / 10) <-> purity_below cnt total = true.
Proof.
  intros Ht. unfold purity_below. rewrite Nat.ltb_lt.
  assert (HT : 0 < INR total) by (apply lt_0_INR; exact Ht).
  assert (H10 : INR 10 = 10) by (simpl; lra).
  assert (H8 : INR 8 = 8) by (simpl; lra).
  split.
  - intros Hlt. apply INR_lt. rewrite !mult_INR.
    rewrite H10, H8.
    apply (Rmult_lt_compat_r (INR total)) in Hlt; [|exact HT].
    unfold Rdiv in Hlt. rewrite Rmult_assoc, Rinv_l in Hlt by lra. lra.
  - intros Hlt. apply lt_INR in Hlt. rewrite !mult_INR in Hlt.
    rewrite H10, H8 in Hlt.
    apply (Rmult_lt_reg_r (INR total)); [exact HT|].
    unfold Rdiv. rewrite Rmult_assoc, Rinv_l by lra. lra.
Qed.

Lemma ln_2_pos : 0 < ln 2.
Proof. pose proof ln_lt_2. lra. Qed.

Lemma nonzero_counts_pos exts :
  Forall (fun c => (0 < c)%nat) (nonzero_counts exts).
Proof.
  unfold nonzero_counts. apply List.Forall_forall. intros c Hin.
  apply List.filter_In in Hin as [_ Hc].
  destruct (Nat.eqb c 0) eqn:E; [discriminate|].
  apply Nat.eqb_neq in E. lia.
Qed.

Lemma nonzero_counts_sum exts :
  list_sum (nonzero_counts exts) = counter_total exts.
Proof.
  unfold nonzero_counts, counter_total.
  induction exts as [|[e c] exts IH]; [reflexivity|].
  simpl. destruct (Nat.eqb c 0) eqn:E; simpl.
  - apply Nat.eqb_eq in E. subst c. exact IH.
  - f_equal. exact IH.
Qed.

Lemma ln_ratio x y : 0 < x -> 0 < y -> ln (x / y) = ln x - ln y.
Proof.
  intros Hx Hy. unfold Rdiv.
  rewrite ln_mult, ln_Rinv; [lra | exact Hy | exact Hx |].
  apply Rinv_0_lt_compat. exact Hy.
Qed.

Lemma share_logs (T : R) (cs : list nat) :
  0 < T ->
  Forall (fun c => (0 < c)%nat) cs ->
  fold_right Rplus 0
    (List.map (fun c => INR c / T * log2 (INR c / T)) cs)
  = (weighted_logs cs - INR (list_sum cs) * ln T) / (T * ln 2).
Proof.
  intros HT Hcs. pose proof ln_2_pos as H2.
  induction Hcs as [|c cs Hc Hcs IH].
  - unfold weighted_logs. simpl. field. lra.
  - change (list_sum (c :: cs)) with (c + list_sum cs)%nat.
    cbn [List.map fold_right]. rewrite IH.
    unfold weighted_logs. cbn [List.map fold_right]. rewrite plus_INR.
    unfold log2. rewrite (ln_ratio (INR c) T) by (try apply lt_0_INR; assumption).
    field. lra.
Qed.

Lemma ln_self_powers cs :
  Forall (fun c => (0 < c)%nat) cs ->
  0 < IZR (self_powers cs)
  /\ ln (IZR (self_powers cs)) = weighted_logs cs.
Proof.
  induction 1 as [|c cs Hc Hcs [IHp IHl]].
  - unfold self_powers, weighted_logs. simpl. split; [lra | apply ln_1].
  - unfold self_powers, weighted_logs in *. cbn [List.map fold_right].
    rewrite mult_IZR, <- pow_IZR, <- INR_IZR_INZ.
    assert (Hpc : 0 < INR c) by (apply lt_0_INR; exact Hc).
    assert (Hpp : 0 < INR c ^ c) by (apply pow_lt; exact Hpc).
    split.
    + apply Rmult_lt_0_compat; assumption.
    + rewrite ln_mult, ln_pow, IHl by assumption. reflexivity.
Qed.

(** The entropy test of [consensus] compares two integers. *)
Lemma entropy_above_one_bit_spec exts :
  1 < entropy exts <-> entropy_above_one_bit exts = true.
Proof.
  unfold entropy, entropy_above_one_bit. fold (nonzero_counts exts).
  pose proof (nonzero_counts_pos exts) as Hpos.
  pose proof (nonzero_counts_sum exts) as Hsum.
  pose proof ln_2_pos as H2.
  rewrite Z.ltb_lt.
  destruct (counter_total exts) as [|t'] eqn:Et.
  - assert (Hnil : nonzero_counts exts = []).
    { destruct (nonzero_counts exts) as [|c cs]; [reflexivity|].
      inversion Hpos; subst. simpl in Hsum. lia. }
    rewrite Hnil. unfold self_powers. simpl.
    split; intros Hlt; [exfalso; lra | lia].
  - set (t := S t') in *.
    assert (HT : 0 < INR t) by (apply lt_0_INR; unfold t; lia).
    rewrite (share_logs (INR t) _ HT Hpos), Hsum.
    destruct (ln_self_powers _ Hpos) as [Hsp Hsl].
    set (W := weighted_logs (nonzero_counts exts)) in *.
    assert (HD : 0 < INR t * ln 2) by (apply Rmult_lt_0_compat; assumption).
    assert (Hleft : ln (IZR (2 ^ Z.of_nat t * self_powers (nonzero_counts exts)))
                    = INR t * ln 2 + W).
    { rewrite mult_IZR, <- pow_IZR, ln_mult, ln_pow, Hsl;
        [reflexivity | lra | apply pow_lt; lra | exact Hsp]. }
    assert (Hright : ln (IZR (Z.of_nat t ^ Z.of_nat t)) = INR t * ln (INR t)).
    { rewrite <- pow_IZR, <- INR_IZR_INZ, ln_pow by exact HT. reflexivity. }
    assert (HA : 0 < IZR (2 ^ Z.of_nat t * self_powers (nonzero_counts exts))).
    { rewrite mult_IZR, <- pow_IZR. apply Rmult_lt_0_compat;
        [apply pow_lt; lra | exact Hsp]. }
    assert (HB : 0 < IZR (Z.of_nat t ^ Z.of_nat t)).
    { rewrite <- pow_IZR, <- INR_IZR_INZ. apply pow_lt. exact HT. }
    set (X := W - INR t * ln (INR t)) in *.
    assert (Hq : X = X / (INR t * ln 2) * (INR t * ln 2)) by (field; lra).
    set (q := X / (INR t * ln 2)) in *.
    split.
    + intros Hlt. apply lt_IZR. apply ln_lt_inv; [exact HA | exact HB |].
      rewrite Hleft, Hright. unfold X in Hq. nra.
    + intros Hlt. apply IZR_lt in Hlt.
      apply ln_increasing in Hlt; [|exact HA].
      rewrite Hleft, Hright in Hlt. unfold X in Hq. nra.
Qed.

(** X18.  With the purity threshold of the run, 0.8, [consensus] is the
    program [consensus_exact], which decides its two float tests by
    integer arithmetic: the purity test fails exactly when ten times the
    majority count is below eight times the total, and the entropy test
    fails exactly when the total raised to itself exceeds two raised to
    the total times the product of each count raised to itself.  The
    quotients and the logarithm are those of the real numbers. *)
Theorem consensus_exact_eq self parent :
  purity self = 8 / 10 ->
  consensus self parent = consensus_exact self parent.
Proof.
  intros Hp. unfold consensus, consensus_exact. rewrite Hp.
  destruct (decide _); [reflexivity|].
  destruct (stats self !! path_str parent) as [s|]; [|reflexivity].
  destruct (total s <? k self)%nat; [reflexivity|].
  destruct (most_common_1 (votes s)) as [[dest cnt]|]; [|reflexivity].
  destruct (Nat.eqb (total s) 0) eqn:E0; [reflexivity|].
  apply Nat.eqb_neq in E0.
  pose proof (purity_below_spec cnt (total s) ltac:(lia)) as Hpur.
  pose proof (entropy_above_one_bit_spec (exts s)) as Hent.
  destruct (Rlt_dec _ _) as [Hlt|Hge], (purity_below cnt (total s));
    try reflexivity.
  - apply Hpur in Hlt. discriminate.
  - exfalso. apply Hge, Hpur. reflexivity.
  - destruct (Rlt_dec _ _) as [Hlt|Hge'], (entropy_above_one_bit (exts s));
      try reflexivity.
    + apply Hent in Hlt. discriminate.
    + exfalso. apply Hge', Hent. reflexivity.
Qed.
End Exact.

(** The thresholds at work, computed: three votes out of four are not
    enough, four out of five are; five files of three extensions (3, 1, 1)
    carry more than one bit. *)
Lemma consensus_thresholds_computed :
  let parent := path_of_str (py "/home/u/_Vault/INBOX/scans") in
  let file name := joinpath parent name in
  let t0 := cohesion.new_tracker 3 (8 / 10) 500 in
  let t4 :=
    @cohesion.note plain_unicode
      (@note_all plain_unicode t0 parent
         [file (py "a.pdf"); file (py "b.pdf"); file (py "c.pdf")]
         (py "Documents") (py "Scans"))
      parent (file (py "d.pdf")) (py "Media") (py "Images") in
  let t5 :=
    @cohesion.note plain_unicode t4 parent (file (py "e.pdf"))
      (py "Documents") (py "Scans") in
  let mixed :=
    @note_all plain_unicode t0 parent
      [file (py "a.pdf"); file (py "b.txt"); file (py "c.png");
       file (py "d.pdf"); file (py "e.pdf")]
      (py "Documents") (py "Scans") in
  outcome_in (Ok []) (cohesion.consensus t4 parent)
  = Returned (None, t4)
  /\ outcome_in (Ok []) (cohesion.consensus t5 parent)
     = Returned (Some (py "Documents", py "Scans"), t5)
  /\ outcome_in (Ok []) (cohesion.consensus mixed parent)
     = Returned (None, mixed).
Proof.
  intros parent file t0 t4 t5 mixed.
  rewrite !consensus_exact_eq by reflexivity.
  repeat split; vm_compute; reflexivity.
Defined.

(** ** actions: the sanitizer *)

Section ActionsFacts.
  Context `{UnicodeData} `{Unidecode} `{Config}.
  Import actions.








(** *** Reading the fields *)


(** *** Splitting an embedded root *)

Lemma split_once_none s : ~ In 47 s -> split_once 47 s = (s, None).
Proof.
  induction s as [|c r IH]; intros Hn; simpl; [reflexivity|].
  destruct (c =? 47) eqn:E.
  - apply N.eqb_eq in E. subst. exfalso; apply Hn; left; reflexivity.
  - rewrite IH by (intros Hin; apply Hn; right; exact Hin). reflexivity.
Qed.





(** *** [normalize_plan_move] on an action with string fields *)



End ActionsFacts.


(** ** pathlib: a path is rebuilt from its string *)

Section PathFacts.

Lemma split_on_cons_sep sep rest :
  split_on sep (sep :: rest) = [] :: split_on sep rest.
Proof. simpl. rewrite N.eqb_refl. reflexivity. Qed.

Lemma split_on_app_sep sep c rest :
  ~ In sep c -> split_on sep (c ++ sep :: rest) = c :: split_on sep rest.
Proof.
  induction c as [|x c IH]; intros Hn.
  - apply split_on_cons_sep.
  - change ((x :: c) ++ sep :: rest) with (x :: (c ++ sep :: rest)).
    cbn [split_on]. destruct (x =? sep) eqn:E.
    + apply N.eqb_eq in E. subst. exfalso; apply Hn; left; reflexivity.
    + rewrite IH by (intros Hin; apply Hn; right; exact Hin). reflexivity.
Qed.

Lemma split_on_join cs :
  cs <> [] -> Forall proper_comp cs -> split_on 47 (join (py "/") cs) = cs.
Proof.
  induction cs as [|c cs IH]; intros Hne Hall; [contradiction|].
  inversion Hall as [|? ? (_ & _ & Hsep) Hall']; subst.
  destruct cs as [|c' cs].
  - simpl. apply split_on_whole. exact Hsep.
  - change (join (py "/") (c :: c' :: cs))
      with (c ++ 47 :: join (py "/") (c' :: cs)).
    rewrite (split_on_app_sep 47 c _ Hsep), IH; [reflexivity | discriminate | exact Hall'].
Qed.

Lemma filter_proper cs :
  Forall proper_comp cs ->
  List.filter (fun c => negb (pystr_eqb c [] || pystr_eqb c (py "."))) cs = cs.
Proof.
  induction 1 as [|c cs (Hne & Hdot & _) Hall IH]; cbn [List.filter];
    [reflexivity|].
  apply pystr_eqb_neq in Hne, Hdot. rewrite Hne, Hdot, IH. reflexivity.
Qed.

Lemma filter_skip_empty cs :
  List.filter (fun c => negb (pystr_eqb c [] || pystr_eqb c (py ".")))
              ([] :: cs)
  = List.filter (fun c => negb (pystr_eqb c [] || pystr_eqb c (py "."))) cs.
Proof. reflexivity. Qed.

Lemma join_head c cs :
  proper_comp c ->
  exists x r, join (py "/") (c :: cs) = x :: r /\ x <> 47.
Proof.
  intros (Hne & _ & Hsep). destruct c as [|x c]; [contradiction|].
  exists x. destruct cs as [|c' cs].
  - exists c. split; [reflexivity|]. intros ->. apply Hsep. left; reflexivity.
  - exists (c ++ 47 :: join (py "/") (c' :: cs)). split; [reflexivity|].
    intros ->. apply Hsep. left; reflexivity.
Qed.

Lemma path_of_str_proper s : proper_path (path_of_str s).
Proof.
  split.
  - unfold path_of_str; cbn [anchor].
    destruct (startswith (py "/") s); [|left; reflexivity].
    destruct (_ && _); [right; right | right; left]; reflexivity.
  - unfold path_of_str; cbn [comps].
    pose proof (split_on_no_sep 47 s) as Hsep.
    induction Hsep as [|c cs Hc Hcs IH]; cbn [List.filter]; [constructor|].
    destruct (pystr_eqb c []) eqn:E1; cbn [orb negb]; [exact IH|].
    destruct (pystr_eqb c (py ".")) eqn:E2; cbn [orb negb]; [exact IH|].
    apply pystr_eqb_neq in E1, E2. constructor; [|exact IH].
    repeat split; assumption.
Qed.

Lemma path_eq p q : anchor p = anchor q -> comps p = comps q -> p = q.
Proof. destruct p, q; simpl; intros -> ->; reflexivity. Qed.

Lemma anchor_of_relative x r : x <> 47 -> anchor (path_of_str (x :: r)) = [].
Proof.
  intros Hx. unfold path_of_str; cbn [anchor].
  rewrite startswith_slash. replace (47 =? x) with false; [reflexivity|].
  symmetry. apply N.eqb_neq. congruence.
Qed.

Lemma anchor_of_rooted x r :
  x <> 47 -> anchor (path_of_str (47 :: x :: r)) = py "/".
Proof.
  intros Hx. unfold path_of_str; cbn [anchor].
  change (py "/") with [47]. change (py "//") with [47; 47].
  cbn [startswith]. rewrite N.eqb_refl.
  replace (47 =? x) with false; [reflexivity|].
  symmetry. apply N.eqb_neq. congruence.
Qed.

Lemma anchor_of_double x r :
  x <> 47 -> anchor (path_of_str (47 :: 47 :: x :: r)) = py "//".
Proof.
  intros Hx. unfold path_of_str; cbn [anchor].
  change (py "/") with [47]. change (py "//") with [47; 47].
  change (py "///") with [47; 47; 47].
  cbn [startswith]. rewrite !N.eqb_refl.
  replace (47 =? x) with false; [reflexivity|].
  symmetry. apply N.eqb_neq. congruence.
Qed.

Lemma path_of_str_str p :
  proper_path p -> path_of_str (path_str p) = p.
Proof.
  destruct p as [a cs]. intros [Ha Hcs]. simpl in Ha, Hcs.
  destruct cs as [|c cs].
  - destruct Ha as [-> | [-> | ->]]; reflexivity.
  - inversion Hcs as [|? ? Hc Hcs']; subst.
    destruct (join_head c cs Hc) as (x & r & Hj & Hx).
    assert (Hsplit := split_on_join (c :: cs) ltac:(discriminate) Hcs).
    destruct Ha as [-> | [-> | ->]].
    + change (path_str {| anchor := []; comps := c :: cs |})
        with (join (py "/") (c :: cs)).
      apply path_eq; cbn [anchor comps].
      * rewrite Hj. apply anchor_of_relative, Hx.
      * unfold path_of_str; cbn [comps].
        rewrite Hsplit. apply filter_proper, Hcs.
    + change (path_str {| anchor := py "/"; comps := c :: cs |})
        with (47 :: join (py "/") (c :: cs)).
      apply path_eq; cbn [anchor comps].
      * rewrite Hj. apply anchor_of_rooted, Hx.
      * unfold path_of_str; cbn [comps].
        rewrite split_on_cons_sep, Hsplit, filter_skip_empty.
        apply filter_proper, Hcs.
    + change (path_str {| anchor := py "//"; comps := c :: cs |})
        with (47 :: 47 :: join (py "/") (c :: cs)).
      apply path_eq; cbn [anchor comps].
      * rewrite Hj. apply anchor_of_double, Hx.
      * unfold path_of_str; cbn [comps].
        rewrite !split_on_cons_sep, Hsplit, !filter_skip_empty.
        apply filter_proper, Hcs.
Qed.

Lemma path_round_trip s :
  path_of_str (path_str (path_of_str s)) = path_of_str s.
Proof. apply path_of_str_str, path_of_str_proper. Qed.
End PathFacts.

(** ** agent: the orchestrator *)

Section EventFacts.
  Context {Q : happened -> Prop}.

Lemma events_all_bind {A B} (m : prog A) (k : A -> prog B) :
  events_all Q m -> (forall a, events_all Q (k a)) ->
  events_all Q (m ≫= k).
Proof.
  change (m ≫= k) with (prog_bind k m).
  induction 1 as [a|exc|X e k' He Hk IH]; intros Hcont; simpl.
  - apply Hcont.
  - constructor.
  - constructor; [exact He|]. intros x. apply IH. exact Hcont.
Qed.

Lemma events_all_catch {A} (m : prog A) (handler : pystr -> prog A) :
  events_all Q m -> (forall exc, events_all Q (handler exc)) ->
  events_all Q (catch m handler).
Proof.
  induction 1 as [a|exc|X e k' He Hk IH]; intros Hh; simpl.
  - constructor.
  - apply Hh.
  - constructor; [exact He|]. intros x. apply IH. exact Hh.
Qed.

Lemma events_all_lift {A} (r : res A) : events_all Q (lift_res r).
Proof. destruct r; constructor. Qed.

Lemma events_all_call {X} (e : ev X) :
  Q (Happened e) -> events_all Q (call e).
Proof. intros He. constructor; [exact He|]. intros x. constructor. Qed.

Lemma events_all_call_r {X} (e : ev (res X)) :
  Q (Happened e) -> events_all Q (call_r e).
Proof. intros He. constructor; [exact He|]. intros [x|exc]; constructor. Qed.
End EventFacts.

(** One step of a proof that every event of a program satisfies the guard:
    the program is taken apart along its binds and branches. *)
Ltac events_step :=
  match goal with
  | |- events_all _ (Ret _) => constructor
  | |- events_all _ (Throw _) => constructor
  | |- events_all _ (mret _) => constructor
  | |- events_all _ (lift_res _) => apply events_all_lift
  | |- events_all _ (call _) => apply events_all_call; exact I
  | |- events_all _ (call_r _) => apply events_all_call_r; exact I
  | |- events_all _ (catch _ _) => apply events_all_catch; [|intros ?]
  | |- events_all _ (_ ≫= _) => apply events_all_bind; [|intros ?]
  | |- events_all _ (let '(_, _) := ?x in _) => destruct x
  | |- events_all _ (match ?x with _ => _ end) => destruct x eqn:?
  end.

Section RunFacts.
  Context `{UnicodeData} `{Unidecode} `{Config}.
  Import agent.

Lemma log_guarded record : events_all outside_dep_dirs (log record).
Proof. unfold log. events_step. Qed.

Lemma log_all_guarded records : events_all outside_dep_dirs (log_all records).
Proof.
  induction records as [|r rest IH]; cbn [log_all]; [constructor|].
  apply events_all_bind; [apply log_guarded | intros _; exact IH].
Qed.

Lemma tool_plan_move_guarded src root sub name :
  events_all outside_dep_dirs (tools.tool_plan_move src root sub name).
Proof.
  unfold tools.tool_plan_move, tools._destination_root.
  repeat events_step.
Qed.

Lemma purge_loop_guarded moved queue keep :
  events_all outside_dep_dirs (purge_loop moved queue keep).
Proof.
  revert keep; induction queue as [|q queue IH]; intros keep;
    cbn [purge_loop]; [constructor|].
  unfold resolve_or_self. repeat events_step; apply IH.
Qed.

Lemma purge_queue_under_guarded queue moved :
  events_all outside_dep_dirs (purge_queue_under queue moved).
Proof.
  unfold purge_queue_under, resolve_or_self.
  repeat events_step. apply purge_loop_guarded.
Qed.

Lemma consensus_guarded self parent :
  events_all outside_dep_dirs (cohesion.consensus self parent).
Proof. unfold cohesion.consensus. repeat events_step. Qed.

Lemma ask_decide_guarded st key obs labels note :
  events_all outside_dep_dirs (_ask_decide st key obs labels note).
Proof.
  unfold _ask_decide.
  repeat first [apply log_guarded | apply log_all_guarded | events_step].
Qed.

Lemma execute_move_guarded st key a :
  events_all outside_dep_dirs (execute_move st key a).
Proof.
  unfold execute_move.
  repeat first [apply log_guarded | apply tool_plan_move_guarded
               | apply purge_queue_under_guarded | apply consensus_guarded
               | events_step].
Qed.

(** The purge that the orchestrator runs against the file system computes
    the function of [utils_fs]. *)
Lemma resolve_or_self_run {W} (h : handler W) resolve p w :
  resolves_as h resolve ->
  exists w' tr,
    run_prog h (resolve_or_self p) w
    = (Returned (utils_fs.resolved_or_self resolve p), w', tr).
Proof.
  intros Hres. unfold resolve_or_self, utils_fs.resolved_or_self. cbn.
  specialize (Hres p w).
  destruct (h _ (EvResolve p) w) as [[r|exc] w']; simpl in Hres;
    rewrite Hres; eexists _, _; reflexivity.
Qed.

Lemma purge_loop_run {W} (h : handler W) resolve moved queue :
  resolves_as h resolve ->
  forall keep w,
    fst (fst (run_prog h (purge_loop moved queue keep) w))
    = Returned (snd (utils_fs.purge_loop resolve moved queue keep)).
Proof.
  intros Hres. induction queue as [|q queue IH]; intros keep w;
    [reflexivity|].
  cbn [purge_loop utils_fs.purge_loop]. rewrite run_prog_bind.
  destruct (resolve_or_self_run h resolve q w Hres) as (w' & tr & ->).
  destruct (utils_fs.under_moved moved (utils_fs.resolved_or_self resolve q)).
  - specialize (IH keep w').
    destruct (run_prog h (purge_loop moved queue keep) w') as [[o w2] tr2].
    exact IH.
  - specialize (IH (keep ++ [q]) w').
    destruct (run_prog h (purge_loop moved queue (keep ++ [q])) w')
      as [[o w2] tr2].
    exact IH.
Qed.

Lemma purge_queue_under_run {W} (h : handler W) resolve queue moved w :
  resolves_as h resolve ->
  fst (fst (run_prog h (purge_queue_under queue moved) w))
  = Returned (utils_fs.purge_queue_under resolve queue moved).
Proof.
  intros Hres. unfold purge_queue_under, utils_fs.purge_queue_under.
  rewrite run_prog_bind.
  destruct (resolve_or_self_run h resolve moved w Hres) as (w' & tr & ->).
  pose proof (purge_loop_run h resolve
                (utils_fs.resolved_or_self resolve moved) queue Hres [] w')
    as Hloop.
  pose proof (purge_loop_spec resolve
                (utils_fs.resolved_or_self resolve moved) queue []) as Hspec.
  destruct (run_prog h (purge_loop _ queue []) w') as [[o w2] tr2].
  simpl in Hloop. subst o. rewrite Hspec. reflexivity.
Qed.

(** C8.  An item whose (normalized) path has a denylisted segment is
    skipped at the top of the step, whatever its stage: the step is one
    log record and the removal of the item from the queue, so no model
    call and no tool run precede it; and in every step, hence for every
    action of the LIGHT stage, a listing or an inspection only ever runs on
    a path without such a segment (an action aimed at one is dropped
    before its tool runs). *)
Theorem dependency_items_are_skipped allowed_labels st :
  (forall q0 rest,
     queue st = q0 :: rest ->
     _is_in_dep_dir (path_of_str (utils_fs.fs_norm_path q0)) = true ->
     step_body allowed_labels st
     = Vis (EvLog (event "skip_dependency_dir"
                     [(py "path",
                       JStr (path_str
                               (path_of_str (utils_fs.fs_norm_path q0))))]))
           (fun _ => Ret (set_queue (set_step st (step st + 1)) rest))
     /\ events_all is_log (step_body allowed_labels st))
  /\ events_all outside_dep_dirs (step_body allowed_labels st).
Proof.
  split.
  - intros q0 rest Hq Hdep. unfold step_body. rewrite Hq. cbv zeta.
    rewrite Hdep. split; [reflexivity|].
    constructor; [exact I|]. intros _. constructor.
  - unfold step_body. cbv zeta.
    destruct (queue st) as [|q0 queue_tail]; [constructor|].
    set (target := path_of_str (utils_fs.fs_norm_path q0)).
    assert (Hkey : path_of_str (path_str target) = target)
      by apply path_round_trip.
    destruct (_is_in_dep_dir target) eqn:Etarget.
    { repeat first [apply log_guarded | events_step]. }
    repeat first [apply log_guarded | apply log_all_guarded
                 | apply ask_decide_guarded | apply execute_move_guarded
                 | events_step].
    all: apply events_all_call; cbn [outside_dep_dirs].
    all: try (rewrite Hkey; exact Etarget).
    all: assumption.
Qed.
End RunFacts.

Lemma dependency_items_are_skipped_witness :
  let st := @agent.initial_state
              [py "/home/u/_Vault/INBOX/proj/node_modules/x.js";
               py "/home/u/_Vault/INBOX/a.txt"] in
  @agent.step_body plain_unicode dropping_unidecode home_u
    [py "Documents"; py "Media"; py "Projects"] st
  = Vis (EvLog (agent.event "skip_dependency_dir"
                  [(py "path",
                    JStr (py "/home/u/_Vault/INBOX/proj/node_modules/x.js"))]))
        (fun _ => Ret (agent.set_queue (agent.set_step st 1)
                         [py "/home/u/_Vault/INBOX/a.txt"])).
Proof.
  intros st.
  apply (proj1 (@dependency_items_are_skipped plain_unicode dropping_unidecode
                  home_u [py "Documents"; py "Media"; py "Projects"] st)
               (py "/home/u/_Vault/INBOX/proj/node_modules/x.js")
               [py "/home/u/_Vault/INBOX/a.txt"]).
  - reflexivity.
  - vm_compute. reflexivity.
Defined.

(** C3.  The code at the input that breaks the claim: the model proposes a
    move to Documents with the subpath [/ /].  The sanitizer strips blanks
    first and slashes second, so it keeps the action with a subpath of one
    blank (not empty, hence neither derived nor dropped); the orchestrator
    strips the blank and announces and runs [tool_plan_move] with the empty
    subpath, for which the destination directory is the root itself: the
    file lands directly in Documents. *)
Theorem blank_subpath_moves_into_root :
  let src := py "/home/u/_Vault/INBOX/a.txt" in
  let labels := @actions.allowed_root_names plain_unicode home_u in
  let trace :=
    snd (run_prog scripted
           (@agent.run_loop plain_unicode dropping_unidecode home_u 2 labels
              (agent.initial_state [src]))
           [plan_of "{'actions':[]}"; blank_subpath_plan]) in
  (exists normalized,
     @actions.sanitize_actions plain_unicode dropping_unidecode home_u
       (get_or blank_subpath_plan (py "actions") (JArr [])) src labels
     = Ok ([normalized], [])
     /\ dict_get (py "subpath") normalized = Some (JStr (py " ")))
  /\ plan_move_execs trace
     = [agent.event "plan_move_exec"
          [(py "step", JInt 2); (py "src", JStr src);
           (py "dest_root", JStr (py "Documents"));
           (py "subpath", JStr []); (py "filename", JStr (py "a.txt"))]]
  /\ tools.plan_move_dest_dir (@DOCS home_u) [] = @DOCS home_u
  /\ List.filter is_move trace
     = [Happened (EvMove src (py "/home/u/_Vault/Documents/a.txt"))].
Proof.
  intros src labels trace. split; [|split; [|split]].
  - eexists. split; vm_compute; reflexivity.
  - vm_compute. reflexivity.
  - vm_compute. reflexivity.
  - vm_compute. reflexivity.
Qed.

(** ** tools: more on [tool_plan_move] *)

Section ToolsMore.
  Context `{UnicodeData} `{Unidecode} `{Config}.
  Import tools.

(** X5.  [tool_plan_move] never raises.  With a known root it returns
    either the destination path it computed, with no error, or an error
    text with no path; with an unknown root it returns the error
    [Unknown destination_root: <name>] at once, before any call to the
    file system. *)
Theorem tool_plan_move_reports src destination_root subpath filename :
  match root_lookup destination_root _ROOT_MAP with
  | Some base =>
      returns_with
        (fun r =>
           r = move_result
                 (JStr (path_str (plan_move_dest_path base subpath filename)))
                 JNull
           \/ exists exc, r = move_result JNull (JStr exc))
        (tool_plan_move src destination_root subpath filename)
  | None =>
      tool_plan_move src destination_root subpath filename
      = Ret (move_result JNull
               (JStr (py "Unknown destination_root: " ++ destination_root)))
  end.
Proof.
  unfold tool_plan_move, _destination_root.
  destruct (root_lookup destination_root _ROOT_MAP) as [base|];
    [|reflexivity].
  simpl. constructor. intros [[]|exc]; simpl.
  2:{ constructor. right. eexists; reflexivity. }
  constructor. intros src_is_dir. destruct src_is_dir; simpl.
  - constructor. intros dest_exists. destruct dest_exists; simpl.
    + constructor. intros [[]|exc]; simpl.
      2:{ constructor. right. eexists; reflexivity. }
      constructor. intros [[]|exc]; simpl; constructor;
        [left; reflexivity | right; eexists; reflexivity].
    + constructor. intros [[]|exc]; simpl; constructor;
        [left; reflexivity | right; eexists; reflexivity].
  - constructor. intros [[]|exc]; simpl; constructor;
      [left; reflexivity | right; eexists; reflexivity].
Qed.


Lemma replace_char_absent old new s :
  ~ In old s -> replace_char old new s = s.
Proof.
  unfold replace_char. induction s as [|c r IH]; intros Hn; simpl;
    [reflexivity|].
  destruct (c =? old) eqn:E.
  - apply N.eqb_eq in E. subst. exfalso. apply Hn. left; reflexivity.
  - rewrite IH by (intros Hin; apply Hn; right; exact Hin). reflexivity.
Qed.

Lemma sanitize_segment_no_nul segment : ~ In 0 (_sanitize_segment segment).
Proof.
  unfold _sanitize_segment.
  set (seg := strip (replace_char 0 [] (replace_char os_sep (py "_") segment))).
  assert (Hnul : ~ In 0 seg).
  { apply Forall_not_In. apply strip_by_Forall, replace_char_removes.
    constructor. }
  destruct (pystr_eqb seg [] || pystr_eqb seg (py ".")
            || pystr_eqb seg (py "..")); [|exact Hnul].
  intros [Hc|[]]; discriminate.
Qed.

(** X7.  A sanitized subpath segment is one plain directory name: not
    empty, not a dot or a double dot, without separator or NUL; and
    sanitizing it again changes nothing. *)
Theorem sanitize_segment_idempotent segment :
  plain_name (_sanitize_segment segment)
  /\ ~ In 0 (_sanitize_segment segment)
  /\ _sanitize_segment (_sanitize_segment segment)
     = _sanitize_segment segment.
Proof.
  split; [apply sanitize_segment_plain|].
  split; [apply sanitize_segment_no_nul|].
  pose proof (sanitize_segment_plain segment) as (Hne & Hdot & Hdd & Hsep).
  pose proof (sanitize_segment_no_nul segment) as Hnul.
  assert (Hst : strip (_sanitize_segment segment) = _sanitize_segment segment).
  { unfold _sanitize_segment.
    destruct (pystr_eqb _ [] || pystr_eqb _ (py ".") || pystr_eqb _ (py ".."));
      [reflexivity | apply strip_by_idem]. }
  set (seg := _sanitize_segment segment) in *.
  unfold _sanitize_segment at 1.
  rewrite (replace_char_absent os_sep (py "_") seg Hsep).
  rewrite (replace_char_absent 0 [] seg Hnul), Hst.
  apply pystr_eqb_neq in Hne, Hdot, Hdd. rewrite Hne, Hdot, Hdd.
  reflexivity.
Qed.

(** X8.  The file-system calls of [tool_plan_move] stay with the source
    and the destination it computed: it creates the destination directory,
    asks whether the source is a directory, and only asks about, removes
    or moves onto the destination path.  When the source is not a
    directory it neither asks whether the destination exists nor removes
    anything before the move. *)
Theorem tool_plan_move_calls src destination_root subpath filename :
  match root_lookup destination_root _ROOT_MAP with
  | Some base =>
      let dir := path_str (plan_move_dest_dir base subpath) in
      let dest := path_str (plan_move_dest_path base subpath filename) in
      let source := path_str (path_of_str src) in
      events_all (plan_move_call source dir dest)
        (tool_plan_move src destination_root subpath filename)
      /\ forall W (h : handler W) w,
           (forall w', fst (h _ (EvIsDir source) w') = false) ->
           List.filter probes_or_removes
             (snd (run_prog h
                     (tool_plan_move src destination_root subpath filename)
                     w)) = []
  | None =>
      events_all (fun _ => False)
        (tool_plan_move src destination_root subpath filename)
  end.
Proof.
  unfold tool_plan_move, _destination_root.
  destruct (root_lookup destination_root _ROOT_MAP) as [base|];
    [|simpl; constructor].
  cbn zeta. split.
  - simpl. constructor; [reflexivity|]. intros [[]|exc]; simpl;
      [|constructor].
    constructor; [reflexivity|]. intros [|]; simpl.
    + constructor; [reflexivity|]. intros [|]; simpl.
      * constructor; [reflexivity|]. intros [[]|exc]; simpl; [|constructor].
        constructor; [split; reflexivity|].
        intros [[]|exc]; simpl; constructor.
      * constructor; [split; reflexivity|].
        intros [[]|exc]; simpl; constructor.
    + constructor; [split; reflexivity|].
      intros [[]|exc]; simpl; constructor.
  - intros W h w Hfile. simpl.
    destruct (h _ (EvMkdir _) w) as [[[]|exc] w1]; simpl; [|reflexivity].
    pose proof (Hfile w1) as Hd.
    destruct (h _ (EvIsDir _) w1) as [d w2]. simpl in Hd. subst d. simpl.
    destruct (h _ (EvMove _ _) w2) as [[[]|exc] w3]; reflexivity.
Qed.
End ToolsMore.

(** ** utils_fs: more on [normpath] and [safe_ascii] *)

Section NormpathFacts.
  Context `{UnicodeData}.
  Import utils_fs.

Lemma normpath_unfold path :
  path <> [] ->
  normpath path
  = normal_text (initial_slashes path)
      (normpath_comps (initial_slashes path) (split_on 47 path)).
Proof.
  destruct path as [|c r]; [contradiction|]. intros _.
  unfold normpath, normal_text, initial_slashes. cbv zeta.
  match goal with |- match ?E with _ => _ end = _ => destruct E end;
    reflexivity.
Qed.

Lemma initial_slashes_le path : (initial_slashes path <= 2)%nat.
Proof.
  unfold initial_slashes.
  destruct (startswith (py "/") path); [|lia].
  destruct (_ && _); lia.
Qed.

Lemma last_app_single {A} (l : list A) x d : List.last (l ++ [x]) d = x.
Proof. apply last_last. Qed.

Lemma repeat_snoc {A} (x : A) n : List.repeat x n ++ [x] = List.repeat x (S n).
Proof. induction n as [|n IH]; simpl; [reflexivity|]. rewrite IH. reflexivity. Qed.

Lemma last_repeat_dotdot n : List.last (List.repeat (py "..") (S n)) [] = py "..".
Proof. rewrite <- repeat_snoc. apply last_last. Qed.

Lemma kept_comp_tests c :
  kept_comp c ->
  pystr_eqb c [] = false /\ pystr_eqb c (py ".") = false
  /\ pystr_eqb c (py "..") = false.
Proof.
  intros (H1 & H2 & H3 & _). repeat split; apply pystr_eqb_neq; assumption.
Qed.

(** One iteration of the loop keeps the shape of the components. *)
Lemma normpath_step_normal k cs comp :
  ~ In 47 comp -> normal_comps k cs -> normal_comps k (normpath_step k cs comp).
Proof.
  intros Hsep (n & rest & -> & Hrest & Hk). unfold normpath_step.
  destruct (pystr_eqb comp []) eqn:E0; simpl.
  { exists n, rest. auto. }
  destruct (pystr_eqb comp (py ".")) eqn:E1; simpl.
  { exists n, rest. auto. }
  apply pystr_eqb_neq in E0, E1.
  destruct (pystr_eqb comp (py "..")) eqn:E2; simpl.
  2:{ apply pystr_eqb_neq in E2. exists n, (rest ++ [comp]).
      rewrite app_assoc. split; [reflexivity|]. split; [|exact Hk].
      apply Forall_app; split; [exact Hrest|].
      constructor; [|constructor]. repeat split; assumption. }
  apply pystr_eqb_eq in E2. subst comp.
  destruct rest as [|r0 rest0] using rev_ind.
  - rewrite app_nil_r. destruct n as [|n].
    + simpl. destruct (Nat.eqb k 0) eqn:Ek; simpl.
      * apply Nat.eqb_eq in Ek. exists 1%nat, []. simpl.
        split; [reflexivity|]. split; [constructor | intros Hc; contradiction].
      * exists 0%nat, []. simpl. split; [reflexivity|].
        split; [constructor | reflexivity].
    + assert (Hk0 : k = 0%nat).
      { destruct k; [reflexivity|]. discriminate Hk. discriminate. }
      subst k. rewrite last_repeat_dotdot.
      change (is_nil (List.repeat (py "..") (S n))) with false.
      rewrite pystr_eqb_refl. simpl.
      exists (S (S n)), []. rewrite app_nil_r.
      change (py ".." :: List.repeat (py "..") n ++ [py ".."])
        with (List.repeat (py "..") (S n) ++ [py ".."]).
      rewrite repeat_snoc. split; [reflexivity|].
      split; [constructor | intros Hc; contradiction].
  - clear IHrest0. apply Forall_app in Hrest as [Hrest0 Hr0].
    inversion Hr0 as [|? ? Hr _]; subst.
    destruct (kept_comp_tests _ Hr) as (_ & _ & Hdd).
    rewrite app_assoc, last_app_single, Hdd.
    assert (Hnil : is_nil ((List.repeat (py "..") n ++ rest0) ++ [r0]) = false).
    { destruct (List.repeat (py "..") n ++ rest0); reflexivity. }
    rewrite Hnil. rewrite andb_false_r, andb_false_r. simpl.
    rewrite removelast_last. exists n, rest0. auto.
Qed.

Lemma normpath_fold_normal k comps acc :
  Forall (fun c => ~ In 47 c) comps -> normal_comps k acc ->
  normal_comps k (fold_left (normpath_step k) comps acc).
Proof.
  intros Hc; revert acc. induction Hc as [|c comps Hsep Hc IH]; intros acc Ha;
    simpl; [exact Ha|].
  apply IH, normpath_step_normal; assumption.
Qed.

Lemma normpath_comps_normal k path :
  normal_comps k (normpath_comps k (split_on 47 path)).
Proof.
  unfold normpath_comps. apply normpath_fold_normal.
  - apply split_on_no_sep.
  - exists 0%nat, []. repeat split; constructor.
Qed.

(** The loop rebuilds components that are already in shape. *)
Lemma normpath_fold_names k rest acc :
  Forall kept_comp rest ->
  fold_left (normpath_step k) rest acc = acc ++ rest.
Proof.
  intros Hr; revert acc. induction Hr as [|c rest Hc Hr IH]; intros acc; simpl.
  - rewrite app_nil_r. reflexivity.
  - destruct (kept_comp_tests _ Hc) as (E0 & E1 & E2).
    unfold normpath_step at 2. rewrite E0, E1, E2. simpl.
    rewrite IH, <- app_assoc. reflexivity.
Qed.

Lemma normpath_fold_dotdots n acc :
  acc = [] \/ List.last acc [] = py ".." ->
  fold_left (normpath_step 0) (List.repeat (py "..") n) acc
  = acc ++ List.repeat (py "..") n.
Proof.
  revert acc. induction n as [|n IH]; intros acc Hacc; simpl.
  - rewrite app_nil_r. reflexivity.
  - assert (Hstep : normpath_step 0 acc (py "..") = acc ++ [py ".."]).
    { destruct Hacc as [->|Hl]; [reflexivity|].
      unfold normpath_step, pystr in *. rewrite Hl. destruct acc; reflexivity. }
    rewrite Hstep, IH by (right; apply last_app_single).
    rewrite <- app_assoc. reflexivity.
Qed.

Lemma normpath_comps_fix k cs :
  normal_comps k cs -> normpath_comps k cs = cs.
Proof.
  intros (n & rest & -> & Hrest & Hk). unfold normpath_comps.
  rewrite fold_left_app. destruct n as [|n].
  - simpl. apply normpath_fold_names. exact Hrest.
  - assert (Hk0 : k = 0%nat).
    { destruct k; [reflexivity|]. discriminate Hk. discriminate. }
    subst k. rewrite normpath_fold_dotdots by (left; reflexivity).
    apply normpath_fold_names. exact Hrest.
Qed.

Lemma normpath_fold_skip_empty k j cs acc :
  fold_left (normpath_step k) (List.repeat [] j ++ cs) acc
  = fold_left (normpath_step k) cs acc.
Proof. induction j as [|j IH]; simpl; [reflexivity | exact IH]. Qed.

Lemma split_on_slashes k s :
  split_on 47 (List.repeat 47 k ++ s) = List.repeat [] k ++ split_on 47 s.
Proof.
  induction k as [|k IH]; [reflexivity|].
  change (List.repeat 47 (S k) ++ s) with (47 :: (List.repeat 47 k ++ s)).
  rewrite split_on_cons_sep, IH. reflexivity.
Qed.

Lemma normal_comps_proper k cs : normal_comps k cs -> Forall proper_comp cs.
Proof.
  intros (n & rest & -> & Hrest & _). apply Forall_app; split.
  - apply List.Forall_forall. intros c Hin. apply repeat_spec in Hin. subst c.
    repeat split; try discriminate. intros [Hc|[Hc|[]]]; discriminate.
  - eapply Forall_impl; [exact Hrest|].
    intros c (H1 & H2 & _ & H4). repeat split; assumption.
Qed.

(** Splitting the text of a normalized path gives its components back,
    behind one empty field per leading slash. *)
Lemma normpath_resplit k cs :
  normal_comps k cs ->
  normpath_comps k (split_on 47 (List.repeat 47 k ++ join (py "/") cs)) = cs.
Proof.
  intros Hn. rewrite split_on_slashes. unfold normpath_comps.
  rewrite normpath_fold_skip_empty.
  destruct cs as [|c cs'].
  - reflexivity.
  - rewrite split_on_join; [|discriminate | apply (normal_comps_proper k), Hn].
    exact (normpath_comps_fix k (c :: cs') Hn).
Qed.

Lemma startswith_cons a pre c s :
  startswith (a :: pre) (c :: s) = (a =? c) && startswith pre s.
Proof. reflexivity. Qed.

Lemma initial_slashes_text k cs :
  (k <= 2)%nat -> Forall proper_comp cs ->
  List.repeat 47 k ++ join (py "/") cs <> [] ->
  initial_slashes (List.repeat 47 k ++ join (py "/") cs) = k.
Proof.
  intros Hk Hcs Hne. unfold initial_slashes.
  destruct cs as [|c cs'].
  - cbn [join] in *. rewrite app_nil_r in *.
    destruct k as [|[|[|k]]]; [contradiction | reflexivity | reflexivity | lia].
  - inversion Hcs as [|? ? Hc _]; subst.
    destruct (join_head c cs' Hc) as (x & r & -> & Hx).
    assert (E : (47 =? x) = false) by (apply N.eqb_neq; congruence).
    destruct k as [|[|[|k]]]; [| | |lia].
    + change (py "/") with [47]. change (List.repeat 47 0 ++ x :: r) with (x :: r).
      rewrite startswith_cons, E. reflexivity.
    + change (py "/") with [47]. change (py "//") with [47; 47].
      change (List.repeat 47 1 ++ x :: r) with (47 :: x :: r).
      rewrite !startswith_cons, E, N.eqb_refl. reflexivity.
    + change (py "/") with [47]. change (py "//") with [47; 47].
      change (py "///") with [47; 47; 47].
      change (List.repeat 47 2 ++ x :: r) with (47 :: 47 :: x :: r).
      rewrite !startswith_cons, E, N.eqb_refl. reflexivity.
Qed.

Lemma normpath_not_nil path : normpath path <> [].
Proof.
  destruct path as [|c0 path0] eqn:Ep; [discriminate|].
  rewrite <- Ep. assert (Hne : path <> []) by (subst; discriminate).
  rewrite (normpath_unfold path Hne). unfold normal_text.
  destruct (List.repeat 47 _ ++ join (py "/") _); discriminate.
Qed.

(** X2.  [os.path.normpath] as [fs_norm_path] uses it.  The result is
    never empty: it is a dot, or the leading slashes of the path (one, or
    two when the path starts with exactly two) followed by components
    joined by single slashes; the components are names, behind leading
    double dots that only a relative path can keep.  Normalizing a
    normalized path changes nothing. *)
Theorem normpath_normal_form path :
  (exists cs,
     normal_comps (initial_slashes path) cs
     /\ normpath path = normal_text (initial_slashes path) cs)
  /\ normpath path <> []
  /\ normpath (normpath path) = normpath path.
Proof.
  destruct path as [|c0 path0] eqn:Ep.
  { split; [|split; [discriminate | reflexivity]].
    exists []. split; [|reflexivity].
    exists 0%nat, []. repeat split; constructor. }
  rewrite <- Ep. assert (Hne : path <> []) by (subst; discriminate).
  clear Ep c0 path0.
  set (k := initial_slashes path).
  pose proof (initial_slashes_le path) as Hk. fold k in Hk.
  pose proof (normpath_comps_normal k path) as Hn.
  set (cs := normpath_comps k (split_on 47 path)) in *.
  rewrite (normpath_unfold path Hne). fold k cs.
  assert (Hout : normal_text k cs <> []).
  { unfold normal_text. destruct (List.repeat 47 k ++ join (py "/") cs);
      discriminate. }
  split; [exists cs; split; [exact Hn | reflexivity]|].
  split; [exact Hout|].
  unfold normal_text in *.
  destruct (List.repeat 47 k ++ join (py "/") cs) as [|x text] eqn:Et;
    [reflexivity|].
  rewrite <- Et. rewrite normpath_unfold by (rewrite Et; discriminate).
  rewrite initial_slashes_text;
    [| exact Hk | apply (normal_comps_proper k), Hn | rewrite Et; discriminate].
  rewrite (normpath_resplit k cs Hn). unfold normal_text. rewrite Et.
  reflexivity.
Qed.
End NormpathFacts.

Section SafeAsciiAlphabet.
  Context `{UnicodeData} `{Unidecode}.
  Import utils_fs.

(** The contract of the [unidecode] package: its output is ASCII. *)
Hypothesis table_ascii :
  forall c, Forall (fun x => is_ascii x = true) (unidecode_table c).

Lemma collapsed_no_adjacent cls c0 s :
  forall b pre x y post,
    sub_runs cls [c0] b s = s ->
    s = pre ++ x :: y :: post ->
    cls x = true -> cls y = true -> False.
Proof.
  induction s as [|c r IH]; intros b pre x y post Hfix Hs Hx Hy.
  { destruct pre; discriminate. }
  simpl in Hfix. destruct (cls c) eqn:Ec.
  - destruct b.
    + pose proof (sub_runs_length cls c0 true r) as Hlen.
      rewrite Hfix in Hlen. simpl in Hlen. lia.
    + simpl in Hfix. injection Hfix as _ Hfix.
      pose proof (sub_runs_fix_head cls c0 r Hfix) as Hhd.
      destruct pre as [|p pre'].
      * simpl in Hs. injection Hs as -> ->. simpl in Hhd. congruence.
      * simpl in Hs. injection Hs as _ Hs.
        exact (IH true pre' x y post Hfix Hs Hx Hy).
  - injection Hfix as Hfix. destruct pre as [|p pre'].
    + simpl in Hs. injection Hs as -> _. congruence.
    + simpl in Hs. injection Hs as _ Hs.
      exact (IH false pre' x y post Hfix Hs Hx Hy).
Qed.

Lemma sanitized_unnamed : sanitized (py "unnamed").
Proof.
  split; [repeat constructor | repeat constructor | reflexivity | reflexivity].
Qed.

Lemma safe_ascii_sanitized s : sanitized (safe_ascii s).
Proof.
  pose proof (safe_ascii_body_sanitized table_ascii s) as Hsan.
  unfold safe_ascii.
  destruct (strip (sub_runs py_isspace (py " ") false
              (strip (sub_runs unsafe_char (py "_") false (unidecode s)))));
    [apply sanitized_unnamed | exact Hsan].
Qed.

(** X1.  What [safe_ascii] returns is made of ASCII letters and digits
    and the characters [_.-() ] only (so it holds no path separator, no
    control character and no NUL), has no blank at either end, and no two
    blanks in a row.  The one assumption is the contract of the
    transliteration table (it yields ASCII). *)
Theorem safe_ascii_alphabet s :
  Forall (fun c => ascii_alnum c = true \/ In c (py "_.-() "))
         (safe_ascii s)
  /\ strip (safe_ascii s) = safe_ascii s
  /\ ~ substring (py "  ") (safe_ascii s).
Proof.
  destruct (safe_ascii_sanitized s) as [Ha Hs Hst Hc].
  split; [|split; [exact Hst|]].
  - rewrite List.Forall_forall in Ha, Hs. apply List.Forall_forall.
    intros c Hin. specialize (Ha c Hin). specialize (Hs c Hin).
    unfold unsafe_char, re_word in Hs. rewrite Ha in Hs.
    apply negb_false_iff in Hs.
    destruct (ascii_alnum c); [left; reflexivity|]. right.
    repeat (apply orb_true_iff in Hs as [Hs|Hs]);
      try discriminate; apply N.eqb_eq in Hs; subst c; simpl; tauto.
  - intros (pre & post & Hsub).
    exact (collapsed_no_adjacent py_isspace 32 (safe_ascii s) false pre
             32 32 post Hc Hsub eq_refl eq_refl).
Qed.
End SafeAsciiAlphabet.

Lemma safe_ascii_alphabet_witness :
  Forall (fun c => ascii_alnum c = true \/ In c (py "_.-() "))
         (@utils_fs.safe_ascii plain_unicode dropping_unidecode
            (py "  my/file  name?.txt "))
  /\ strip (@utils_fs.safe_ascii plain_unicode dropping_unidecode
              (py "  my/file  name?.txt "))
     = @utils_fs.safe_ascii plain_unicode dropping_unidecode
         (py "  my/file  name?.txt ")
  /\ ~ substring (py "  ")
         (@utils_fs.safe_ascii plain_unicode dropping_unidecode
            (py "  my/file  name?.txt ")).
Proof.
  apply (@safe_ascii_alphabet plain_unicode dropping_unidecode).
  intros c. constructor.
Defined.

(** ** actions: more on the sanitizer *)

Section ActionsMore.
  Context `{UnicodeData} `{Unidecode} `{Config}.
  Import actions.

Lemma strip_comps_app base rel : strip_comps base (base ++ rel) = Some rel.
Proof.
  induction base as [|b base IH]; simpl; [reflexivity|].
  rewrite pystr_eqb_refl. exact IH.
Qed.

Lemma rstrip_snoc_keep p s c :
  p c = false -> rstrip_by p (s ++ [c]) = s ++ [c].
Proof.
  intros Hc. induction s as [|x s IH]; simpl.
  - rewrite Hc. reflexivity.
  - rewrite IH. destruct (s ++ [c]) eqn:E; [|reflexivity].
    destruct s; discriminate.
Qed.

Lemma join_snoc sep cs c :
  cs <> [] -> join sep (cs ++ [c]) = join sep cs ++ sep ++ c.
Proof.
  induction cs as [|a cs IH]; intros Hne; [contradiction|].
  destruct cs as [|b cs'].
  - simpl. reflexivity.
  - change (join sep ((a :: b :: cs') ++ [c]))
      with (a ++ sep ++ join sep ((b :: cs') ++ [c])).
    rewrite IH by discriminate.
    change (join sep (a :: b :: cs')) with (a ++ sep ++ join sep (b :: cs')).
    rewrite <- !app_assoc. reflexivity.
Qed.

Lemma proper_comp_last c :
  proper_comp c -> exists body x, c = body ++ [x] /\ x <> 47.
Proof.
  intros (Hne & _ & Hsep).
  destruct (exists_last Hne) as (body & x & ->).
  exists body, x. split; [reflexivity|]. intros ->.
  apply Hsep. apply in_or_app. right. left. reflexivity.
Qed.

(** The text of a relative path has no slash at either end. *)
Lemma strip_slashes_join dirs :
  dirs <> [] -> Forall proper_comp dirs ->
  strip_chars (py "/") (join (py "/") dirs) = join (py "/") dirs.
Proof.
  intros Hne Hp. unfold strip_chars, strip_by.
  assert (Hhd : exists x r, join (py "/") dirs = x :: r /\ x <> 47).
  { destruct dirs as [|c cs]; [contradiction|].
    inversion Hp; subst. apply join_head. assumption. }
  destruct Hhd as (x & r & Ej & Hx).
  rewrite lstrip_id.
  2:{ rewrite Ej. simpl. rewrite orb_false_r. apply N.eqb_neq. exact Hx. }
  destruct (exists_last Hne) as (cs & c & ->).
  apply Forall_app in Hp as [_ Hc]. inversion Hc as [|? ? Hc' _]; subst.
  destruct (proper_comp_last c Hc') as (body & y & -> & Hy).
  assert (Ey : existsb (N.eqb y) (py "/") = false).
  { simpl. rewrite orb_false_r. apply N.eqb_neq. exact Hy. }
  destruct cs as [|c0 cs'].
  - simpl. apply rstrip_snoc_keep. exact Ey.
  - rewrite join_snoc by discriminate. rewrite !app_assoc.
    apply rstrip_snoc_keep. exact Ey.
Qed.

Lemma Forall_removelast {A} (P : A -> Prop) l :
  Forall P l -> Forall P (removelast l).
Proof.
  induction 1 as [|x l Hx Hl IH]; simpl; [constructor|].
  destruct l; [constructor | constructor; assumption].
Qed.

Lemma derived_subpath_not_nil src : derived_subpath src <> [].
Proof.
  unfold derived_subpath.
  destruct (pystr_eqb _ _); [|discriminate].
  destruct (strip_comps _ _); [|discriminate].
  destruct (strip_chars _ _) eqn:E; simpl; [discriminate | discriminate].
Qed.

(** X10.  The subpath derived for a move that names none.  It is never
    empty.  For a source below the inbox it is the directory of the source
    relative to the inbox, and a single dot when the source sits directly
    in the inbox (or is the inbox); [Unsorted] is what a source outside
    the inbox gets.  [tool_plan_move] turns the single dot into the
    directory [_] of the root. *)
Theorem derived_subpath_cases src :
  derived_subpath src <> []
  /\ (forall rel,
        anchor (path_of_str src) = anchor INBOX ->
        comps (path_of_str src) = comps INBOX ++ rel ->
        derived_subpath src
        = match removelast rel with
          | [] => py "."
          | dirs => join (py "/") dirs
          end)
  /\ (anchor (path_of_str src) <> anchor INBOX
      \/ strip_comps (comps INBOX) (comps (path_of_str src)) = None ->
      derived_subpath src = py "Unsorted")
  /\ forall base,
       tools.plan_move_dest_dir base (py ".") = joinpath base (py "_").
Proof.
  split; [|split; [|split]].
  - apply derived_subpath_not_nil.
  - intros rel Ha Hc. unfold derived_subpath.
    rewrite Ha, pystr_eqb_refl, Hc, strip_comps_app.
    assert (Hrel : Forall proper_comp (removelast rel)).
    { apply Forall_removelast.
      destruct (path_of_str_proper src) as [_ Hp]. rewrite Hc in Hp.
      apply Forall_app in Hp as [_ Hp]. exact Hp. }
    destruct (removelast rel) as [|d dirs] eqn:Er; [reflexivity|].
    unfold path_str. cbn [anchor comps app].
    rewrite strip_slashes_join by (discriminate || exact Hrel).
    destruct (join (py "/") (d :: dirs)) eqn:Ej; [|reflexivity].
    inversion Hrel as [|? ? Hd _]; subst.
    destruct (join_head d dirs Hd) as (x & r & Ex & _). congruence.
  - intros [Ha|Hc]; unfold derived_subpath.
    + apply pystr_eqb_neq in Ha. rewrite Ha. reflexivity.
    + rewrite Hc. destruct (pystr_eqb _ _); reflexivity.
  - intros base. reflexivity.
Qed.

Lemma fs_norm_path_not_nil p : utils_fs.fs_norm_path p <> [].
Proof.
  unfold utils_fs.fs_norm_path.
  apply normpath_not_nil.
Qed.

Lemma get_or_truthy d key default :
  truthy default = true -> truthy (get_or d key default) = true.
Proof.
  intros Hd. unfold get_or. destruct (dict_get key d) as [v|]; [|exact Hd].
  destruct (truthy v) eqn:E; [exact E | exact Hd].
Qed.

(** What [normalize_plan_move] returns when it returns: nothing, or a
    record of the five fields whose root is allowed and whose subpath is
    not empty. *)
Lemma normalize_plan_move_shape action current_path allowed_labels
      normalized notes :
  normalize_plan_move action current_path allowed_labels
  = Ok (normalized, notes) ->
  normalized = []
  \/ exists src root subpath filename,
       normalized = [(py "tool", JStr (py "plan_move"));
                     (py "src", JStr (utils_fs.fs_norm_path src));
                     (py "destination_root", JStr root);
                     (py "subpath", JStr subpath);
                     (py "filename", JStr (utils_fs.safe_ascii filename))]
       /\ subpath <> []
       /\ str_in (_norm_key root) (List.map _norm_key allowed_labels) = true.
Proof.
  unfold normalize_plan_move.
  destruct (as_str (get_or action (py "src") (JStr current_path)))
    as [src|e]; cbn [fmap mbind res_fmap res_bind]; [|discriminate].
  destruct (as_str (get_or action (py "destination_root") (JStr [])))
    as [raw_root|e]; cbn [fmap mbind res_fmap res_bind]; [|discriminate].
  destruct (as_str (get_or action (py "subpath") (JStr [])))
    as [sub|e]; cbn [fmap mbind res_fmap res_bind]; [|discriminate].
  destruct (as_str (get_or action (py "filename") _))
    as [fname|e]; cbn [fmap mbind res_fmap res_bind]; [|discriminate].
  cbv zeta.
  destruct (_auto_split_root _ root_alias_map) as [[root extra] changed].
  destruct (negb (str_in (_norm_key root) _)) eqn:Eallowed.
  { intros [= <- _]. left. reflexivity. }
  apply negb_false_iff in Eallowed.
  intros [= <- _]. right. eexists _, root, _, _.
  split; [reflexivity|]. split; [|exact Eallowed].
  match goal with |- (if is_nil ?sp then _ else _) <> [] =>
    destruct sp eqn:Esp; simpl end; [|discriminate].
  apply derived_subpath_not_nil.
Qed.

Lemma str_in_cases x l : str_in x l = true -> In x l.
Proof.
  unfold str_in. intros Hx. apply existsb_exists in Hx as (y & Hin & Hy).
  apply pystr_eqb_eq in Hy. subst. exact Hin.
Qed.

(** One raw action: what [sanitize_one] hands on is well formed, and it
    either hands on one action or logs one record. *)
Lemma sanitize_one_result raw_action current_path allowed_labels out logged :
  current_path <> [] ->
  sanitize_one raw_action current_path allowed_labels = Ok (out, logged) ->
  Forall (fun a => read_action a \/ move_action allowed_labels a) out
  /\ Forall (fun r => ~ empty_subpath_record r) logged
  /\ ((length out = 1 /\ length logged <= 1)%nat
      \/ (out = [] /\ length logged = 1%nat)).
Proof.
  intros Hcp. unfold sanitize_one.
  destruct raw_action as [| | | | |items|raw];
    try (intros [= <- <-]; split; [constructor|];
         split; [repeat constructor; discriminate | right; split; reflexivity]).
  destruct (as_str (get_or raw (py "tool") (JStr []))) as [tool|e];
    cbn [fmap mbind res_fmap res_bind]; [|discriminate].
  destruct (negb (str_in (strip tool) _)) eqn:Eknown.
  { intros [= <- <-]. split; [constructor|].
    split; [repeat constructor; discriminate | right; split; reflexivity]. }
  destruct (str_in (strip tool) [py "list_dir"; py "inspect_file"]) eqn:Eread.
  { intros [= <- <-]. split; [|split; [constructor | left; split; simpl; lia]].
    constructor; [|constructor]. left. eexists _, _.
    split; [reflexivity|]. split.
    - apply str_in_cases in Eread.
      destruct Eread as [E|[E|[]]]; [left | right]; symmetry; exact E.
    - apply get_or_truthy. destruct current_path; [contradiction|reflexivity]. }
  destruct (normalize_plan_move raw current_path allowed_labels)
    as [[normalized notes]|e] eqn:En; cbn [mbind res_bind]; [|discriminate].
  destruct (normalize_plan_move_shape _ _ _ _ _ En)
    as [->|(src & root & subpath & filename & -> & Hsub & Hroot)].
  { intros [= <- <-]. split; [constructor|].
    split; [repeat constructor; discriminate | right; split; reflexivity]. }
  assert (Esrc : truthy (get_or
                   [(py "tool", JStr (py "plan_move"));
                    (py "src", JStr (utils_fs.fs_norm_path src));
                    (py "destination_root", JStr root);
                    (py "subpath", JStr subpath);
                    (py "filename", JStr (utils_fs.safe_ascii filename))]
                   (py "src") JNull) = true).
  { pose proof (fs_norm_path_not_nil src) as Hne.
    change (get_or _ (py "src") JNull)
      with (if truthy (JStr (utils_fs.fs_norm_path src))
            then JStr (utils_fs.fs_norm_path src) else JNull).
    simpl. destruct (utils_fs.fs_norm_path src); [contradiction|reflexivity]. }
  rewrite Esrc.
  change (get_or _ (py "destination_root") JNull)
    with (if truthy (JStr root) then JStr root else JNull).
  change (get_or _ (py "subpath") JNull)
    with (if truthy (JStr subpath) then JStr subpath else JNull).
  destruct root as [|r0 root'].
  { intros [= <- <-]. split; [constructor|].
    split; [repeat constructor; discriminate | right; split; reflexivity]. }
  destruct subpath as [|s0 subpath']; [contradiction|].
  cbn [truthy is_nil negb andb].
  intros [= <- <-]. split; [|split].
  - constructor; [|constructor]. right. eexists _, _, _, _.
    split; [reflexivity|]. repeat split; try discriminate. exact Hroot.
  - destruct (negb (is_nil notes)); repeat constructor. discriminate.
  - left. split; [reflexivity|]. destruct (negb (is_nil notes)); simpl; lia.
Qed.

Lemma sanitize_loop_result raw_actions current_path allowed_labels :
  current_path <> [] ->
  forall sane0 logs0 sane logs,
    sanitize_loop raw_actions current_path allowed_labels sane0 logs0
    = Ok (sane, logs) ->
    exists out logged,
      sane = sane0 ++ out /\ logs = logs0 ++ logged
      /\ Forall (fun a => read_action a \/ move_action allowed_labels a) out
      /\ Forall (fun r => ~ empty_subpath_record r) logged
      /\ (length out <= length raw_actions)%nat
      /\ (length logged <= length raw_actions)%nat
      /\ (length raw_actions <= length out + length logged)%nat.
Proof.
  intros Hcp. induction raw_actions as [|raw rest IH];
    intros sane0 logs0 sane logs; cbn [sanitize_loop].
  - intros [= <- <-]. exists [], []. rewrite !app_nil_r.
    repeat split; try constructor.
  - destruct (sanitize_one raw current_path allowed_labels)
      as [[out1 logged1]|e] eqn:E1; cbn [mbind res_bind]; [|discriminate].
    intros Hloop.
    destruct (sanitize_one_result _ _ _ _ _ Hcp E1) as (Ho & Hl & Hcount).
    destruct (IH _ _ _ _ Hloop)
      as (out & logged & -> & -> & Ho' & Hl' & Hn1 & Hn2 & Hn3).
    exists (out1 ++ out), (logged1 ++ logged). rewrite !app_assoc.
    split; [reflexivity|]. split; [reflexivity|].
    split; [apply Forall_app; split; assumption|].
    split; [apply Forall_app; split; assumption|].
    rewrite !length_app. simpl.
    destruct Hcount as [[Ha Hb]|[-> Hb]]; simpl; lia.
Qed.

(** X11.  Whatever the model proposed, every action that
    [sanitize_actions] returns is well formed: a [list_dir] or
    [inspect_file] with a path, or a [plan_move] with a normalized source,
    a root that is one of the allowed labels up to case and surrounding
    blanks and slashes, a subpath that is not empty and a sanitized file
    name.  And no move is ever dropped for an empty subpath: the record
    [empty_subpath] is never logged. *)
Theorem sanitize_actions_well_formed actions current_path allowed_labels
        sane logs :
  sanitize_actions actions current_path allowed_labels = Ok (sane, logs) ->
  Forall (fun a => read_action a \/ move_action allowed_labels a) sane
  /\ Forall (fun r => ~ empty_subpath_record r) logs.
Proof.
  unfold sanitize_actions.
  destruct (if truthy actions then py_iter actions else mret [])
    as [raw_actions|e]; cbn [mbind res_bind]; [|discriminate].
  intros Hloop.
  destruct (sanitize_loop_result raw_actions _ allowed_labels
              (fs_norm_path_not_nil current_path) _ _ _ _ Hloop)
    as (out & logged & -> & -> & Ho & Hl & _).
  split; assumption.
Qed.




End ActionsMore.

Lemma sanitize_actions_well_formed_witness :
  exists sane logs,
    @actions.sanitize_actions plain_unicode dropping_unidecode home_u
      mixed_actions (py "/home/u/_Vault/INBOX/x/a.pdf")
      [py "Documents"; py "Media"; py "Projects"] = Ok (sane, logs)
    /\ Forall (fun a => read_action a
                        \/ @move_action plain_unicode dropping_unidecode
                             [py "Documents"; py "Media"; py "Projects"] a)
              sane
    /\ Forall (fun r => ~ empty_subpath_record r) logs.
Proof.
  eexists _, _. split; [vm_compute; reflexivity|].
  apply (@sanitize_actions_well_formed plain_unicode dropping_unidecode home_u
           mixed_actions (py "/home/u/_Vault/INBOX/x/a.pdf")
           [py "Documents"; py "Media"; py "Projects"]).
  vm_compute. reflexivity.
Defined.


(** ** agent: more on the cohesion tracker *)

Section CohesionMore.
  Context `{UnicodeData}.
  Import cohesion.

Lemma counter_incr_total {K} `{EqDecision K} (key : K) c :
  counter_total (counter_incr key c) = S (counter_total c).
Proof.
  unfold counter_total. induction c as [|[k' n] c IH]; simpl; [reflexivity|].
  destruct (decide (key = k')); simpl; [reflexivity|].
  rewrite IH. lia.
Qed.

Lemma counted_fresh : counted fresh_entry.
Proof. repeat split. Qed.

(** A vote keeps the tallies of every entry in agreement, and the entry it
    touches counts at least one file afterwards. *)
Lemma note_counted self parent f root sub :
  (forall key s, stats self !! key = Some s -> counted s /\ (0 < total s)%nat) ->
  forall key s,
    stats (note self parent f root sub) !! key = Some s ->
    counted s /\ (0 < total s)%nat.
Proof.
  intros Hinv key s. unfold note. cbn [stats].
  destruct (decide (path_str parent = key)) as [<-|Hne].
  2:{ rewrite lookup_insert_ne by exact Hne. apply Hinv. }
  rewrite lookup_insert_eq. intros [= <-].
  assert (Hold : counted (default fresh_entry (stats self !! path_str parent))
                 /\ (fresh_entry = default fresh_entry
                                     (stats self !! path_str parent)
                     \/ (0 < total (default fresh_entry
                                      (stats self !! path_str parent)))%nat)).
  { destruct (stats self !! path_str parent) as [s0|] eqn:E; simpl.
    - destruct (Hinv _ _ E). auto.
    - split; [apply counted_fresh | left; reflexivity]. }
  destruct Hold as [(Hv & He & Hs) Hpos].
  set (s0 := default fresh_entry (stats self !! path_str parent)) in *.
  destruct (decide (path_str f ∈ seen s0)) as [Hin|Hnin].
  - split; [repeat split; assumption|].
    destruct Hpos as [Hf|Hp]; [|exact Hp].
    rewrite <- Hf in Hin. exfalso. exact (not_elem_of_empty _ Hin).
  - split; [|simpl; lia]. repeat split; cbn [votes exts seen total].
    + rewrite counter_incr_total, Hv. reflexivity.
    + rewrite counter_incr_total, He. reflexivity.
    + rewrite size_union, size_singleton, Hs; [reflexivity|].
      intros x Hx Hx'. apply elem_of_singleton in Hx. subst x. exact (Hnin Hx').
Qed.

Lemma ops_counted k_threshold purity_min max_children_cap ops :
  forall key s,
    stats (fold_left apply_op ops
             (new_tracker k_threshold purity_min max_children_cap)) !! key
    = Some s ->
    counted s /\ (0 < total s)%nat.
Proof.
  induction ops as [|op ops IH] using rev_ind.
  - intros key s. simpl. rewrite lookup_empty. discriminate.
  - rewrite fold_left_app. cbn [fold_left]. destruct op; cbn [apply_op].
    + apply note_counted. exact IH.
    + exact IH.
Qed.

Lemma most_common_fold {K} (c : list (K * nat)) (b : K * nat) :
  exists m,
    fold_left
      (fun best kv =>
         match best with
         | None => Some kv
         | Some b => if (snd b <? snd kv)%nat then Some kv else best
         end) c (Some b) = Some m
    /\ Forall (fun kv => (snd kv <= snd m)%nat) c
    /\ ((m = b)
        \/ (snd b < snd m)%nat
           /\ exists pre post,
                c = pre ++ m :: post
                /\ Forall (fun kv => (snd kv < snd m)%nat) pre).
Proof.
  revert b. induction c as [|x c IH]; intros b; simpl.
  - exists b. split; [reflexivity|]. split; [constructor | left; reflexivity].
  - destruct (snd b <? snd x)%nat eqn:E.
    + apply Nat.ltb_lt in E. destruct (IH x) as (m & Hm & Hall & Hcase).
      exists m. split; [exact Hm|].
      assert (Hxm : (snd x <= snd m)%nat).
      { destruct Hcase as [->|[Hlt _]]; lia. }
      split; [constructor; assumption|]. right. split; [lia|].
      destruct Hcase as [->|[Hlt (pre & post & -> & Hpre)]].
      * exists [], c. split; [reflexivity | constructor].
      * exists (x :: pre), post. split; [reflexivity|].
        constructor; [exact Hlt | exact Hpre].
    + apply Nat.ltb_ge in E. destruct (IH b) as (m & Hm & Hall & Hcase).
      exists m. split; [exact Hm|].
      assert (Hbm : (snd b <= snd m)%nat).
      { destruct Hcase as [->|[Hlt _]]; lia. }
      split; [constructor; [lia | exact Hall]|].
      destruct Hcase as [->|[Hlt (pre & post & -> & Hpre)]];
        [left; reflexivity|].
      right. split; [exact Hlt|].
      exists (x :: pre), post. split; [reflexivity|].
      constructor; [lia | exact Hpre].
Qed.

(** [most_common(1)] gives the first entry with the largest count, and
    nothing only for the empty counter. *)
Lemma most_common_1_first {K} (c : list (K * nat)) :
  match most_common_1 c with
  | Some (d, n) => first_maximum c d n
  | None => c = []
  end.
Proof.
  destruct c as [|x c]; [reflexivity|].
  unfold most_common_1. cbn [fold_left].
  destruct (most_common_fold c x) as (m & -> & Hall & Hcase).
  destruct m as [d n]. simpl in *.
  destruct Hcase as [<-|[Hlt (pre & post & -> & Hpre)]].
  - exists [], c. split; [reflexivity|]. split; [constructor | exact Hall].
  - exists (x :: pre), post. split; [reflexivity|].
    split; [constructor; assumption|].
    apply Forall_app in Hall as [_ Hall]. inversion Hall; assumption.
Qed.

(** X14.  The tallies of the tracker.  After any sequence of votes and
    markings on a new tracker, every entry counts at least one file, and
    its vote total, the sum of its vote counts, the sum of its extension
    counts and the number of files seen are one and the same number.
    Hence [consensus] never raises: the most common pair exists and no
    quotient has a zero divisor. *)
Theorem tracker_tallies_agree k_threshold purity_min max_children_cap ops
        parent :
  let self := fold_left apply_op ops
                (new_tracker k_threshold purity_min max_children_cap) in
  (forall key s,
     stats self !! key = Some s ->
     (0 < total s)%nat
     /\ counter_total (votes s) = total s
     /\ counter_total (exts s) = total s
     /\ size (seen s) = total s)
  /\ returns_with (fun _ => True) (consensus self parent).
Proof.
  intros self. split.
  - intros key s Hs.
    destruct (ops_counted _ _ _ ops key s Hs) as [(Hv & He & Hn) Hp].
    auto.
  - unfold consensus. destruct (decide _); [constructor; exact I|].
    destruct (stats self !! path_str parent) as [s|] eqn:Es;
      [|constructor; exact I].
    destruct (ops_counted _ _ _ ops _ s Es) as [(Hv & _ & _) Hp].
    destruct (total s <? k self)%nat; [constructor; exact I|].
    pose proof (most_common_1_first (votes s)) as Hmc.
    destruct (most_common_1 (votes s)) as [[dest cnt]|].
    2:{ rewrite Hmc in Hv. simpl in Hv.
        change (counter_total []) with 0%nat in Hv. lia. }
    destruct (Nat.eqb (total s) 0) eqn:E0; [apply Nat.eqb_eq in E0; lia|].
    destruct (Rlt_dec _ _); [constructor; exact I|].
    destruct (Rlt_dec _ _); [constructor; exact I|].
    constructor. intros [names|exc]; [|constructor; exact I].
    destruct (_ <? _)%nat; constructor; exact I.
Qed.

(** X15.  A file votes once.  Recording a vote for a file that has
    already voted for its parent changes nothing, whatever destination
    the second vote names. *)
Theorem note_counts_a_file_once self parent f root sub root' sub' :
  note (note self parent f root sub) parent f root' sub'
  = note self parent f root sub.
Proof.
  set (once := note self parent f root sub).
  assert (Hseen : exists s1, stats once !! path_str parent = Some s1
                             /\ path_str f ∈ seen s1).
  { unfold once, note. cbn [stats]. rewrite lookup_insert_eq.
    eexists. split; [reflexivity|].
    destruct (decide _) as [Hin|Hnin]; [exact Hin|].
    cbn [seen]. apply elem_of_union. left. apply elem_of_singleton.
    reflexivity. }
  destruct Hseen as (s1 & Hs1 & Hin).
  unfold note at 1. cbv zeta. rewrite Hs1.
  change (default fresh_entry (Some s1)) with s1.
  destruct (decide (path_str f ∈ seen s1)) as [_|Hn]; [|contradiction].
  rewrite (insert_id _ _ _ Hs1). destruct once. reflexivity.
Qed.

End CohesionMore.


Section EntropyBounds.
  Import cohesion.
  Local Open Scope R_scope.

Lemma ln_le_minus_1 x : 0 < x -> ln x <= x - 1.
Proof.
  intros Hx. pose proof (exp_ineq1_le (ln x)) as Hexp.
  rewrite exp_ln in Hexp by exact Hx. lra.
Qed.

Lemma list_sum_member c cs : In c cs -> (c <= list_sum cs)%nat.
Proof.
  induction cs as [|x cs IH]; intros Hin; [contradiction|].
  simpl. destruct Hin as [->|Hin]; [lia|]. specialize (IH Hin). lia.
Qed.

(** Gibbs' inequality over the counts [cs], for a total [T] and a number
    of classes [N] given as reals. *)
Lemma weighted_logs_lower (T N : R) (cs : list nat) :
  0 < T -> 0 < N ->
  Forall (fun c => (0 < c)%nat) cs ->
  INR (list_sum cs) * (ln T - ln N) - weighted_logs cs
  <= INR (length cs) * (T / N) - INR (list_sum cs).
Proof.
  intros HT HN Hcs. unfold weighted_logs.
  induction Hcs as [|c cs Hc Hcs IH].
  - simpl. lra.
  - change (list_sum (c :: cs)) with (c + list_sum cs)%nat.
    change (length (c :: cs)) with (S (length cs)).
    cbn [List.map fold_right]. rewrite plus_INR, S_INR.
    assert (Hpc : 0 < INR c) by (apply lt_0_INR; exact Hc).
    assert (Hx : 0 < T / (N * INR c)).
    { apply Rdiv_lt_0_compat; [exact HT | apply Rmult_lt_0_compat; assumption]. }
    pose proof (ln_le_minus_1 _ Hx) as Hln.
    rewrite ln_ratio in Hln;
      [| exact HT | apply Rmult_lt_0_compat; assumption].
    rewrite ln_mult in Hln by assumption.
    assert (Hterm : INR c * (ln T - ln N) - INR c * ln (INR c)
                    <= T / N - INR c).
    { apply (Rmult_le_compat_l (INR c)) in Hln; [|lra].
      replace (INR c * (T / (N * INR c) - 1)) with (T / N - INR c) in Hln
        by (field; lra).
      lra. }
    lra.
Qed.

Lemma weighted_logs_upper (T : R) (cs : list nat) :
  Forall (fun c => (0 < c)%nat) cs ->
  (forall c, In c cs -> INR c <= T) ->
  weighted_logs cs <= INR (list_sum cs) * ln T.
Proof.
  intros Hcs Hle. unfold weighted_logs.
  induction Hcs as [|c cs Hc Hcs IH].
  - simpl. lra.
  - change (list_sum (c :: cs)) with (c + list_sum cs)%nat.
    cbn [List.map fold_right]. rewrite plus_INR.
    assert (Hpc : 0 < INR c) by (apply lt_0_INR; exact Hc).
    assert (HcT : INR c <= T) by (apply Hle; left; reflexivity).
    assert (Hln : ln (INR c) <= ln T).
    { destruct (Rle_lt_or_eq_dec _ _ HcT) as [Hlt| ->]; [|lra].
      left. apply ln_increasing; assumption. }
    assert (IH' : fold_right Rplus 0
                    (List.map (fun c0 => INR c0 * ln (INR c0)) cs)
                  <= INR (list_sum cs) * ln T).
    { apply IH. intros c' Hin. apply Hle. right. exact Hin. }
    apply (Rmult_le_compat_l (INR c)) in Hln; [|lra]. lra.
Qed.

(** X17.  The entropy that [consensus] computes over the extension
    histogram is never negative and never more than the binary logarithm
    of the number of distinct extensions counted.  So a parent whose
    counted files have one or two distinct extensions always passes the
    entropy test. *)
Theorem entropy_bounds (exts : list (pystr * nat)) :
  0 <= entropy exts
  /\ ((0 < length (nonzero_counts exts))%nat ->
      entropy exts <= log2 (INR (length (nonzero_counts exts))))
  /\ ((length (nonzero_counts exts) <= 2)%nat -> entropy exts <= 1).
Proof.
  pose proof (nonzero_counts_pos exts) as Hpos.
  pose proof (nonzero_counts_sum exts) as Hsum.
  pose proof ln_2_pos as H2.
  assert (Hempty : nonzero_counts exts = [] -> entropy exts = 0).
  { intros Hnil. unfold entropy. fold (nonzero_counts exts).
    rewrite Hnil. simpl. lra. }
  assert (Hmain : nonzero_counts exts <> [] ->
                  0 <= entropy exts
                  /\ entropy exts
                     <= log2 (INR (length (nonzero_counts exts)))).
  { intros Hne. unfold entropy. fold (nonzero_counts exts).
    set (cs := nonzero_counts exts) in *.
    assert (Ht : (0 < counter_total exts)%nat).
    { rewrite <- Hsum. destruct cs as [|c cs']; [contradiction|].
      inversion Hpos; subst. simpl. lia. }
    set (T := INR (counter_total exts)).
    assert (HT : 0 < T) by (apply lt_0_INR; exact Ht).
    assert (HN : 0 < INR (length cs)).
    { apply lt_0_INR. destruct cs; [contradiction | simpl; lia]. }
    rewrite (share_logs T cs HT Hpos), Hsum. fold T.
    pose proof (weighted_logs_lower T (INR (length cs)) cs HT HN Hpos) as Hlo.
    rewrite Hsum in Hlo. fold T in Hlo.
    replace (INR (length cs) * (T / INR (length cs)) - T) with 0 in Hlo
      by (field; lra).
    assert (Hup : weighted_logs cs <= T * ln T).
    { pose proof (weighted_logs_upper T cs Hpos) as Hup.
      rewrite Hsum in Hup. apply Hup. intros c Hin.
      apply le_INR. rewrite <- Hsum. apply list_sum_member. exact Hin. }
    assert (HD : 0 < T * ln 2) by (apply Rmult_lt_0_compat; assumption).
    split.
    - replace (- ((weighted_logs cs - T * ln T) / (T * ln 2)))
        with ((T * ln T - weighted_logs cs) / (T * ln 2)) by (field; lra).
      unfold Rdiv. apply Rmult_le_pos; [lra|].
      left. apply Rinv_0_lt_compat. exact HD.
    - unfold log2.
      replace (- ((weighted_logs cs - T * ln T) / (T * ln 2)))
        with ((T * ln T - weighted_logs cs) / T / ln 2) by (field; lra).
      apply Rmult_le_compat_r; [left; apply Rinv_0_lt_compat; exact H2|].
      apply (Rmult_le_reg_l T); [exact HT|].
      replace (T * ((T * ln T - weighted_logs cs) / T))
        with (T * ln T - weighted_logs cs) by (field; lra).
      lra. }
  split; [|split].
  - destruct (nonzero_counts exts) eqn:E; [rewrite Hempty; [lra|reflexivity]|].
    apply Hmain. discriminate.
  - intros Hlen. apply Hmain. destruct (nonzero_counts exts);
      [simpl in Hlen; lia | discriminate].
  - intros Hlen. destruct (nonzero_counts exts) as [|a [|b [|c l]]] eqn:E.
    + rewrite Hempty; [lra | reflexivity].
    + destruct Hmain as [_ Hle]; [discriminate|].
      unfold log2 in Hle. simpl in Hle. rewrite ln_1 in Hle.
      unfold Rdiv in Hle. lra.
    + destruct Hmain as [_ Hle]; [discriminate|].
      unfold log2 in Hle. simpl (INR _) in Hle.
      replace (1 + 1) with 2 in Hle by lra.
      replace (ln 2 / ln 2) with 1 in Hle by (field; lra).
      exact Hle.
    + simpl in Hlen. lia.
Qed.
End EntropyBounds.

(** ** agent: more on the orchestrator *)

Section AgentMore.
  Context `{UnicodeData} `{Unidecode} `{Config}.
  Import agent.

Lemma lastn_length {A} n (l : list A) : (length (lastn n l) <= n)%nat.
Proof. unfold lastn. rewrite length_skipn. lia. Qed.

Lemma sublist_skipn {A} n (l : list A) : sublist (skipn n l) l.
Proof.
  revert n. induction l as [|x l IH]; intros [|n]; simpl;
    try reflexivity.
  apply sublist_cons. apply IH.
Qed.

Lemma sublist_filter_keeps {A} (f : A -> bool) l : sublist (List.filter f l) l.
Proof.
  induction l as [|x l IH]; simpl; [constructor|].
  destruct (f x); [apply sublist_skip | apply sublist_cons]; exact IH.
Qed.

Lemma sublist_map {A B} (g : A -> B) l1 l2 :
  sublist l1 l2 -> sublist (List.map g l1) (List.map g l2).
Proof.
  induction 1; simpl; [constructor | apply sublist_skip | apply sublist_cons];
    assumption.
Qed.

(** X19.  The memory part of a prompt holds the last twelve entries of the
    memory among those of the kinds [list_dir], [inspect_file],
    [owner_hint] and [policy_hint], in the order of the memory: never more
    than twelve records, whatever the length of the run. *)
Theorem build_prompt_memory mem obs :
  prompt_mem (build_prompt mem obs)
  = List.map JObj (lastn 12 (List.filter relevant_memo mem))
  /\ (length (prompt_mem (build_prompt mem obs)) <= 12)%nat
  /\ sublist (prompt_mem (build_prompt mem obs)) (List.map JObj mem).
Proof.
  assert (E : prompt_mem (build_prompt mem obs)
              = List.map JObj (lastn 12 (List.filter relevant_memo mem))).
  { unfold build_prompt. cbn [prompt_mem]. f_equal.
    fold relevant_memo. unfold lastn.
    rewrite List.filter_rev, List.firstn_rev, rev_involutive.
    reflexivity. }
  rewrite E. split; [reflexivity|]. split.
  - rewrite length_map. apply lastn_length.
  - apply sublist_map. unfold lastn.
    etransitivity; [apply sublist_skipn | apply sublist_filter_keeps].
Qed.

Lemma in_removelast {A} (x : A) l : In x (removelast l) -> In x l.
Proof.
  induction l as [|y l IH]; simpl; [tauto|].
  destruct l as [|z l']; [intros []|].
  intros [->|Hin]; [left; reflexivity | right; apply IH; exact Hin].
Qed.

Lemma in_insert_sorted x y l :
  In x (actions.insert_sorted y l) <-> x = y \/ In x l.
Proof.
  induction l as [|z l IH]; simpl; [intuition congruence|].
  destruct (actions.pystr_ltb y z); simpl; [intuition congruence|].
  rewrite IH. intuition congruence.
Qed.

Lemma in_sorted x l : In x (actions.sorted l) <-> In x l.
Proof.
  unfold actions.sorted. induction l as [|y l IH]; simpl; [tauto|].
  rewrite in_insert_sorted, IH. intuition congruence.
Qed.

(** X20.  The dependency guard looks at every component, so it is
    inherited downwards: below a dependency directory everything is
    guarded, and the parent of an unguarded path is unguarded.  And the
    expansion of a directory only queues entries of the listing whose
    normalized path is outside the dependency directories and whose name
    does not start with a dot. *)
Theorem dep_dir_guard_inherited :
  (forall p, _is_in_dep_dir (path_parent p) = true -> _is_in_dep_dir p = true)
  /\ (forall p seg,
        startswith (py "/") seg = false ->
        _is_in_dep_dir p = true -> _is_in_dep_dir (joinpath p seg) = true)
  /\ (forall items_res c,
        In c (List.map utils_fs.fs_norm_path (kept_kids items_res)) ->
        exists it,
          In it items_res /\ c = utils_fs.fs_norm_path it
          /\ _is_in_dep_dir (path_of_str c) = false
          /\ startswith (py ".") (path_name (path_of_str c)) = false).
Proof.
  split; [|split].
  - intros p. unfold _is_in_dep_dir, path_parts, path_parent. cbn [anchor comps].
    rewrite !existsb_app. intros Hp. apply orb_true_iff in Hp as [Hp|Hp];
      apply orb_true_iff; [left; exact Hp | right].
    apply existsb_exists in Hp as (x & Hin & Hx). apply existsb_exists.
    exists x. split; [apply in_removelast; exact Hin | exact Hx].
  - intros p seg Hrel. unfold _is_in_dep_dir, path_parts, joinpath.
    rewrite Hrel. cbn [anchor comps]. rewrite !existsb_app.
    intros Hp. apply orb_true_iff in Hp as [Hp|Hp]; rewrite Hp;
      [reflexivity|]. rewrite orb_true_r. reflexivity.
  - intros items_res c Hin. apply in_map_iff in Hin as (it & <- & Hin).
    unfold kept_kids in Hin. apply (proj1 (in_sorted _ _)) in Hin.
    apply List.filter_In in Hin as [Hin Hkeep].
    exists it. split; [exact Hin|]. split; [reflexivity|].
    unfold _keep in Hkeep.
    destruct (startswith (py ".") _) eqn:Ehid; [discriminate|].
    apply negb_true_iff in Hkeep. split; [exact Hkeep | reflexivity].
Qed.
End AgentMore.

(** ** agent: the budget of a run *)

Section CallCounts.
  Context {sel : happened -> bool}.

Lemma cam_mono {A} (m : prog A) n n' :
  calls_at_most sel n m -> (n <= n')%nat -> calls_at_most sel n' m.
Proof.
  intros Hm. revert n'. induction Hm as [n a|n exc|n X e k He Hk IH|n X e k He Hk IH];
    intros n' Hle.
  - constructor.
  - constructor.
  - destruct n' as [|n']; [lia|]. apply cam_count; [exact He|].
    intros x. apply IH. lia.
  - apply cam_skip; [exact He|]. intros x. apply IH. exact Hle.
Qed.

Lemma cam_bind {A B} (m : prog A) (k : A -> prog B) a b :
  calls_at_most sel a m -> (forall x, calls_at_most sel b (k x)) ->
  calls_at_most sel (a + b) (m ≫= k).
Proof.
  change (m ≫= k) with (prog_bind k m).
  intros Hm Hk. induction Hm as [n x|n exc|n X e k' He Hk' IH|n X e k' He Hk' IH];
    simpl.
  - apply (cam_mono (k x) b); [apply Hk | lia].
  - constructor.
  - apply cam_count; [exact He | exact IH].
  - apply cam_skip; [exact He | exact IH].
Qed.

Lemma cam_quiet {A} (m : prog A) n :
  events_all (fun h => sel h = false) m -> calls_at_most sel n m.
Proof.
  induction 1 as [a|exc|X e k He Hk IH]; [constructor | constructor|].
  apply cam_skip; [exact He | exact IH].
Qed.

Lemma cam_bind_quiet {A B} (m : prog A) (k : A -> prog B) n :
  events_all (fun h => sel h = false) m ->
  (forall x, calls_at_most sel n (k x)) ->
  calls_at_most sel n (m ≫= k).
Proof.
  intros Hm Hk. apply (cam_bind m k 0 n); [apply cam_quiet; exact Hm | exact Hk].
Qed.

Lemma cam_run {A W} (h : handler W) (m : prog A) n :
  calls_at_most sel n m ->
  forall w, (length (List.filter sel (snd (run_prog h m w))) <= n)%nat.
Proof.
  induction 1 as [n a|n exc|n X e k He Hk IH|n X e k He Hk IH]; intros w; simpl.
  - lia.
  - lia.
  - destruct (h X e w) as [x w']. specialize (IH x w').
    destruct (run_prog h (k x) w') as [[o w''] tr]. simpl in *.
    rewrite He. simpl. lia.
  - destruct (h X e w) as [x w']. specialize (IH x w').
    destruct (run_prog h (k x) w') as [[o w''] tr]. simpl in *.
    rewrite He. exact IH.
Qed.
End CallCounts.

Section Leaves.

Lemma leaves_all_bind {A B} (P : A -> Prop) (Q : B -> Prop)
      (m : prog A) (k : A -> prog B) :
  leaves_all P m -> (forall a, P a -> leaves_all Q (k a)) ->
  leaves_all Q (m ≫= k).
Proof.
  change (m ≫= k) with (prog_bind k m).
  induction 1 as [a Ha|exc|X e k' Hk' IH]; intros Hk; simpl.
  - apply Hk. exact Ha.
  - constructor.
  - constructor. intros x. apply IH. exact Hk.
Qed.

Lemma leaves_all_any {A} (m : prog A) : leaves_all (fun _ => True) m.
Proof.
  induction m as [a|exc|X e k IH]; constructor; [exact I | exact IH].
Qed.

Lemma leaves_all_bind_any {A B} (Q : B -> Prop) (m : prog A)
      (k : A -> prog B) :
  (forall a, leaves_all Q (k a)) -> leaves_all Q (m ≫= k).
Proof.
  intros Hk. apply (leaves_all_bind (fun _ => True));
    [apply leaves_all_any | intros a _; apply Hk].
Qed.
End Leaves.

(** One step of a proof that a program makes none of the selected calls. *)
Ltac quiet_step :=
  match goal with
  | |- events_all _ (Ret _) => constructor
  | |- events_all _ (Throw _) => constructor
  | |- events_all _ (mret _) => constructor
  | |- events_all _ (lift_res _) => apply events_all_lift
  | |- events_all _ (call _) => apply events_all_call; reflexivity
  | |- events_all _ (call_r _) => apply events_all_call_r; reflexivity
  | |- events_all _ (catch _ _) => apply events_all_catch; [|intros ?]
  | |- events_all _ (_ ≫= _) => apply events_all_bind; [|intros ?]
  | |- events_all _ (let '(_, _) := ?x in _) => destruct x
  | |- events_all _ (match ?x with _ => _ end) => destruct x eqn:?
  end.

Section Budget.
  Context `{UnicodeData} `{Unidecode} `{Config}.
  Import agent.

Lemma log_quiet record : events_all no_llm_call (log record).
Proof. unfold log. quiet_step. Qed.

Lemma log_all_quiet records : events_all no_llm_call (log_all records).
Proof.
  induction records as [|r rest IH]; cbn [log_all]; [constructor|].
  apply events_all_bind; [apply log_quiet | intros _; exact IH].
Qed.

Lemma tool_plan_move_quiet src root sub name :
  events_all no_llm_call (tools.tool_plan_move src root sub name).
Proof.
  unfold tools.tool_plan_move, tools._destination_root. repeat quiet_step.
Qed.

Lemma purge_loop_quiet moved queue keep : events_all no_llm_call (purge_loop moved queue keep).
Proof.
  revert keep; induction queue as [|q queue IH]; intros keep;
    cbn [purge_loop]; [constructor|].
  unfold resolve_or_self. repeat quiet_step; apply IH.
Qed.

Lemma purge_queue_under_quiet queue moved :
  events_all no_llm_call (purge_queue_under queue moved).
Proof.
  unfold purge_queue_under, resolve_or_self.
  repeat quiet_step. apply purge_loop_quiet.
Qed.

Lemma consensus_quiet self parent : events_all no_llm_call (cohesion.consensus self parent).
Proof. unfold cohesion.consensus. repeat quiet_step. Qed.

Lemma execute_move_quiet st key a : events_all no_llm_call (execute_move st key a).
Proof.
  unfold execute_move.
  repeat first [apply log_quiet | apply tool_plan_move_quiet
               | apply purge_queue_under_quiet | apply consensus_quiet
               | quiet_step].
Qed.

Lemma ask_decide_calls st key obs labels note :
  calls_at_most is_llm_call 1 (_ask_decide st key obs labels note).
Proof.
  unfold _ask_decide. cbv zeta.
  apply cam_bind_quiet; [apply log_quiet | intros _].
  apply (cam_bind _ _ 1 0).
  { apply cam_count; [reflexivity|]. intros x. constructor. }
  intros [plan raw]. apply cam_quiet.
  repeat first [apply log_quiet | apply log_all_quiet | quiet_step].
Qed.

(** One step of a proof that a program calls the model at most a given
    number of times. *)
Ltac budget_step :=
  match goal with
  | |- calls_at_most _ _ (Ret _) => constructor
  | |- calls_at_most _ _ (mret _) => constructor
  | |- calls_at_most _ _ (Throw _) => constructor
  | |- calls_at_most _ _ (execute_move _ _ _) =>
      apply cam_quiet, execute_move_quiet
  | |- calls_at_most _ _ (call (EvLLM _ _) ≫= _) =>
      apply (cam_bind _ _ 1);
      [apply cam_count; [reflexivity | intros ?; constructor] | intros ?]
  | |- calls_at_most _ _ (_ask_decide _ _ _ _ _ ≫= _) =>
      apply (cam_bind _ _ 1); [apply ask_decide_calls | intros ?]
  | |- calls_at_most _ _ ((match ?x with _ => _ end) ≫= _) =>
      destruct x eqn:?
  | |- calls_at_most _ _ (_ ≫= _) =>
      apply cam_bind_quiet;
      [solve [repeat first [apply log_quiet | apply log_all_quiet
                           | quiet_step]]
      | intros ?]
  | |- calls_at_most _ _ (let '(_, _) := ?x in _) => destruct x
  | |- calls_at_most _ _ (match ?x with _ => _ end) => destruct x eqn:?
  end.

(** One iteration of the loop calls the model at most twice. *)
Lemma step_body_calls labels st :
  calls_at_most is_llm_call 2 (step_body labels st).
Proof.
  unfold step_body. cbv zeta. repeat budget_step.
Qed.

(** Closing a goal on the step counter of a state. *)
Ltac step_field :=
  cbn [step set_queue set_stage set_inspected set_fail_counts mem_append
       set_tracker set_snap_cache set_step fst snd] in *;
  repeat match goal with
         | |- context [step (match ?x with _ => _ end)] => destruct x
         end;
  cbn [step set_queue set_stage set_inspected set_fail_counts mem_append
       set_tracker set_snap_cache set_step fst snd] in *;
  first [reflexivity | assumption | congruence].

(** One step of a proof that every state a program returns has a given
    step counter. *)
Ltac leaves_step c :=
  match goal with
  | |- leaves_all _ (Ret _) => constructor; step_field
  | |- leaves_all _ (mret _) => constructor; step_field
  | |- leaves_all _ (Throw _) => constructor
  | |- leaves_all _ ((match ?x with _ => _ end) ≫= _) => destruct x eqn:?
  | |- leaves_all _ (?m ≫= _) =>
      match type of m with
      | prog run_state =>
          apply (leaves_all_bind (fun st' => step st' = c));
          [|intros ? ?]
      | prog (_ * run_state) =>
          apply (leaves_all_bind (fun r => step (snd r) = c));
          [|intros ? ?]
      | _ => apply leaves_all_bind_any; intros ?
      end
  | |- leaves_all _ (let '(_, _) := ?x in _) => destruct x
  | |- leaves_all _ (match ?x with _ => _ end) => destruct x eqn:?
  end.

Lemma ask_decide_keeps_step st key obs labels note c :
  step st = c ->
  leaves_all (fun r => step (snd r) = c)
             (_ask_decide st key obs labels note).
Proof.
  intros Hc. unfold _ask_decide. cbv zeta.
  destruct (negb (is_nil note)); repeat leaves_step c.
Qed.

Lemma execute_move_keeps_step st key a c :
  step st = c ->
  leaves_all (fun st' => step st' = c) (execute_move st key a).
Proof.
  intros Hc. unfold execute_move. cbv zeta.
  repeat leaves_step c.
Qed.

(** One iteration of the loop advances the step counter by one. *)
Lemma step_body_advances labels st :
  queue st <> [] ->
  leaves_all (fun st' => step st' = (step st + 1)%Z) (step_body labels st).
Proof.
  intros Hq. unfold step_body. destruct (queue st) as [|q0 queue_tail];
    [contradiction|].
  cbv zeta.
  repeat first [ apply execute_move_keeps_step; step_field
               | apply ask_decide_keeps_step; step_field
               | leaves_step (step st + 1)%Z ].
Qed.

Lemma leaves_all_impl {A} (P Q : A -> Prop) (m : prog A) :
  leaves_all P m -> (forall a, P a -> Q a) -> leaves_all Q m.
Proof.
  induction 1 as [a Ha|exc|X e k Hk IH]; intros Himp; constructor.
  - apply Himp. exact Ha.
  - intros x. apply IH. exact Himp.
Qed.

Lemma run_loop_stops fuel labels :
  forall st,
    (MAX_STEPS <= step st + Z.of_nat fuel)%Z ->
    leaves_all
      (fun st' => (queue st' = [] \/ (MAX_STEPS <= step st')%Z)
                  /\ (step st' <= Z.max (step st) MAX_STEPS)%Z)
      (run_loop fuel labels st).
Proof.
  induction fuel as [|fuel IH]; intros st Hfuel; cbn [run_loop].
  - constructor. split; [right|]; lia.
  - destruct (is_nil (queue st)) eqn:Eq; cbn [orb].
    { constructor. destruct (queue st); [|discriminate].
      split; [left; reflexivity | lia]. }
    destruct (step st <? MAX_STEPS)%Z eqn:Es; cbn [negb].
    2:{ constructor. apply Z.ltb_ge in Es. split; [right|]; lia. }
    apply Z.ltb_lt in Es.
    apply (leaves_all_bind (fun st' => step st' = (step st + 1)%Z)).
    { apply step_body_advances. destruct (queue st); discriminate. }
    intros st' Hst'.
    apply (leaves_all_impl _ _ _ (IH st' ltac:(lia))).
    intros st'' [Hend Hle]. split; [exact Hend | lia].
Qed.

Lemma run_loop_calls fuel labels :
  forall st,
    calls_at_most is_llm_call (2 * fuel) (run_loop fuel labels st).
Proof.
  induction fuel as [|fuel IH]; intros st; cbn [run_loop].
  - constructor.
  - destruct (_ || _); [constructor|].
    replace (2 * S fuel)%nat with (2 + 2 * fuel)%nat by lia.
    apply cam_bind; [apply step_body_calls | exact IH].
Qed.

(** X21.  The budget of a run.  [run] ends with an empty queue or with
    the step counter at [MAX_STEPS], never beyond it: the loop makes at
    most [MAX_STEPS] iterations, each advancing the counter by one.  And
    whatever the model and the file system answer, a run calls the model
    at most twice per iteration, [2 * MAX_STEPS] times in all. *)
Theorem run_within_budget items :
  leaves_all
    (fun st => (queue st = [] \/ (MAX_STEPS <= step st)%Z)
               /\ (step st <= Z.max 0 MAX_STEPS)%Z)
    (run items)
  /\ forall W (h : handler W) w,
       (length (List.filter is_llm_call (snd (run_prog h (run items) w)))
        <= 2 * Z.to_nat MAX_STEPS)%nat.
Proof.
  unfold run. split.
  - apply (run_loop_stops (Z.to_nat MAX_STEPS) actions.allowed_root_names
             (initial_state items)).
    cbn [step initial_state]. lia.
  - intros W h w. apply cam_run. apply run_loop_calls.
Qed.
End Budget.

(** ** agent: what a run never undoes *)

Section Growth.
  Context `{UnicodeData} `{Unidecode} `{Config}.
  Import agent.

Lemma grows_refl st : grows_from st st.
Proof.
  split; [exists []; rewrite app_nil_r; reflexivity|].
  split; [auto | intros p; lia].
Qed.

Lemma grows_fields st0 s s' :
  grows_from st0 s ->
  (exists more, mem s' = mem s ++ more) ->
  (forall key, stage s !! key = Some ST_DECIDE ->
               stage s' !! key = Some ST_DECIDE) ->
  (forall p, (default 0 (inspected_count s !! p)
              <= default 0 (inspected_count s' !! p))%Z) ->
  grows_from st0 s'.
Proof.
  intros ((more & Hm) & Hs & Hi) (more' & Hm') Hs' Hi'. split; [|split].
  - exists (more ++ more'). rewrite Hm', Hm, app_assoc. reflexivity.
  - intros key Hk. apply Hs', Hs, Hk.
  - intros p. specialize (Hi p). specialize (Hi' p). lia.
Qed.

Ltac same_fields :=
  first [ exists []; rewrite app_nil_r; reflexivity
        | intros ? Hk; exact Hk
        | intros ?; apply Z.le_refl ].

Lemma grows_set_queue st0 s q : grows_from st0 s -> grows_from st0 (set_queue s q).
Proof. intros Hg. apply (grows_fields st0 s); [exact Hg|..]; same_fields. Qed.

Lemma grows_set_fail_counts st0 s m :
  grows_from st0 s -> grows_from st0 (set_fail_counts s m).
Proof. intros Hg. apply (grows_fields st0 s); [exact Hg|..]; same_fields. Qed.

Lemma grows_set_tracker st0 s t :
  grows_from st0 s -> grows_from st0 (set_tracker s t).
Proof. intros Hg. apply (grows_fields st0 s); [exact Hg|..]; same_fields. Qed.

Lemma grows_set_snap_cache st0 s c :
  grows_from st0 s -> grows_from st0 (set_snap_cache s c).
Proof. intros Hg. apply (grows_fields st0 s); [exact Hg|..]; same_fields. Qed.

Lemma grows_set_step st0 s n : grows_from st0 s -> grows_from st0 (set_step s n).
Proof. intros Hg. apply (grows_fields st0 s); [exact Hg|..]; same_fields. Qed.

Lemma grows_mem_append st0 s m :
  grows_from st0 s -> grows_from st0 (mem_append s m).
Proof.
  intros Hg. apply (grows_fields st0 s); [exact Hg| |same_fields|same_fields].
  exists [m]. reflexivity.
Qed.

Lemma grows_set_stage st0 s key :
  grows_from st0 s -> grows_from st0 (set_stage s key ST_DECIDE).
Proof.
  intros Hg. apply (grows_fields st0 s); [exact Hg|same_fields| |same_fields].
  intros key' Hk. cbn [stage set_stage].
  destruct (decide (key = key')) as [->|Hne].
  - apply lookup_insert_eq.
  - rewrite lookup_insert_ne by exact Hne. exact Hk.
Qed.

Lemma grows_set_inspected st0 s s1 p :
  grows_from st0 s ->
  inspected_count s1 = inspected_count s ->
  grows_from st0
    (set_inspected s
       (<[ p := (default 0 (inspected_count s1 !! p) + 1)%Z ]>
          (inspected_count s1))).
Proof.
  intros Hg Hs1. apply (grows_fields st0 s); [exact Hg|same_fields|same_fields|].
  intros p'. cbn [inspected_count set_inspected]. rewrite Hs1.
  destruct (decide (p = p')) as [->|Hne].
  - rewrite lookup_insert_eq. cbn. lia.
  - rewrite lookup_insert_ne by exact Hne. lia.
Qed.

(** Closing a goal on the growth of a state built by the setters. *)
Ltac grows_solve :=
  repeat match goal with
         | |- grows_from _ (match ?x with _ => _ end) => destruct x
         | |- grows_from _ (set_queue _ _) => apply grows_set_queue
         | |- grows_from _ (set_fail_counts _ _) => apply grows_set_fail_counts
         | |- grows_from _ (set_tracker _ _) => apply grows_set_tracker
         | |- grows_from _ (set_snap_cache _ _) => apply grows_set_snap_cache
         | |- grows_from _ (set_step _ _) => apply grows_set_step
         | |- grows_from _ (mem_append _ _) => apply grows_mem_append
         | |- grows_from _ (set_stage _ _ ST_DECIDE) => apply grows_set_stage
         | |- grows_from _ (set_inspected _ _) =>
             apply grows_set_inspected; [|reflexivity]
         end;
  first [assumption | apply grows_refl].

(** One step of a proof that every state a program returns continues a
    given state. *)
Ltac grows_step st0 :=
  match goal with
  | |- leaves_all _ (Ret ?a) =>
      constructor; cbn [fst snd]; grows_solve
  | |- leaves_all _ (mret ?a) =>
      constructor; cbn [fst snd]; grows_solve
  | |- leaves_all _ (Throw _) => constructor
  | |- leaves_all _ ((match ?x with _ => _ end) ≫= _) => destruct x eqn:?
  | |- leaves_all _ (?m ≫= _) =>
      match type of m with
      | prog run_state =>
          apply (leaves_all_bind (grows_from st0)); [|intros ? ?]
      | prog (_ * run_state) =>
          apply (leaves_all_bind (fun r => grows_from st0 (snd r)));
          [|intros [? ?] ?]
      | _ => apply leaves_all_bind_any; intros ?
      end
  | |- leaves_all _ (let '(_, _) := ?x in _) => destruct x
  | |- leaves_all _ (match ?x with _ => _ end) => destruct x eqn:?
  end.

Lemma ask_decide_grows st0 st key obs labels note :
  grows_from st0 st ->
  leaves_all (fun r => grows_from st0 (snd r))
             (_ask_decide st key obs labels note).
Proof.
  intros Hg. unfold _ask_decide. cbv zeta.
  destruct (negb (is_nil note)); repeat grows_step st0.
Qed.

Lemma execute_move_grows st0 st key a :
  grows_from st0 st ->
  leaves_all (grows_from st0) (execute_move st key a).
Proof.
  intros Hg. unfold execute_move. cbv zeta.
  repeat grows_step st0.
Qed.

Lemma step_body_grows labels st :
  leaves_all (grows_from st) (step_body labels st).
Proof.
  unfold step_body. destruct (queue st) as [|q0 queue_tail];
    [constructor; apply grows_refl|].
  cbv zeta.
  repeat first [ apply execute_move_grows; cbn [fst snd] in *; grows_solve
               | apply ask_decide_grows; cbn [fst snd] in *; grows_solve
               | grows_step st ].
Qed.

Lemma grows_trans st0 st1 st2 :
  grows_from st0 st1 -> grows_from st1 st2 -> grows_from st0 st2.
Proof. intros H01 (Hm & Hs & Hi). apply (grows_fields st0 st1); assumption. Qed.

(** X22.  What a run never undoes.  Over any number of iterations of the
    loop, the memory is only appended to, a target that has reached the
    DECIDE stage stays in it, and no inspection count goes down. *)
Theorem run_loop_grows fuel labels st :
  leaves_all
    (fun st' =>
       (exists more, mem st' = mem st ++ more)
       /\ (forall key, stage st !! key = Some ST_DECIDE ->
                       stage st' !! key = Some ST_DECIDE)
       /\ (forall p, (default 0 (inspected_count st !! p)
                      <= default 0 (inspected_count st' !! p))%Z))
    (run_loop fuel labels st).
Proof.
  change (leaves_all (grows_from st) (run_loop fuel labels st)).
  revert st. induction fuel as [|fuel IH]; intros st; cbn [run_loop].
  - constructor. apply grows_refl.
  - destruct (_ || _); [constructor; apply grows_refl|].
    apply (leaves_all_bind (grows_from st)); [apply step_body_grows|].
    intros st' Hst'. apply (leaves_all_impl _ _ _ (IH st')).
    intros st'' Hst''. exact (grows_trans _ _ _ Hst' Hst'').
Qed.
End Growth.

(** ** snapshot: the destination trees and the content summary *)

Section ListFacts.

End ListFacts.

Section SortFacts.
  Context {A K : Type}.
  Variable key : A -> K.
  Variable before : K -> K -> bool.
  Hypothesis before_asym :
    forall a b, before a b = true -> before b a = false.
  Hypothesis before_negtrans :
    forall a b c, before b a = false -> before c b = false ->
                  before c a = false.



Lemma insert_by_key_in z x l :
  In z (insert_by_key key before x l) <-> z = x \/ In z l.
Proof.
  induction l as [|y l IH]; simpl; [intuition congruence|].
  destruct (before (key y) (key x)); simpl; [|intuition congruence].
  rewrite IH. intuition congruence.
Qed.


Lemma insert_by_key_ascending x l :
  ascending_by key before l ->
  ascending_by key before (insert_by_key key before x l).
Proof.
  induction l as [|y l IH]; intros Hl; simpl.
  - split; [constructor | exact I].
  - destruct Hl as [Hy Hl]. destruct (before (key y) (key x)) eqn:E.
    + split; [|apply IH; exact Hl].
      apply List.Forall_forall. intros z Hz.
      apply insert_by_key_in in Hz as [->|Hz].
      * apply before_asym. exact E.
      * rewrite List.Forall_forall in Hy. apply Hy. exact Hz.
    + split; [|split; assumption].
      constructor; [exact E|].
      eapply Forall_impl; [exact Hy|]. intros z Hz. simpl in Hz.
      exact (before_negtrans (key x) (key y) (key z) E Hz).
Qed.

Lemma sort_by_key_ascending l :
  ascending_by key before (sort_by_key key before l).
Proof.
  unfold sort_by_key. induction l as [|x l IH]; simpl; [exact I|].
  apply insert_by_key_ascending. exact IH.
Qed.

End SortFacts.

Section SnapshotFacts.
  Context `{UnicodeData}.
  Import snapshot.



Variable listing : pystr -> res (list (pystr * bool)).





Lemma summary_loop_counts p entries : forall files dirs hist,
  cohesion.counter_total hist = files ->
  let '(files', dirs', hist') := summary_loop p entries files dirs hist in
  cohesion.counter_total hist' = files'
  /\ (files' + dirs' <= files + dirs + length entries)%nat
  /\ (files <= files')%nat /\ (dirs <= dirs')%nat.
Proof.
  induction entries as [|e rest IH]; intros files dirs hist Hh;
    cbn [summary_loop].
  - simpl. split; [exact Hh | lia].
  - cbv zeta. destruct (hidden _).
    + specialize (IH files dirs hist Hh).
      destruct (summary_loop p rest files dirs hist) as [[f d] h].
      simpl. intuition lia.
    + destruct (snd e).
      * destruct (ignored _).
        -- specialize (IH files dirs hist Hh).
           destruct (summary_loop p rest files dirs hist) as [[f d] h].
           simpl. intuition lia.
        -- specialize (IH files (S dirs) hist Hh).
           destruct (summary_loop p rest files (S dirs) hist) as [[f d] h].
           simpl. intuition lia.
      * match goal with |- context [summary_loop p rest (S files) dirs ?h'] =>
          specialize (IH (S files) dirs h');
          destruct (summary_loop p rest (S files) dirs h') as [[f d] h]
        end.
        rewrite counter_incr_total, Hh in IH. specialize (IH eq_refl).
        simpl. intuition lia.
Qed.

Lemma insert_by_count_total (x : pystr * nat) l :
  cohesion.counter_total
    (insert_by_key snd (fun a b => (b <? a)%nat) x l)
  = (snd x + cohesion.counter_total l)%nat.
Proof.
  unfold cohesion.counter_total.
  induction l as [|y l IH]; simpl; [reflexivity|].
  destruct (snd x <? snd y)%nat; simpl; [rewrite IH; lia | reflexivity].
Qed.

Lemma sort_by_count_total (l : list (pystr * nat)) :
  cohesion.counter_total (sort_by_key snd (fun a b => (b <? a)%nat) l)
  = cohesion.counter_total l.
Proof.
  unfold sort_by_key. induction l as [|x l IH]; simpl; [reflexivity|].
  rewrite insert_by_count_total, IH. reflexivity.
Qed.

(** X25.  The content summary of a directory accounts for its entries:
    the counts in the extension histogram add up to the number of files,
    files and directories together are no more than the entries listed,
    and the histogram comes with the largest count first.  When the
    directory cannot be listed, all counts are zero. *)
Theorem content_summary_accounts p :
  exists files dirs hist,
    content_summary_for_dir listing p
    = [(py "path", JStr (path_str p));
       (py "files", JInt (Z.of_nat files));
       (py "dirs", JInt (Z.of_nat dirs));
       (py "ext_hist",
        JArr (List.map
                (fun kv => JArr [JStr (fst kv); JInt (Z.of_nat (snd kv))])
                hist))]
    /\ cohesion.counter_total hist = files
    /\ ascending_by snd (fun a b => (b <? a)%nat) hist
    /\ match listing (path_str p) with
       | Ok entries => (files + dirs <= length entries)%nat
       | Raise _ => files = 0%nat /\ dirs = 0%nat /\ hist = []
       end.
Proof.
  unfold content_summary_for_dir.
  destruct (listing (path_str p)) as [entries|exc].
  - pose proof (summary_loop_counts p entries 0 0 [] eq_refl) as Hc.
    destruct (summary_loop p entries 0 0 []) as [[files dirs] hist].
    destruct Hc as (Hh & Hle & _ & _).
    eexists files, dirs, _. split; [reflexivity|].
    split; [rewrite sort_by_count_total; exact Hh|].
    split; [|simpl in Hle; lia].
    apply sort_by_key_ascending.
    + intros a b Hab. apply Nat.ltb_lt in Hab. apply Nat.ltb_ge. lia.
    + intros a b c Hab Hbc. apply Nat.ltb_ge in Hab, Hbc. apply Nat.ltb_ge. lia.
  - exists 0%nat, 0%nat, []. repeat split.
Qed.
End SnapshotFacts.


(** ** tools: [tool_list_dir] *)

Section ListDirFacts.
  Context `{UnicodeData}.
  Import tools_dir.

Lemma list_loop_ok root entries : forall items,
  Forall (fun e => skipped root e = false ->
                   exists st, entry_stat e = Ok st) entries ->
  list_loop root entries items
  = Ok (items ++
        flat_map
          (fun e => match entry_stat e with
                    | Ok (size, mtime) =>
                        if skipped root e then []
                        else [item_of root e size mtime]
                    | Raise _ => []
                    end) entries).
Proof.
  induction entries as [|e rest IH]; intros items Hall; cbn [list_loop flat_map].
  - rewrite app_nil_r. reflexivity.
  - inversion Hall as [|? ? He Hrest]; subst.
    destruct (skipped root e) eqn:Es.
    + rewrite (IH items Hrest). destruct (entry_stat e) as [[size mtime]|exc];
        reflexivity.
    + destruct (He eq_refl) as [[size mtime] ->].
      rewrite (IH _ Hrest), <- app_assoc. reflexivity.
Qed.

Lemma list_loop_fails root entries : forall items,
  Exists (fun e => skipped root e = false
                   /\ exists exc, entry_stat e = Raise exc) entries ->
  exists exc, list_loop root entries items = Raise exc.
Proof.
  induction entries as [|e rest IH]; intros items Hex; [inversion Hex|].
  cbn [list_loop]. destruct (skipped root e) eqn:Es.
  - inversion Hex as [? ? [Hc _]|? ? Hrest]; subst; [congruence|].
    apply IH. exact Hrest.
  - destruct (entry_stat e) as [[size mtime]|exc] eqn:Est.
    + inversion Hex as [? ? [_ [exc Hc]]|? ? Hrest]; subst; [congruence|].
      apply IH. exact Hrest.
    + exists exc. reflexivity.
Qed.

(** X9.  [tool_list_dir] is all or nothing.  When the directory can be
    listed and [stat()] succeeds on every entry that is not skipped, the
    result has no error and one item for each such entry, in the order of
    the listing; entries whose name starts with a dot, the special folder
    and symbolic links are skipped without a [stat()].  When the listing
    fails, or [stat()] fails on one entry that is not skipped, the items
    already collected are dropped: the result is an empty item list with
    an error text. *)
Theorem tool_list_dir_all_or_nothing path scan :
  let root := path_of_str path in
  match scan with
  | Ok entries =>
      (Forall (fun e => skipped root e = false ->
                        exists st, entry_stat e = Ok st) entries ->
       tool_list_dir path scan
       = [(py "items",
           JArr (flat_map
                   (fun e => match entry_stat e with
                             | Ok (size, mtime) =>
                                 if skipped root e then []
                                 else [item_of root e size mtime]
                             | Raise _ => []
                             end) entries))])
      /\ (Exists (fun e => skipped root e = false
                           /\ exists exc, entry_stat e = Raise exc) entries ->
          exists exc,
            tool_list_dir path scan
            = [(py "items", JArr []);
               (py "error", JStr (py "list_dir:" ++ exc))])
  | Raise exc =>
      tool_list_dir path scan
      = [(py "items", JArr []); (py "error", JStr (py "list_dir:" ++ exc))]
  end.
Proof.
  intros root. unfold tool_list_dir. destruct scan as [entries|exc];
    [|reflexivity].
  cbn [mbind res_bind]. fold root. split.
  - intros Hall. rewrite (list_loop_ok root entries [] Hall). reflexivity.
  - intros Hex. destruct (list_loop_fails root entries [] Hex) as [exc ->].
    exists exc. reflexivity.
Qed.
End ListDirFacts.

(** ** utils_fs: [safe_move] *)

Section SafeMoveFacts.
  Context `{UnicodeData} `{Unidecode}.
  Import staging.

Lemma free_target_absent fuel dst_dir : forall target i (k : option path -> prog (option pystr)),
  (forall t, moves_onto_absent (Some (path_str t)) (k (Some t))) ->
  moves_onto_absent None (k None) ->
  moves_onto_absent None (free_target fuel dst_dir target i ≫= k).
Proof.
  induction fuel as [|fuel IH]; intros target i k Hsome Hnone;
    cbn [free_target].
  - exact Hnone.
  - change (moves_onto_absent None
              (Vis (EvExists (path_str target))
                 (fun taken : bool =>
                    (if taken
                     then free_target fuel dst_dir
                            (next_target dst_dir target i) (S i)
                     else mret (Some target)) ≫= k))).
    apply moa_exists.
    + apply IH; assumption.
    + apply Hsome.
Qed.

(** X3.  [safe_move] never overwrites: whatever the file system answers,
    the only move it asks for goes onto the path that the call right
    before it found absent; and in a dry run it asks for no move at
    all. *)
Theorem safe_move_never_overwrites DRY_RUN fuel src dst_dir new_name :
  moves_onto_absent None (safe_move DRY_RUN fuel src dst_dir new_name)
  /\ (DRY_RUN = true ->
      events_all (fun h => is_move h = false)
                 (safe_move DRY_RUN fuel src dst_dir new_name)).
Proof.
  unfold safe_move. cbv zeta. split.
  - apply moa_other; [reflexivity|]. intros [[]|exc]; [|constructor].
    apply free_target_absent.
    + intros t. destruct DRY_RUN; [constructor|].
      apply moa_move. intros [[]|exc]; constructor.
    + constructor.
  - intros ->. apply events_all_bind.
    { apply events_all_call_r. reflexivity. }
    intros _. apply events_all_bind.
    + generalize 1%nat. generalize (joinpath dst_dir
        (utils_fs.safe_ascii
           match new_name with
           | Some n => if is_nil n then path_name src else n
           | None => path_name src
           end)).
      induction fuel as [|fuel IH]; intros target i; cbn [free_target];
        [constructor|].
      apply events_all_bind; [apply events_all_call; reflexivity|].
      intros [|]; [apply IH | constructor].
    + intros [t|]; [|constructor]. cbn. constructor.
Qed.
End SafeMoveFacts.

Section SafeMoveEnds.
  Context `{UnicodeData} `{Unidecode}.
  Import staging.

Variable existing : gset pystr.
Variable dst_dir : path.
Hypothesis dst_proper : proper_path dst_dir.

Lemma joinpath_proper p seg : proper_path p -> proper_path (joinpath p seg).
Proof.
  intros [Ha Hc]. unfold joinpath.
  destruct (startswith (py "/") seg); [apply path_of_str_proper|].
  split; [exact Ha|]. cbn [comps]. apply Forall_app. split; [exact Hc|].
  apply (path_of_str_proper seg).
Qed.

Lemma proper_name_no_sep p : proper_path p -> ~ In 47 (path_name p).
Proof.
  intros [_ Hc]. unfold path_name.
  destruct (comps p) as [|c cs] eqn:E using rev_ind; [intros []|].
  rewrite last_last. apply Forall_app in Hc as [_ Hc].
  inversion Hc as [|? ? (_ & _ & Hsep) _]. exact Hsep.
Qed.

Lemma dec_digits_no_sep fuel : forall n acc,
  ~ In 47 acc -> ~ In 47 (dec_digits fuel n acc).
Proof.
  induction fuel as [|fuel IH]; intros n acc Hacc; cbn [dec_digits];
    [exact Hacc|].
  assert (Hacc' : ~ In 47 ((48 + N.of_nat (n mod 10)) :: acc)).
  { intros [Hc|Hc]; [lia | exact (Hacc Hc)]. }
  destruct (n / 10 =? 0)%nat; [exact Hacc' | apply IH; exact Hacc'].
Qed.

Lemma stem_suffix_name p : path_stem p ++ path_suffix p = path_name p.
Proof.
  unfold path_stem, path_suffix. cbv zeta.
  destruct (rfind_dot (path_name p) 0 None) as [i|]; [|apply app_nil_r].
  destruct ((0 <? i)%nat && (i <? length (path_name p) - 1)%nat);
    [apply firstn_skipn | apply app_nil_r].
Qed.

(** The name of the next target: plain, and longer than the name of the
    target by at least four characters. *)
Lemma next_target_name target i :
  ~ In 47 (path_name target) ->
  let name' := path_stem target ++ py " (" ++ str_of_nat i ++ py ")"
               ++ path_suffix target in
  plain_name name'
  /\ next_target dst_dir target i
     = {| anchor := anchor dst_dir; comps := comps dst_dir ++ [name'] |}
  /\ (length (path_name target) < length name')%nat.
Proof.
  intros Hsep name'.
  pose proof (stem_suffix_name target) as Hsplit.
  assert (Hstem : ~ In 47 (path_stem target)).
  { intros Hin. apply Hsep. rewrite <- Hsplit. apply in_or_app. left. exact Hin. }
  assert (Hsuf : ~ In 47 (path_suffix target)).
  { intros Hin. apply Hsep. rewrite <- Hsplit. apply in_or_app. right. exact Hin. }
  assert (Hdig : ~ In 47 (str_of_nat i)).
  { apply dec_digits_no_sep. intros []. }
  assert (Hin32 : In 32 name').
  { unfold name'. apply in_or_app. right. apply in_or_app. left.
    left. reflexivity. }
  assert (Hplain : plain_name name').
  { repeat split.
    - intros Hc. rewrite Hc in Hin32. exact Hin32.
    - intros Hc. rewrite Hc in Hin32. destruct Hin32 as [Hc'|[]]. discriminate.
    - intros Hc. rewrite Hc in Hin32.
      destruct Hin32 as [Hc'|[Hc'|[]]]; discriminate.
    - unfold name'. intros Hin.
      apply in_app_or in Hin as [Hin|Hin]; [exact (Hstem Hin)|].
      apply in_app_or in Hin as [Hin|Hin].
      { destruct Hin as [Hc|[Hc|[]]]; discriminate. }
      apply in_app_or in Hin as [Hin|Hin]; [exact (Hdig Hin)|].
      apply in_app_or in Hin as [Hin|Hin]; [|exact (Hsuf Hin)].
      destruct Hin as [Hc|[]]; discriminate. }
  split; [exact Hplain|]. split.
  - unfold next_target. fold name'. apply joinpath_plain. exact Hplain.
  - unfold name'. rewrite <- Hsplit. rewrite !length_app. simpl. lia.
Qed.

(** The length of the text of a target in [dst_dir] grows with its name. *)
Lemma text_length_base :
  exists base, forall n,
    length (path_str {| anchor := anchor dst_dir;
                        comps := comps dst_dir ++ [n] |})
    = (base + length n)%nat.
Proof.
  destruct (comps dst_dir) as [|c cs] eqn:Ec.
  - exists (length (anchor dst_dir)). intros n. unfold path_str.
    cbn [anchor comps app join].
    destruct (anchor dst_dir); [destruct n|]; simpl;
      rewrite ?length_app; simpl; lia.
  - exists (length (anchor dst_dir) + length (join (py "/") (c :: cs)) + 1)%nat.
    intros n. unfold path_str. cbn [anchor comps].
    assert (Ej : length (join (py "/") ((c :: cs) ++ [n]))
                 = (length (join (py "/") (c :: cs)) + 1 + length n)%nat).
    { rewrite join_snoc by discriminate. rewrite !length_app. simpl. lia. }
    destruct (anchor dst_dir) eqn:Ea.
    + destruct ((c :: cs) ++ [n]) eqn:E; [destruct cs; discriminate|].
      rewrite app_nil_l, Ej. simpl. lia.
    + destruct ((c :: cs) ++ [n]) eqn:E; [destruct cs; discriminate|].
      rewrite length_app, Ej. simpl. lia.
Qed.

(** A target that is a plain name inside [dst_dir]. *)
Definition in_dst (t : path) : Prop :=
  exists name, plain_name name
               /\ t = {| anchor := anchor dst_dir;
                         comps := comps dst_dir ++ [name] |}.

Lemma in_dst_name t : in_dst t -> ~ In 47 (path_name t).
Proof.
  intros (name & (_ & _ & _ & Hsep) & ->). unfold path_name. cbn [comps].
  rewrite last_last. exact Hsep.
Qed.

Lemma next_target_longer t i :
  ~ In 47 (path_name t) ->
  in_dst (next_target dst_dir t i)
  /\ (in_dst t ->
      (length (path_str t) < length (path_str (next_target dst_dir t i)))%nat).
Proof.
  intros Hsep. destruct (next_target_name t i Hsep) as (Hplain & Hnext & Hlen).
  split; [eexists; split; [exact Hplain | exact Hnext]|].
  intros (name & Hname & Ht). rewrite Hnext.
  destruct text_length_base as [base Hb].
  assert (Hn : path_name t = name).
  { rewrite Ht. unfold path_name. cbn [comps]. apply last_last. }
  rewrite Hn in Hlen. rewrite Ht at 1. rewrite !Hb. lia.
Qed.

(** The targets probed after a target of [dst_dir] have longer and longer
    texts: no two are the same. *)
Lemma candidates_distinct n : forall t i,
  in_dst t ->
  Forall (fun c => (length (path_str t) <= length (path_str c))%nat)
         (candidates n dst_dir t i)
  /\ NoDup (List.map path_str (candidates n dst_dir t i)).
Proof.
  induction n as [|n IH]; intros t i Ht; cbn [candidates List.map].
  - split; constructor.
  - destruct (next_target_longer t i (in_dst_name t Ht)) as [Hnext Hlt].
    specialize (Hlt Ht).
    destruct (IH (next_target dst_dir t i) (S i) Hnext) as [Hall Hnd].
    split.
    + constructor; [lia|]. eapply Forall_impl; [exact Hall|].
      intros c Hc. simpl in Hc. lia.
    + apply NoDup_cons. split; [|exact Hnd].
      intros Hin. apply list_elem_of_In, in_map_iff in Hin as (c & Hc & Hin).
      rewrite List.Forall_forall in Hall. specialize (Hall c Hin).
      rewrite Hc in Hall. lia.
Qed.

Lemma free_target_run fuel : forall t i,
  run_prog (frozen_fs existing) (free_target fuel dst_dir t i) tt
  = (Returned
       (List.find (fun c => negb (bool_decide (path_str c ∈ existing)))
                  (candidates fuel dst_dir t i)),
     tt,
     List.map (fun c => Happened (EvExists (path_str c)))
       (match List.find
                (fun c => negb (bool_decide (path_str c ∈ existing)))
                (candidates fuel dst_dir t i) with
        | Some _ => []
        | None => []
        end)
     ++ snd (run_prog (frozen_fs existing)
                      (free_target fuel dst_dir t i) tt)).
Proof.
  induction fuel as [|fuel IH]; intros t i; cbn [free_target candidates].
  - reflexivity.
  - cbn [List.find]. simpl run_prog.
    destruct (bool_decide (path_str t ∈ existing)); cbn [negb].
    + rewrite (IH (next_target dst_dir t i) (S i)).
      destruct (List.find _ _); reflexivity.
    + reflexivity.
Qed.

Lemma find_none_all {A} (f : A -> bool) l :
  List.find f l = None -> Forall (fun x => f x = false) l.
Proof.
  induction l as [|x l IH]; simpl; [constructor|].
  destruct (f x) eqn:E; [discriminate|]. intros Hn.
  constructor; [exact E | apply IH; exact Hn].
Qed.

Lemma find_some_holds {A} (f : A -> bool) l x :
  List.find f l = Some x -> f x = true.
Proof.
  induction l as [|y l IH]; simpl; [discriminate|].
  destruct (f y) eqn:E; [intros [= <-]; exact E | exact IH].
Qed.

(** With more probes than existing paths, one target is free. *)
Lemma free_target_found fuel name0 :
  (size existing + 2 <= fuel)%nat ->
  exists t,
    List.find (fun c => negb (bool_decide (path_str c ∈ existing)))
              (candidates fuel dst_dir (joinpath dst_dir name0) 1)
    = Some t
    /\ path_str t ∉ existing.
Proof.
  intros Hfuel.
  destruct (List.find _ _) as [t|] eqn:Ef.
  { exists t. split; [reflexivity|]. apply find_some_holds in Ef.
    apply negb_true_iff, bool_decide_eq_false in Ef. exact Ef. }
  exfalso. apply find_none_all in Ef.
  destruct fuel as [|fuel]; [lia|]. cbn [candidates] in Ef.
  inversion Ef as [|? ? _ Hrest]; subst.
  set (t0 := joinpath dst_dir name0) in *.
  assert (Hsep : ~ In 47 (path_name t0)).
  { apply proper_name_no_sep, joinpath_proper, dst_proper. }
  destruct (next_target_longer t0 1 Hsep) as [Hnext _].
  destruct (candidates_distinct fuel _ 2 Hnext) as [_ Hnd].
  assert (Hsub : list_to_set
                   (List.map path_str
                      (candidates fuel dst_dir (next_target dst_dir t0 1) 2))
                 ⊆ existing).
  { intros x Hx. apply elem_of_list_to_set, list_elem_of_In in Hx.
    apply in_map_iff in Hx as (c & <- & Hc).
    rewrite List.Forall_forall in Hrest. specialize (Hrest c Hc).
    apply negb_false_iff, bool_decide_eq_true in Hrest. exact Hrest. }
  apply subseteq_size in Hsub. rewrite size_list_to_set in Hsub by exact Hnd.
  rewrite length_map in Hsub.
  assert (Hlen : forall n t i, length (candidates n dst_dir t i) = n).
  { induction n as [|n IHn]; intros t i; simpl; [reflexivity|].
    rewrite IHn. reflexivity. }
  rewrite Hlen in Hsub. lia.
Qed.

(** X4.  [safe_move] returns.  In a file system that nothing else
    changes and that holds finitely many paths, the loop that looks for a
    free name ends: two probes more than there are existing paths are
    enough, and the path returned did not exist. *)
Theorem safe_move_finds_free_name DRY_RUN fuel src new_name :
  (size existing + 2 <= fuel)%nat ->
  exists t,
    fst (fst (run_prog (frozen_fs existing)
                (safe_move DRY_RUN fuel src dst_dir new_name) tt))
    = Returned (Some t)
    /\ t ∉ existing.
Proof.
  intros Hfuel. unfold safe_move. cbv zeta.
  set (name0 := utils_fs.safe_ascii _).
  destruct (free_target_found fuel name0 Hfuel) as (t & Hfind & Hfree).
  exists (path_str t). split; [|exact Hfree].
  rewrite run_prog_bind.
  change (run_prog (frozen_fs existing)
            (call_r (EvMkdir (path_str dst_dir))) tt)
    with (@Returned unit tt, tt, [Happened (EvMkdir (path_str dst_dir))]).
  cbv iota beta.
  rewrite run_prog_bind, free_target_run, Hfind.
  destruct DRY_RUN; reflexivity.
Qed.
End SafeMoveEnds.

Lemma safe_move_finds_free_name_witness :
  exists t,
    fst (fst (run_prog (frozen_fs two_taken)
                (@staging.safe_move plain_unicode dropping_unidecode false 4
                   (path_of_str (py "/d/a.txt")) (path_of_str (py "/in"))
                   None) tt))
    = Returned (Some t)
    /\ t ∉ two_taken.
Proof.
  apply (@safe_move_finds_free_name plain_unicode dropping_unidecode two_taken
           (path_of_str (py "/in")) (path_of_str_proper (py "/in"))).
  vm_compute. lia.
Defined.
